(** * GNINA HPC workflow: batch docking engine and tiered funnel

    A shallow embedding of [scripts/docking_engine.py] (class
    [GNINADockingEngine]), of the parts of [scripts/config.py] it calls, and
    of [scripts/tiered_workflow.py] (class [TieredCNNWorkflow]), followed by
    the properties of the batch execution engine: artifact naming, output
    parsing, the completion ledger, the thread-pool scheduler and the funnel
    filter.

    Conventions of the embedding.
    - Python [str] is [string]; text files hold ASCII text.
    - Python [set] of strings is [gset string]; [dict] keyed by strings is
      [gmap string _]; a list of dicts is a list of records, a key that may
      be absent is an [option] field.
    - CNN scores are finite numbers and are represented by rationals [Q];
      the not-a-number and infinite values of IEEE floats are outside the
      model.
    - Code that may raise returns an [outcome]; the external docking tool,
      the clock and the thread interleaving are inputs of the model. *)

From Stdlib Require Import List String Ascii ZArith QArith Qround Lia Lqa.
From Stdlib Require Import Permutation Sorted Bool.
From stdpp Require Import base gmap strings pretty.
Import ListNotations.
Open Scope string_scope.
Open Scope list_scope.

(* ================================================================== *)
(** ** Python string primitives *)
(* ================================================================== *)

Module Py.

(** [s.endswith(suffix)] *)
Fixpoint endswith (s suffix : string) : bool :=
  if String.eqb s suffix then true
  else match s with
       | EmptyString => false
       | String _ s' => endswith s' suffix
       end.

(** [pat in s] for strings: some suffix of [s] starts with [pat]. *)
Fixpoint contains (pat s : string) : bool :=
  if String.prefix pat s then true
  else match s with
       | EmptyString => false
       | String _ s' => contains pat s'
       end.

(** [c in s] for a single character. *)
Fixpoint has_char (c : ascii) (s : string) : bool :=
  match s with
  | EmptyString => false
  | String d s' => if Ascii.eqb c d then true else has_char c s'
  end.

(** [s.replace(old, new)] for a non-empty [old]: every non-overlapping
    occurrence, scanning from the left.  [skip] counts the characters of an
    occurrence that are still to be dropped. *)
Fixpoint replace_from (old new : string) (skip : nat) (s : string) : string :=
  match s with
  | EmptyString => EmptyString
  | String c s' =>
      match skip with
      | S k => replace_from old new k s'
      | O =>
          if String.prefix old s
          then new +:+ replace_from old new (Nat.pred (String.length old)) s'
          else String c (replace_from old new O s')
      end
  end.

Definition replace (old new s : string) : string := replace_from old new 0 s.

(** [s.split(sep)] for a one-character separator: always at least one
    field, empty fields are kept. *)
Fixpoint split_on (sep : ascii) (s : string) : list string :=
  match s with
  | EmptyString => [EmptyString]
  | String c s' =>
      if Ascii.eqb c sep then EmptyString :: split_on sep s'
      else match split_on sep s' with
           | f :: fs => String c f :: fs
           | [] => [String c EmptyString]
           end
  end.

(** The ASCII characters for which [str.isspace] holds. *)
Definition isspace (c : ascii) : bool :=
  let n := nat_of_ascii c in
  ((9 <=? n)%nat && (n <=? 13)%nat) || ((28 <=? n)%nat && (n <=? 32)%nat).

(** [s.split()]: maximal runs of non-blank characters.  [cur] is the token
    being read, in reverse. *)
Fixpoint split_ws_from (cur : list ascii) (s : string) : list string :=
  let flush := match cur with
               | [] => []
               | _ => [string_of_list_ascii (rev cur)]
               end in
  match s with
  | EmptyString => flush
  | String c s' =>
      if isspace c then flush ++ split_ws_from [] s'
      else split_ws_from (c :: cur) s'
  end.

Definition split_ws (s : string) : list string := split_ws_from [] s.

(** [sep.join(parts)] *)
Definition join (sep : string) (parts : list string) : string :=
  String.concat sep parts.

End Py.

(** Exceptions that reach a caller. *)
Inductive exn : Type :=
| ValueError (msg : string)
| TypeError (msg : string)
| AttributeError (msg : string)
| ZeroDivisionError
| OSError (msg : string)
| JSONDecodeError.

Inductive outcome (A : Type) : Type :=
| Return (a : A)
| Raise (e : exn).
Arguments Return {A} a.
Arguments Raise {A} e.

(** [str(e)] *)
Definition exn_message (e : exn) : string :=
  match e with
  | ValueError msg | TypeError msg | AttributeError msg | OSError msg => msg
  | ZeroDivisionError => "division by zero"
  | JSONDecodeError => "Expecting value"
  end.

(** [outcome] is a monad; sequencing is written [x ← m; k]. *)
#[global] Instance outcome_ret : MRet outcome := fun A a => Return a.
#[global] Instance outcome_bind : MBind outcome := fun A B k m =>
  match m with
  | Return a => k a
  | Raise e => Raise e
  end.

(* ================================================================== *)
(** ** Data model *)
(* ================================================================== *)

(** One row of the pair list.  The six box columns are kept as the text
    that [str()] gives for the cell, which is all the engine does with
    them. *)
Record Row := mkRow {
  receptor : string;
  ligand : string;
  site_id : string;
  center_x : string; center_y : string; center_z : string;
  size_x : string; size_y : string; size_z : string
}.

(** The identity key of a work item. *)
Definition key (row : Row) : string * string * string :=
  (receptor row, site_id row, ligand row).

(** [GNINADockingConfig]: the entries of [hpc_config], [base_config] and
    [active_config] that the engine reads. *)
Record Config := mkConfig {
  gnina_binary : string;
  use_apptainer : bool;
  use_gpu_flag : string;
  apptainer_image : string;
  hpc_gnina_binary : string;
  exhaustiveness : nat;
  num_modes : nat;
  seed : nat;
  cnn_scoring : string;
  cnn_rotation : nat;
  min_rmsd_filter : string;
  pose_sort_order : nat;
  use_gpu : bool;
  base_use_gpu : bool;
  gpu_device : nat;
  cpu_cores : nat;
  add_hydrogens : bool;
  strip_hydrogens : bool;
  timeout : nat
}.

(** [GNINADockingConfig.get_gnina_command_base] *)
Definition get_gnina_command_base (c : Config) : list string :=
  [ "--exhaustiveness"; pretty (exhaustiveness c);
    "--num_modes"; pretty (num_modes c);
    "--seed"; pretty (seed c);
    "--cnn_scoring"; cnn_scoring c;
    "--cnn_rotation"; pretty (cnn_rotation c);
    "--min_rmsd_filter"; min_rmsd_filter c;
    "--pose_sort_order"; pretty (pose_sort_order c) ]
  ++ (if use_gpu c && base_use_gpu c
      then ["--device"; pretty (gpu_device c)]
      else ["--cpu"; pretty (cpu_cores c)])
  ++ (if add_hydrogens c then ["--addH"] else [])
  ++ (if strip_hydrogens c then ["--stripH"] else []).

(** [GNINADockingConfig.get_apptainer_command] *)
Definition get_apptainer_command (c : Config) (gnina_args : list string)
  : list string :=
  if negb (use_apptainer c) then gnina_args
  else ["apptainer"; "exec"; use_gpu_flag c; apptainer_image c;
        hpc_gnina_binary c] ++ gnina_args.

(** The [tag] of [build_gnina_command], which is also the [pair_id] of
    [run_single_docking]. *)
Definition pair_id (row : Row) : string :=
  receptor row +:+ "_" +:+ site_id row +:+ "_" +:+ ligand row.

Definition output_sdf_of (tag : string) : string :=
  "gnina_out/" +:+ tag +:+ "_poses.sdf".

Definition log_file_of (tag : string) : string :=
  "logs/" +:+ tag +:+ ".log".

(** [GNINADockingEngine.build_gnina_command]: the command line, the output
    artifact and the log file.  [None] and the empty list of flexible
    residues are both false in the test [if flexible_residues]. *)
Definition build_gnina_command (c : Config) (row : Row)
    (flexible_residues : option (list string))
  : list string * string * string :=
  let receptor_path := "receptors/" +:+ receptor row +:+ ".pdbqt" in
  let ligand_path := "ligands/" +:+ ligand row +:+ ".pdbqt" in
  let tag := pair_id row in
  let output_sdf := output_sdf_of tag in
  let log_file := log_file_of tag in
  let gnina_args :=
    [ "--receptor"; receptor_path; "--ligand"; ligand_path;
      "--out"; output_sdf; "--log"; log_file ]
    ++ [ "--center_x"; center_x row; "--center_y"; center_y row;
         "--center_z"; center_z row; "--size_x"; size_x row;
         "--size_y"; size_y row; "--size_z"; size_z row ]
    ++ get_gnina_command_base c
    ++ match flexible_residues with
       | Some (r :: rs) =>
           [ "--flexres"; Py.join "," (r :: rs); "--flexdist"; "3.5";
             "--out_flex"; "gnina_out/" +:+ tag +:+ "_flex.pdbqt" ]
       | _ => []
       end in
  (get_apptainer_command c gnina_args, output_sdf, log_file).

(** The artifact path that a work item key is mapped to. *)
Definition artifact_path (k : string * string * string) : string :=
  let '(r, s, l) := k in
  output_sdf_of (r +:+ "_" +:+ s +:+ "_" +:+ l).

(** One entry of the [scores] list built by [parse_gnina_output]. *)
Record PoseScore := mkPose {
  pose_id : nat;
  cnn_score : Q;
  cnn_affinity : Q
}.

Inductive Status : Type := success | error | timeout_status.

(** The dict returned by [run_single_docking]; a key that only some of
    its branches set is an [option]. *)
Record Result := mkResult {
  status : Status;
  r_receptor : string;
  r_ligand : string;
  r_site_id : string;
  output_file : option string;
  log_file : option string;
  scores : option (list PoseScore);
  command : option string;
  error_detail : option string;
  returncode : option Z;
  r_pair_id : string;
  batch_idx : option nat
}.

(** A file is text, or something that [open]/[read] fails on. *)
Inductive file : Type :=
| Text (content : string)
| Unreadable.

(** The files on disk, by path.  Directories are implicit: the three
    output directories are created by [__init__]. *)
Abbreviation FileSystem := (gmap string file).

(** How a child process started by [subprocess.run] ends. *)
Inductive ProcessOutcome : Type :=
| Exited (rc : Z) (stderr : string)
| TimeoutExpired
| SpawnFailed (msg : string).

(** What the engine takes from outside the repository: Python's [float]
    on a token (on the finite values), and the docking tool run as a child
    process with a timeout, which may change the files on disk. *)
Class Runtime := {
  py_float : string -> option Q;
  subprocess_run : list string -> nat -> FileSystem -> ProcessOutcome * FileSystem
}.

(** The state outside the engine object: the disk, and the commands handed
    to [subprocess.run] so far. *)
Record World := mkWorld {
  fs : FileSystem;
  launched : list (list string)
}.

(** [os.path.exists] *)
Definition path_exists (d : FileSystem) (path : string) : bool :=
  bool_decide (is_Some (d !! path)).

(** [open(path, 'r').read()] *)
Definition read_text (d : FileSystem) (path : string) : outcome string :=
  match d !! path with
  | Some (Text c) => Return c
  | Some Unreadable => Raise (OSError "cannot read")
  | None => Raise (OSError "No such file or directory")
  end.

Definition strip_prefix_opt (p s : string) : option string :=
  if String.prefix p s
  then Some (String.substring (String.length p)
                              (String.length s - String.length p) s)
  else None.

(** [os.listdir(dir)], files only: the names [n] without a slash such that
    [dir/n] is on disk. *)
Definition listdir (d : FileSystem) (dir : string) : list string :=
  omap (fun path =>
          match strip_prefix_opt (dir +:+ "/") path with
          | Some n => if Py.has_char "/"%char n then None else Some n
          | None => None
          end)
       (elements (dom d)).

(* ================================================================== *)
(** ** The output parser and the tool invoker *)
(* ================================================================== *)

Section Engine.
Context {rt : Runtime}.

(** The body of the [for] loop of [parse_gnina_output] on one line.  The
    inner [try] turns a missing or non-numeric last token into
    [continue]. *)
Definition scan_line (acc : list PoseScore) (line : string) : list PoseScore :=
  if Py.contains "CNNscore" line then
    match last (Py.split_ws line) with
    | None => acc
    | Some tok =>
        match py_float tok with
        | None => acc
        | Some v => acc ++ [mkPose (length acc + 1) v v]
        end
    end
  else acc.

(** The [try] block of [parse_gnina_output], started with [scores = acc]:
    the list as the block leaves it, and whether the block raised. *)
Definition parse_body (d : FileSystem) (output_sdf log : string)
    (acc : list PoseScore) : list PoseScore * outcome unit :=
  let '(acc1, r1) :=
    if path_exists d output_sdf then
      match read_text d output_sdf with
      | Return content =>
          (fold_left scan_line (Py.split_on "010"%char content) acc, Return tt)
      | Raise e => (acc, Raise e)
      end
    else (acc, Return tt) in
  match r1 with
  | Raise e => (acc1, Raise e)
  | Return _ =>
      if path_exists d log then
        match read_text d log with
        | Return _ => (acc1, Return tt)
        | Raise e => (acc1, Raise e)
        end
      else (acc1, Return tt)
  end.

(** [GNINADockingEngine.parse_gnina_output]: [except Exception] prints and
    falls through to [return scores]. *)
Definition parse_gnina_output (d : FileSystem) (output_sdf log : string)
  : outcome (list PoseScore) :=
  let '(acc, r) := parse_body d output_sdf log [] in
  match r with
  | Return _ => Return acc
  | Raise _ => Return acc
  end.

Definition error_result (row : Row) (msg : string) (rc : option Z) : Result :=
  {| status := error; r_receptor := receptor row; r_ligand := ligand row;
     r_site_id := site_id row; output_file := None; log_file := None;
     scores := None; command := None; error_detail := Some msg;
     returncode := rc; r_pair_id := pair_id row; batch_idx := None |}.

Definition timeout_result (row : Row) (seconds : nat) : Result :=
  {| status := timeout_status; r_receptor := receptor row;
     r_ligand := ligand row; r_site_id := site_id row; output_file := None;
     log_file := None; scores := None; command := None;
     error_detail := Some ("Timeout after " +:+ pretty seconds +:+ "s");
     returncode := None; r_pair_id := pair_id row; batch_idx := None |}.

Definition success_result (row : Row) (cmd : list string)
    (output_sdf log : string) (sc : list PoseScore) : Result :=
  {| status := success; r_receptor := receptor row; r_ligand := ligand row;
     r_site_id := site_id row; output_file := Some output_sdf;
     log_file := Some log; scores := Some sc;
     command := Some (Py.join " " cmd); error_detail := None;
     returncode := None; r_pair_id := pair_id row; batch_idx := None |}.

(** [GNINADockingEngine.run_single_docking].  [completed] is the value of
    [self.completed_pairs] when the test is made.  [None] is the skip. *)
Definition run_single_docking (cfg : Config) (completed : gset string)
    (row : Row) (flexible_residues : option (list string)) (w : World)
  : option Result * World :=
  if bool_decide (pair_id row ∈ completed) then (None, w)
  else
    let '(cmd, output_sdf, log) := build_gnina_command cfg row flexible_residues in
    let '(po, d') := subprocess_run cmd (timeout cfg) (fs w) in
    let w' := {| fs := d'; launched := launched w ++ [cmd] |} in
    match po with
    | Exited rc stderr =>
        if (rc =? 0)%Z && path_exists d' output_sdf then
          match parse_gnina_output d' output_sdf log with
          | Return sc => (Some (success_result row cmd output_sdf log sc), w')
          | Raise ex => (Some (error_result row (exn_message ex) None), w')
          end
        else (Some (error_result row stderr (Some rc)), w')
    | TimeoutExpired => (Some (timeout_result row (timeout cfg)), w')
    | SpawnFailed msg => (Some (error_result row msg None), w')
    end.

(** One iteration of the [for] loop of [_process_batch]: [acc] is
    [batch_results]. *)
Definition process_row (cfg : Config) (completed : gset string)
    (flexible_residues_dict : option (gmap string (list string)))
    (idx : nat) (row : Row) (acc : list Result) (w : World)
  : list Result * World :=
  let flexible_residues :=
    match flexible_residues_dict with
    | Some fd => fd !! receptor row
    | None => None
    end in
  match run_single_docking cfg completed row flexible_residues w with
  | (Some r, w') =>
      (acc ++ [ {| status := status r; r_receptor := r_receptor r;
                   r_ligand := r_ligand r; r_site_id := r_site_id r;
                   output_file := output_file r; log_file := log_file r;
                   scores := scores r; command := command r;
                   error_detail := error_detail r;
                   returncode := returncode r; r_pair_id := r_pair_id r;
                   batch_idx := Some idx |} ], w')
  | (None, w') => (acc, w')
  end.

(** [GNINADockingEngine._process_batch] on the rows [batch_df], when no
    other thread changes the ledger during the call. *)
Fixpoint _process_batch (cfg : Config) (completed : gset string)
    (flexible_residues_dict : option (gmap string (list string)))
    (idx : nat) (batch_df : list Row) (acc : list Result) (w : World)
  : list Result * World :=
  match batch_df with
  | [] => (acc, w)
  | row :: rest =>
      let '(acc', w') :=
        process_row cfg completed flexible_residues_dict idx row acc w in
      _process_batch cfg completed flexible_residues_dict idx rest acc' w'
  end.

End Engine.

(* ================================================================== *)
(** ** The [json] module, as far as the ledger file uses it *)
(* ================================================================== *)

Module Json.

#[local] Set Warnings "-register-all".

(** JSON values.  A number that is not an integer is kept as its
    literal. *)
Inductive json : Type :=
| JNull
| JBool (b : bool)
| JInt (z : Z)
| JLit (literal : string)
| JStr (s : string)
| JArr (items : list json)
| JObj (members : list (string * json)).

(** The double quote character. *)
Definition dquote : ascii := "034"%char.

Definition hex_digit (n : nat) : ascii :=
  match String.get n "0123456789abcdef" with
  | Some c => c
  | None => "0"%char
  end.

(** The escape of one character inside a JSON string ([ensure_ascii]). *)
Definition escape_char (c : ascii) : string :=
  let n := nat_of_ascii c in
  if Ascii.eqb c dquote then String "\" (String dquote "")
  else if Ascii.eqb c "\"%char then "\\"
  else if (n =? 10)%nat then "\n"
  else if (n =? 13)%nat then "\r"
  else if (n =? 9)%nat then "\t"
  else if (n =? 8)%nat then "\b"
  else if (n =? 12)%nat then "\f"
  else if (n <? 32)%nat || (127 <? n)%nat
       then "\u00" +:+ String (hex_digit (n / 16)) (String (hex_digit (n mod 16)) "")
       else String c "".

Fixpoint escape (s : string) : string :=
  match s with
  | EmptyString => EmptyString
  | String c s' => escape_char c +:+ escape s'
  end.

Definition quote (s : string) : string :=
  String dquote (escape s +:+ String dquote "").

Fixpoint spaces (n : nat) : string :=
  match n with
  | O => EmptyString
  | S k => String " " (spaces k)
  end.

(** A line break followed by the indentation of nesting level [lvl]. *)
Definition newline (lvl : nat) : string := String "010" (spaces (2 * lvl)).

(** [json.dumps(v, indent=2)] at nesting level [lvl]. *)
Fixpoint dumps_at (lvl : nat) (v : json) : string :=
  match v with
  | JNull => "null"
  | JBool true => "true"
  | JBool false => "false"
  | JInt z => pretty z
  | JLit l => l
  | JStr s => quote s
  | JArr [] => "[]"
  | JArr items =>
      "[" +:+ newline (S lvl)
      +:+ String.concat ("," +:+ newline (S lvl)) (map (dumps_at (S lvl)) items)
      +:+ newline lvl +:+ "]"
  | JObj [] => "{}"
  | JObj members =>
      "{" +:+ newline (S lvl)
      +:+ String.concat ("," +:+ newline (S lvl))
            (map (fun kv => quote (fst kv) +:+ ": " +:+ dumps_at (S lvl) (snd kv))
                 members)
      +:+ newline lvl +:+ "}"
  end.

Definition dumps (v : json) : string := dumps_at 0 v.

(** *** Reading *)

Definition is_ws (c : ascii) : bool :=
  let n := nat_of_ascii c in
  (n =? 32)%nat || (n =? 9)%nat || (n =? 10)%nat || (n =? 13)%nat.

Fixpoint skip_ws (s : list ascii) : list ascii :=
  match s with
  | c :: s' => if is_ws c then skip_ws s' else s
  | [] => []
  end.

Definition digit_val (c : ascii) : option nat :=
  let n := nat_of_ascii c in
  if (48 <=? n)%nat && (n <=? 57)%nat then Some (n - 48) else None.

Definition hex_val (c : ascii) : option nat :=
  let n := nat_of_ascii c in
  if (48 <=? n)%nat && (n <=? 57)%nat then Some (n - 48)
  else if (97 <=? n)%nat && (n <=? 102)%nat then Some (n - 87)
  else if (65 <=? n)%nat && (n <=? 70)%nat then Some (n - 55)
  else None.

(** The characters of a string literal after its opening quote, up to the
    closing quote.  An escape above U+00FF is read as [?]. *)
Fixpoint read_string (skip : nat) (s : list ascii) : option (string * list ascii) :=
  match s with
  | [] => None
  | c :: s' =>
      match skip with
      | S k => read_string k s'
      | O =>
          if Ascii.eqb c dquote then Some (EmptyString, s')
          else if Ascii.eqb c "\"%char then
            match s' with
            | e :: s'' =>
                let simple (d : ascii) :=
                  match read_string 1 s' with
                  | Some (t, r) => Some (String d t, r)
                  | None => None
                  end in
                if Ascii.eqb e "n"%char then simple "010"%char
                else if Ascii.eqb e "r"%char then simple "013"%char
                else if Ascii.eqb e "t"%char then simple "009"%char
                else if Ascii.eqb e "b"%char then simple "008"%char
                else if Ascii.eqb e "f"%char then simple "012"%char
                else if Ascii.eqb e dquote then simple dquote
                else if Ascii.eqb e "\"%char then simple "\"%char
                else if Ascii.eqb e "/"%char then simple "/"%char
                else if Ascii.eqb e "u"%char then
                  match s'' with
                  | h1 :: h2 :: h3 :: h4 :: _ =>
                      match hex_val h1, hex_val h2, hex_val h3, hex_val h4 with
                      | Some a, Some b, Some c3, Some d =>
                          let ch := if (a =? 0)%nat && (b =? 0)%nat
                                    then ascii_of_nat (16 * c3 + d)
                                    else "?"%char in
                          match read_string 5 s' with
                          | Some (t, r) => Some (String ch t, r)
                          | None => None
                          end
                      | _, _, _, _ => None
                      end
                  | _ => None
                  end
                else None
            | [] => None
            end
          else if (nat_of_ascii c <? 32)%nat then None
          else match read_string 0 s' with
               | Some (t, r) => Some (String c t, r)
               | None => None
               end
      end
  end.

Fixpoint read_digits (s : list ascii) : list ascii * list ascii :=
  match s with
  | c :: s' =>
      match digit_val c with
      | Some _ => let '(ds, r) := read_digits s' in (c :: ds, r)
      | None => ([], s)
      end
  | [] => ([], [])
  end.

Definition digits_Z (ds : list ascii) : Z :=
  fold_left (fun acc c => match digit_val c with
                          | Some d => (10 * acc + Z.of_nat d)%Z
                          | None => acc
                          end) ds 0%Z.

(** A number: an integer becomes [JInt], anything with a fraction or an
    exponent is kept as [JLit]. *)
Definition read_number (s : list ascii) : option (json * list ascii) :=
  let '(neg, s1) := match s with
                    | c :: r => if Ascii.eqb c "-"%char then (true, r) else (false, s)
                    | [] => (false, s)
                    end in
  let '(ip, s2) := read_digits s1 in
  match ip with
  | [] => None
  | d0 :: ds =>
      if Ascii.eqb d0 "0"%char && negb (Nat.eqb (length ds) 0) then None
      else
        let '(fp, s3) := match s2 with
                         | c :: r =>
                             if Ascii.eqb c "."%char
                             then let '(f, r') := read_digits r in (c :: f, r')
                             else ([], s2)
                         | [] => ([], s2)
                         end in
        let '(ep, s4) := match s3 with
                         | c :: r =>
                             if Ascii.eqb c "e"%char || Ascii.eqb c "E"%char then
                               let '(sg, r1) :=
                                 match r with
                                 | g :: r' =>
                                     if Ascii.eqb g "+"%char || Ascii.eqb g "-"%char
                                     then ([g], r') else ([], r)
                                 | [] => ([], r)
                                 end in
                               let '(e, r2) := read_digits r1 in
                               (c :: sg ++ e, r2)
                             else ([], s3)
                         | [] => ([], s3)
                         end in
        match fp, ep with
        | [], [] => Some (JInt (if neg then - digits_Z ip else digits_Z ip)%Z, s4)
        | _, _ =>
            if (match fp with [_] => true | _ => false end)
               || (match ep with [_] | [_; "+"%char] | [_; "-"%char] => true
                   | _ => false end)
            then None
            else Some (JLit (string_of_list_ascii
                               ((if neg then ["-"%char] else []) ++ ip ++ fp ++ ep)),
                       s4)
        end
  end.

Definition expect (lit : string) (v : json) (s : list ascii)
  : option (json * list ascii) :=
  let l := list_ascii_of_string lit in
  if bool_decide (take (length l) s = l) then Some (v, drop (length l) s)
  else None.

(** The items of an array after its first value, [n] bounding their
    number: [, value]* followed by the closing bracket. *)
Fixpoint read_items (value : list ascii -> option (json * list ascii))
    (n : nat) (s : list ascii) : option (list json * list ascii) :=
  match n with
  | O => None
  | S k =>
      match skip_ws s with
      | c :: r =>
          if Ascii.eqb c "]"%char then Some ([], r)
          else if Ascii.eqb c ","%char then
            match value r with
            | Some (v, r') =>
                match read_items value k r' with
                | Some (vs, r'') => Some (v :: vs, r'')
                | None => None
                end
            | None => None
            end
          else None
      | [] => None
      end
  end.

Definition read_member (value : list ascii -> option (json * list ascii))
    (s : list ascii) : option (string * json * list ascii) :=
  match skip_ws s with
  | q :: r =>
      if Ascii.eqb q dquote then
        match read_string 0 r with
        | Some (k, r1) =>
            match skip_ws r1 with
            | c :: r2 =>
                if Ascii.eqb c ":"%char then
                  match value r2 with
                  | Some (v, r3) => Some (k, v, r3)
                  | None => None
                  end
                else None
            | [] => None
            end
        | None => None
        end
      else None
  | [] => None
  end.

Fixpoint read_members (value : list ascii -> option (json * list ascii))
    (n : nat) (s : list ascii) : option (list (string * json) * list ascii) :=
  match n with
  | O => None
  | S k =>
      match skip_ws s with
      | c :: r =>
          if Ascii.eqb c "}"%char then Some ([], r)
          else if Ascii.eqb c ","%char then
            match read_member value r with
            | Some (key, v, r') =>
                match read_members value k r' with
                | Some (ms, r'') => Some ((key, v) :: ms, r'')
                | None => None
                end
            | None => None
            end
          else None
      | [] => None
      end
  end.

(** One value; [fuel] bounds the nesting depth. *)
Fixpoint read_value (fuel : nat) (s : list ascii) : option (json * list ascii) :=
  match fuel with
  | O => None
  | S f =>
      match skip_ws s with
      | [] => None
      | c :: r =>
          if Ascii.eqb c dquote then
            match read_string 0 r with
            | Some (t, r') => Some (JStr t, r')
            | None => None
            end
          else if Ascii.eqb c "["%char then
            match skip_ws r with
            | d :: r' =>
                if Ascii.eqb d "]"%char then Some (JArr [], r')
                else match read_value f r with
                     | Some (v, r1) =>
                         match read_items (read_value f) (S (length r1)) r1 with
                         | Some (vs, r2) => Some (JArr (v :: vs), r2)
                         | None => None
                         end
                     | None => None
                     end
            | [] => None
            end
          else if Ascii.eqb c "{"%char then
            match skip_ws r with
            | d :: r' =>
                if Ascii.eqb d "}"%char then Some (JObj [], r')
                else match read_member (read_value f) r with
                     | Some (k, v, r1) =>
                         match read_members (read_value f) (S (length r1)) r1 with
                         | Some (ms, r2) => Some (JObj ((k, v) :: ms), r2)
                         | None => None
                         end
                     | None => None
                     end
            | [] => None
            end
          else if Ascii.eqb c "t"%char then expect "true" (JBool true) (c :: r)
          else if Ascii.eqb c "f"%char then expect "false" (JBool false) (c :: r)
          else if Ascii.eqb c "n"%char then expect "null" JNull (c :: r)
          else read_number (c :: r)
      end
  end.

(** [json.loads]: one value and nothing but blanks after it. *)
Definition loads (text : string) : outcome json :=
  let s := list_ascii_of_string text in
  match read_value (S (length s)) s with
  | Some (v, r) =>
      match skip_ws r with
      | [] => Return v
      | _ => Raise JSONDecodeError
      end
  | None => Raise JSONDecodeError
  end.

(** [d.get(k)] on a decoded object: a later duplicate key wins. *)
Definition get (k : string) (members : list (string * json)) : option json :=
  snd <$> last (filter (fun kv => fst kv = k) members).

End Json.

(* ================================================================== *)
(** ** The completion ledger *)
(* ================================================================== *)

(** The attributes of a [GNINADockingEngine] object. *)
Record Engine := mkEngine {
  config : Config;
  max_workers : nat;
  completed_pairs : gset string;
  total_pairs : nat;
  results : list Result
}.

(** [GNINADockingEngine.__init__] *)
Definition new_engine (cfg : Config) (workers : nat) : Engine :=
  {| config := cfg; max_workers := workers; completed_pairs := ∅;
     total_pairs := 0; results := [] |}.

Definition state_file : string := "results/docking_state.json".

Definition set_completed (e : Engine) (c : gset string) : Engine :=
  {| config := config e; max_workers := max_workers e; completed_pairs := c;
     total_pairs := total_pairs e; results := results e |}.

Definition set_total (e : Engine) (n : nat) : Engine :=
  {| config := config e; max_workers := max_workers e;
     completed_pairs := completed_pairs e; total_pairs := n;
     results := results e |}.

Definition set_results (e : Engine) (rs : list Result) : Engine :=
  {| config := config e; max_workers := max_workers e;
     completed_pairs := completed_pairs e; total_pairs := total_pairs e;
     results := rs |}.

(** [config.active_config] as a JSON object. *)
Definition active_config_json (c : Config) : Json.json :=
  Json.JObj
    [ ("gnina_binary", Json.JStr (gnina_binary c));
      ("exhaustiveness", Json.JInt (Z.of_nat (exhaustiveness c)));
      ("num_modes", Json.JInt (Z.of_nat (num_modes c)));
      ("seed", Json.JInt (Z.of_nat (seed c)));
      ("cpu_cores", Json.JInt (Z.of_nat (cpu_cores c)));
      ("timeout", Json.JInt (Z.of_nat (timeout c)));
      ("min_rmsd_filter", Json.JLit (min_rmsd_filter c));
      ("pose_sort_order", Json.JInt (Z.of_nat (pose_sort_order c)));
      ("cnn_rotation", Json.JInt (Z.of_nat (cnn_rotation c)));
      ("add_hydrogens", Json.JBool (add_hydrogens c));
      ("strip_hydrogens", Json.JBool (strip_hydrogens c));
      ("use_gpu", Json.JBool (use_gpu c));
      ("gpu_device", Json.JInt (Z.of_nat (gpu_device c)));
      ("cnn_scoring", Json.JStr (cnn_scoring c)) ].

(** The [state] dict of [save_docking_state].  [timestamp] is
    [datetime.now().isoformat()]; the keys are listed in the order in which
    the set enumerates them. *)
Definition docking_state (e : Engine) (timestamp : string)
    (res : list Result) : Json.json :=
  Json.JObj
    [ ("timestamp", Json.JStr timestamp);
      ("total_pairs", Json.JInt (Z.of_nat (total_pairs e)));
      ("completed_pairs", Json.JArr (Json.JStr <$> elements (completed_pairs e)));
      ("results_count", Json.JInt (Z.of_nat (length res)));
      ("config", active_config_json (config e)) ].

(** How far [with open(path, 'w') as f: f.write(content)] has got.
    [open] with mode ['w'] empties the file; the text then reaches the file
    front to back. *)
Inductive WriteProgress : Type :=
| NotOpened
| Opened (flushed : nat)
| Closed.

(** The disk when a write of [content] to [path] is at [p]. *)
Definition disk_at (p : WriteProgress) (path content : string)
    (d : FileSystem) : FileSystem :=
  match p with
  | NotOpened => d
  | Opened k => <[path := Text (String.substring 0 k content)]> d
  | Closed => <[path := Text content]> d
  end.

(** [GNINADockingEngine.save_docking_state] stopped at [p]. *)
Definition save_docking_state_upto (p : WriteProgress) (e : Engine)
    (timestamp : string) (res : list Result) (d : FileSystem) : FileSystem :=
  disk_at p state_file (Json.dumps (docking_state e timestamp res)) d.

(** [GNINADockingEngine.save_docking_state], run to its end. *)
Definition save_docking_state (e : Engine) (timestamp : string)
    (res : list Result) (d : FileSystem) : FileSystem :=
  save_docking_state_upto Closed e timestamp res d.

Definition chars (s : string) : list string :=
  (fun c => String c EmptyString) <$> list_ascii_of_string s.

(** [set(v)] for a decoded JSON value, on sets of strings: an array gives
    its string items, a string its characters, an object its keys.  Items
    that are not strings cannot equal a pair id and are left out;
    unhashable items and values that are not iterable raise. *)
Definition set_of_json (v : Json.json) : outcome (gset string) :=
  match v with
  | Json.JArr items =>
      if forallb (fun i => match i with
                           | Json.JArr _ | Json.JObj _ => false
                           | _ => true
                           end) items
      then Return (list_to_set (omap (fun i => match i with
                                               | Json.JStr s => Some s
                                               | _ => None
                                               end) items))
      else Raise (TypeError "unhashable type")
  | Json.JStr s => Return (list_to_set (chars s))
  | Json.JObj members => Return (list_to_set (fst <$> members))
  | _ => Raise (TypeError "object is not iterable")
  end.

(** [GNINADockingEngine.load_docking_state].  A [total_pairs] entry that is
    not a natural number is read as 0. *)
Definition load_docking_state (e : Engine) (d : FileSystem)
  : outcome (bool * Engine) :=
  if path_exists d state_file then
    text ← read_text d state_file;
    state ← Json.loads text;
    match state with
    | Json.JObj members =>
        keys ← match Json.get "completed_pairs" members with
               | Some v => set_of_json v
               | None => Return ∅
               end;
        let total := match Json.get "total_pairs" members with
                     | Some (Json.JInt z) => Z.to_nat z
                     | _ => 0
                     end in
        Return (true, set_total (set_completed e keys) total)
    | _ => Raise (AttributeError "object has no attribute 'get'")
    end
  else Return (false, e).

(** The names that the scan of [load_completed_pairs] turns into pair
    ids. *)
Definition scanned_pairs (d : FileSystem) : list string :=
  Py.replace "_poses.sdf" "" <$>
    filter (fun f => Py.endswith f "_poses.sdf" = true) (listdir d "gnina_out").

(** [GNINADockingEngine.load_completed_pairs] *)
Definition load_completed_pairs (e : Engine) (d : FileSystem) : Engine :=
  set_completed e (completed_pairs e ∪ list_to_set (scanned_pairs d)).

(* ================================================================== *)
(** ** The batch scheduler *)
(* ================================================================== *)

(** [[df.iloc[i:i+n] for i in range(0, len(df), n)]] for [n > 0]. *)
Fixpoint chunks_from {A} (fuel n : nat) (l : list A) : list (list A) :=
  match fuel with
  | O => []
  | S f =>
      match l with
      | [] => []
      | _ => take n l :: chunks_from f n (drop n l)
      end
  end.

Definition chunks {A} (n : nat) (l : list A) : list (list A) :=
  chunks_from (length l) n l.

(** One submitted batch: the rows its [_process_batch] call has not
    reached yet, its [batch_results], and whether [as_completed] has
    already handed it to the main thread. *)
Record Job := mkJob {
  todo : list Row;
  batch_results : list Result;
  collected : bool
}.

(** The state of [run_parallel_docking] while the pool is open.
    [tallying] is the part of [batch_results] that the main thread's
    counting loop has not reached, when it is inside that loop. *)
Record Pool := mkPool {
  p_completed : gset string;
  p_world : World;
  jobs : list Job;
  all_results : list Result;
  successful : nat;
  failed : nat;
  tallying : option (list Result)
}.

(** What one thread does next.  A schedule is a list of these.  A worker
    takes one row of its batch through [run_single_docking] in one step:
    the ledger is read once per row, and the child processes of different
    workers act on the disk one after the other. *)
Inductive Event : Type :=
| Work (b : nat)               (* a worker runs the next row of batch [b] *)
| Collect (b : nat)            (* [as_completed] yields batch [b] *)
| Tally                        (* one turn of the counting loop *)
| Save (timestamp : string).   (* [save_docking_state] after the loop *)

Definition unfinished (j : Job) : bool :=
  match todo j with
  | [] => false
  | _ => true
  end.

(** Batch [b] has a worker: the queue is served in submission order by
    [workers] threads. *)
Definition has_worker (workers : nat) (js : list Job) (b : nat) : bool :=
  (length (filter (fun j => unfinished j = true) (take b js)) <? workers)%nat.

Section Scheduler.
Context {rt : Runtime}.

Definition step (e : Engine)
    (flexible_residues_dict : option (gmap string (list string)))
    (ev : Event) (p : Pool) : option Pool :=
  match ev with
  | Work b =>
      match jobs p !! b with
      | Some j =>
          match todo j with
          | row :: rest =>
              if has_worker (max_workers e) (jobs p) b then
                let '(acc, w') :=
                  process_row (config e) (p_completed p) flexible_residues_dict
                              b row (batch_results j) (p_world p) in
                Some {| p_completed := p_completed p; p_world := w';
                        jobs := <[b := mkJob rest acc false]> (jobs p);
                        all_results := all_results p;
                        successful := successful p; failed := failed p;
                        tallying := tallying p |}
              else None
          | [] => None
          end
      | None => None
      end
  | Collect b =>
      match tallying p, jobs p !! b with
      | None, Some j =>
          if negb (unfinished j) && negb (collected j) then
            Some {| p_completed := p_completed p; p_world := p_world p;
                    jobs := <[b := mkJob [] (batch_results j) true]> (jobs p);
                    all_results := all_results p ++ batch_results j;
                    successful := successful p; failed := failed p;
                    tallying := Some (batch_results j) |}
          else None
      | _, _ => None
      end
  | Tally =>
      match tallying p with
      | Some (r :: rs) =>
          match status r with
          | success =>
              Some {| p_completed := p_completed p ∪ {[ r_pair_id r ]};
                      p_world := p_world p; jobs := jobs p;
                      all_results := all_results p;
                      successful := S (successful p); failed := failed p;
                      tallying := Some rs |}
          | _ =>
              Some {| p_completed := p_completed p; p_world := p_world p;
                      jobs := jobs p; all_results := all_results p;
                      successful := successful p; failed := S (failed p);
                      tallying := Some rs |}
          end
      | _ => None
      end
  | Save timestamp =>
      match tallying p with
      | Some [] =>
          Some {| p_completed := p_completed p;
                  p_world :=
                    {| fs := save_docking_state
                               (set_completed e (p_completed p)) timestamp
                               (all_results p) (fs (p_world p));
                       launched := launched (p_world p) |};
                  jobs := jobs p; all_results := all_results p;
                  successful := successful p; failed := failed p;
                  tallying := None |}
      | _ => None
      end
  end.

Fixpoint run_schedule (e : Engine)
    (flexible_residues_dict : option (gmap string (list string)))
    (sched : list Event) (p : Pool) : option Pool :=
  match sched with
  | [] => Some p
  | ev :: rest =>
      match step e flexible_residues_dict ev p with
      | Some p' => run_schedule e flexible_residues_dict rest p'
      | None => None
      end
  end.

(** Every future has been yielded and handled. *)
Definition pool_done (p : Pool) : bool :=
  forallb (fun j => negb (unfinished j) && collected j) (jobs p)
  && match tallying p with None => true | Some _ => false end.

(** The pool when the [with ThreadPoolExecutor] block is entered: the
    ledger as [load_completed_pairs] left it, every batch submitted. *)
Definition initial_pool (e : Engine) (w : World) (pairlist_df : list Row)
    (batch_size : nat) : Pool :=
  let e1 := load_completed_pairs (set_total e (length pairlist_df)) (fs w) in
  {| p_completed := completed_pairs e1; p_world := w;
     jobs := (fun rows => mkJob rows [] false)
               <$> chunks batch_size pairlist_df;
     all_results := []; successful := 0; failed := 0;
     tallying := None |}.

(** [GNINADockingEngine.run_parallel_docking] under the thread
    interleaving [sched]: what is returned or raised, the engine and the
    world afterwards.  [None] when [sched] is not an execution of the call
    from start to end. *)
Definition run_parallel_docking (sched : list Event) (e : Engine) (w : World)
    (pairlist_df : list Row)
    (flexible_residues_dict : option (gmap string (list string)))
    (batch_size : nat)
  : option (outcome (list Result) * Engine * World) :=
  let e1 := load_completed_pairs (set_total e (length pairlist_df)) (fs w) in
  if (batch_size =? 0)%nat then
    match sched with
    | [] => Some (Raise (ValueError "range() arg 3 must not be zero"), e1, w)
    | _ => None
    end
  else if (max_workers e =? 0)%nat then
    match sched with
    | [] => Some (Raise (ValueError "max_workers must be greater than 0"), e1, w)
    | _ => None
    end
  else
    match run_schedule e1 flexible_residues_dict sched
                       (initial_pool e w pairlist_df batch_size) with
    | Some p =>
        if pool_done p then
          let e2 := set_completed e1 (p_completed p) in
          if (total_pairs e1 =? 0)%nat
          then Some (Raise ZeroDivisionError, e2, p_world p)
          else Some (Return (all_results p),
                     set_results e2 (all_results p), p_world p)
        else None
    | None => None
    end.

End Scheduler.

(* ================================================================== *)
(** ** pandas primitives used by the funnel filter *)
(* ================================================================== *)

Module Pd.

(** [a < b] on scores *)
Definition Qltb (a b : Q) : bool := negb (Qle_bool b a).

Definition Qmaxb (a b : Q) : Q := if Qle_bool a b then b else a.

(** [Series.max] of a non-empty series. *)
Definition max_of (x : Q) (xs : list Q) : Q := fold_left Qmaxb xs x.

(** Insertion into an ascending list. *)
Fixpoint insert_asc (x : Q) (l : list Q) : list Q :=
  match l with
  | [] => [x]
  | y :: l' => if Qle_bool x y then x :: l else y :: insert_asc x l'
  end.

Definition sort_asc (l : list Q) : list Q := fold_right insert_asc [] l.

(** [Series.quantile(q)] with the default linear interpolation: the value
    at position [q * (n - 1)] of the sorted values.  [None] is the NaN of
    an empty series; a [q] outside of the unit interval raises. *)
Definition quantile (q : Q) (xs : list Q) : outcome (option Q) :=
  if Qltb q 0%Q || Qltb 1%Q q
  then Raise (ValueError "percentiles should all be in the interval [0, 1]")
  else
    match sort_asc xs with
    | [] => Return None
    | (x0 :: _) as sorted =>
        let n := length sorted in
        let h := (q * inject_Z (Z.of_nat (n - 1)))%Q in
        let lo := Z.to_nat (Qfloor h) in
        let frac := (h - inject_Z (Qfloor h))%Q in
        let a := nth lo sorted x0 in
        let b := nth (Nat.min (lo + 1) (n - 1)) sorted x0 in
        Return (Some (a + frac * (b - a))%Q)
    end.

(** [Series.unique]: the distinct values in order of first appearance. *)
Fixpoint unique (l : list string) : list string :=
  match l with
  | [] => []
  | x :: l' => x :: filter (fun y => y ≠ x) (unique l')
  end.

(** Insertion into a list of strings in ascending order. *)
Fixpoint insert_str (x : string) (l : list string) : list string :=
  match l with
  | [] => [x]
  | y :: l' => if String.leb x y then x :: l else y :: insert_str x l'
  end.

Definition sort_str (l : list string) : list string :=
  fold_right insert_str [] l.

(** [df.groupby(key)[value].max()] on (key, value) rows: one entry per
    distinct key, keys in ascending order. *)
Definition groupby_max (rows : list (string * Q)) : list (string * Q) :=
  omap (fun k =>
          match snd <$> filter (fun kv => fst kv = k) rows with
          | v :: vs => Some (k, max_of v vs)
          | [] => None
          end)
       (sort_str (unique (fst <$> rows))).

(** Insertion for a stable sort by descending value: [x] stood before the
    entries of [l], so it goes before the first entry that is not strictly
    larger. *)
Fixpoint insert_desc (x : string * Q) (l : list (string * Q))
  : list (string * Q) :=
  match l with
  | [] => [x]
  | y :: l' => if Qltb (snd x) (snd y) then y :: insert_desc x l' else x :: l
  end.

(** [Series.nlargest(n)] with [keep='first']: the [n] largest values,
    equal values in their order of appearance. *)
Definition nlargest (n : nat) (series : list (string * Q))
  : list (string * Q) :=
  take n (fold_right insert_desc [] series).

End Pd.

(* ================================================================== *)
(** ** The funnel controller *)
(* ================================================================== *)

(** One entry of [TieredCNNWorkflow.stages]. *)
Record StageConfig := mkStage {
  name : string;
  stage_cnn_scoring : string;
  stage_exhaustiveness : nat;
  stage_num_modes : nat;
  description : string;
  cnn_score_threshold : Q;
  max_ligands_per_receptor : option nat;
  top_percentage : option Q;
  use_case : string
}.

(** [self.stages] as [__init__] sets it. *)
Definition default_stages : gmap string StageConfig :=
  list_to_map
    [ ("A", mkStage "Broad Screening" "rescore" 12 8
              "Fast broad screening with CNN rescoring" (1 # 2) None None
              "Large library screening, first-pass ranking");
      ("B", mkStage "Focused Refinement" "refinement" 24 15
              "Balanced refinement with CNN pose optimization" (7 # 10)
              (Some 5) (Some (1 # 20))
              "Focused re-docking, pose refinement");
      ("C", mkStage "High-Accuracy Validation" "all" 48 20
              "High-accuracy final screening with full CNN" (4 # 5)
              (Some 2) (Some (1 # 100))
              "Final validation, small high-value sets") ].

(** [TieredCNNWorkflow.get_stage_config] *)
Definition get_stage_config (stages : gmap string StageConfig)
    (stage : string) : outcome StageConfig :=
  match stages !! stage with
  | Some c => Return c
  | None => Raise (ValueError ("Invalid stage: " +:+ stage))
  end.

(** One row of [results_df]. *)
Record ScoreRow := mkScoreRow {
  sr_receptor : string;
  sr_ligand : string;
  sr_site_id : string;
  sr_cnn_score : Q
}.

(** The list [successful_results] of [filter_ligands_for_stage]: one row
    per pose of every result that succeeded and has scores. *)
Definition successful_results (previous_results : list Result)
  : list ScoreRow :=
  flat_map (fun r =>
              match status r, scores r with
              | success, Some sc =>
                  (fun p => mkScoreRow (r_receptor r) (r_ligand r)
                                       (r_site_id r) (cnn_score p)) <$> sc
              | _, _ => []
              end)
           previous_results.

(** [results_df[results_df['receptor'] == receptor]] *)
Definition of_receptor (results_df : list ScoreRow) (rec : string)
  : list ScoreRow :=
  filter (fun sr => sr_receptor sr = rec) results_df.

(** The rows [pair_scores] of one pair. *)
Definition pair_scores (results_df : list ScoreRow) (row : Row)
  : list ScoreRow :=
  filter (fun sr => sr_receptor sr = receptor row
                    ∧ sr_ligand sr = ligand row
                    ∧ sr_site_id sr = site_id row) results_df.

(** The test under [# Check top percentage]: [true] when the row goes on
    to the next test. *)
Definition check_top_percentage (top : option Q) (results_df : list ScoreRow)
    (row : Row) (max_cnn_score : Q) : outcome bool :=
  match top with
  | None => Return true
  | Some p =>
      let receptor_scores :=
        sr_cnn_score <$> of_receptor results_df (receptor row) in
      Pd.quantile (1 - p)%Q receptor_scores ≫= fun t : option Q =>
      match t with
      | Some threshold_score => Return (negb (Pd.Qltb max_cnn_score threshold_score))
      | None => Return true
      end
  end.

(** The index [top_ligands] of the per-receptor cap. *)
Definition top_ligands (n : nat) (results_df : list ScoreRow) (rec : string)
  : list string :=
  fst <$> Pd.nlargest n
            (Pd.groupby_max ((fun sr => (sr_ligand sr, sr_cnn_score sr))
                               <$> of_receptor results_df rec)).

(** The test under [# Check max ligands per receptor]. *)
Definition check_max_ligands (cap : option nat) (results_df : list ScoreRow)
    (row : Row) : bool :=
  match cap with
  | None => true
  | Some n =>
      let receptor_ligands :=
        Pd.unique (sr_ligand <$> of_receptor results_df (receptor row)) in
      if (n <? length receptor_ligands)%nat
      then bool_decide (ligand row ∈ top_ligands n results_df (receptor row))
      else true
  end.

(** The body of the [for] loop over [pairlist_df]: does the row reach
    [filtered_pairs.append(row)]? *)
Definition keeps (c : StageConfig) (results_df : list ScoreRow) (row : Row)
  : outcome bool :=
  match sr_cnn_score <$> pair_scores results_df row with
  | [] => Return false
  | s :: ss =>
      let max_cnn_score := Pd.max_of s ss in
      if Pd.Qltb max_cnn_score (cnn_score_threshold c) then Return false
      else
        ok ← check_top_percentage (top_percentage c) results_df row max_cnn_score;
        if negb ok then Return false
        else Return (check_max_ligands (max_ligands_per_receptor c) results_df row)
  end.

(** The loop: the rows kept, in the order of [pairlist_df]; the first
    exception ends it. *)
Fixpoint filter_rows (keep : Row -> outcome bool) (rows : list Row)
  : outcome (list Row) :=
  match rows with
  | [] => Return []
  | row :: rest =>
      keep row ≫= fun b : bool =>
      kept ← filter_rows keep rest;
      Return (if b then row :: kept else kept)
  end.

(** [TieredCNNWorkflow.filter_ligands_for_stage].  [previous_results] is
    [None] or a list; both [None] and the empty list are false in
    [if not previous_results]. *)
Definition filter_ligands_for_stage (stages : gmap string StageConfig)
    (stage : string) (previous_results : option (list Result))
    (pairlist_df : list Row) : outcome (list Row) :=
  stage_config ← get_stage_config stages stage;
  if String.eqb stage "A" then Return pairlist_df
  else
    match previous_results with
    | None | Some [] => Return pairlist_df
    | Some prev =>
        match successful_results prev with
        | [] => Return pairlist_df
        | results_df => filter_rows (keeps stage_config results_df) pairlist_df
        end
    end.

(* ================================================================== *)
(** ** Concrete runtimes and inputs *)
(* ================================================================== *)

(** [float] on plain decimal literals: an optional sign, digits, and an
    optional fraction. *)
Definition float_decimal (tok : string) : option Q :=
  let s := list_ascii_of_string tok in
  let '(neg, s1) := match s with
                    | c :: r => if Ascii.eqb c "-"%char then (true, r)
                                else if Ascii.eqb c "+"%char then (false, r)
                                else (false, s)
                    | [] => (false, s)
                    end in
  let '(ip, s2) := Json.read_digits s1 in
  let '(fp, s3) := match s2 with
                   | c :: r => if Ascii.eqb c "."%char then Json.read_digits r
                               else ([], s2)
                   | [] => ([], s2)
                   end in
  match s3, ip ++ fp with
  | [], _ :: _ =>
      let num := Json.digits_Z (ip ++ fp) in
      let den := Z.to_pos (10 ^ Z.of_nat (length fp)) in
      Some (Qred ((if neg then - num else num)%Z # den))
  | _, _ => None
  end.

(** The argument that follows [flag] on a command line. *)
Fixpoint arg_after (flag : string) (cmd : list string) : option string :=
  match cmd with
  | f :: rest =>
      if String.eqb f flag then head rest else arg_after flag rest
  | [] => None
  end.

(** A tool that writes [text] to its [--out] file and then ends as
    [po]. *)
Definition tool_writing (text : string) (po : ProcessOutcome)
    (cmd : list string) (t : nat) (d : FileSystem)
  : ProcessOutcome * FileSystem :=
  match arg_after "--out" cmd with
  | Some out => (po, <[out := Text text]> d)
  | None => (po, d)
  end.

Definition default_config : Config :=
  {| gnina_binary := "$HOME/gnina"; use_apptainer := true;
     use_gpu_flag := "--nv";
     apptainer_image := "$HOME/cuda12.3.2-cudnn9-runtime-ubuntu22.04.sif";
     hpc_gnina_binary := "$HOME/gnina"; exhaustiveness := 32;
     num_modes := 20; seed := 42; cnn_scoring := "rescore";
     cnn_rotation := 0; min_rmsd_filter := "1.0"; pose_sort_order := 0;
     use_gpu := false; base_use_gpu := false; gpu_device := 0;
     cpu_cores := 4; add_hydrogens := true; strip_hydrogens := false;
     timeout := 300 |}.

Definition row_of (r s l : string) : Row :=
  mkRow r l s "0.0" "0.0" "0.0" "20.0" "20.0" "20.0".

(** Two rows whose keys differ only in where the underscore falls. *)
Definition row_ab_c : Row := row_of "a_b" "c" "d".
Definition row_a_bc : Row := row_of "a" "b_c" "d".

(** The score that a line of the artifact contributes, in the words of the
    specification: the line carries the score tag and its trailing token
    is numeric. *)
Definition trailing_score `{Runtime} (line : string) : option Q :=
  if Py.contains "CNNscore" line
  then last (Py.split_ws line) ≫= py_float
  else None.

(** Pose records for a list of scores: ids count from 1, the affinity is
    the score. *)
Definition poses_of (vs : list Q) : list PoseScore :=
  imap (fun i v => mkPose (S i) v v) vs.

(** A tool that succeeds and writes two scored poses and one tag line
    without a value. *)
Definition two_pose_text : string :=
  "CNNscore 0.9" +:+ String "010" "x CNNscore	0.25 "
  +:+ String "010" "> <CNNscore>".

Definition runtime_ok : Runtime :=
  {| py_float := float_decimal;
     subprocess_run := tool_writing two_pose_text (Exited 0 "") |}.

(** The key set that a persisted ledger file holds, in the words of the
    specification: what [load_docking_state] reads from it, and nothing
    when there is no file. *)
Definition ledger_file_keys (d : FileSystem) : outcome (gset string) :=
  load_docking_state (new_engine default_config 4) d ≫=
    fun r : bool * Engine => Return (completed_pairs r.2).

(** An engine that has finished one pair. *)
Definition engine_one_done : Engine :=
  set_total (set_completed (new_engine default_config 4) {[ "r_s_l" ]}) 1.

(** A disk that holds the ledger file of [engine_one_done] and nothing
    else: the artifacts are gone. *)
Definition disk_ledger_only : FileSystem :=
  save_docking_state engine_one_done "2026-01-01T00:00:00" [] ∅.

(** A one-batch schedule for a catalog of one row that is dispatched. *)
Definition sched_one : list Event :=
  [Work 0; Collect 0; Tally; Save "2026-01-02T00:00:00"].

(** A work item has a successful, scored result among the results of the
    previous stage, in the words of the specification. *)
Definition scored_in (prev : list Result) (row : Row) : Prop :=
  exists r sc p,
    r ∈ prev /\ status r = success
    /\ (r_receptor r, r_site_id r, r_ligand r) = key row
    /\ scores r = Some sc /\ p ∈ sc.

(** The results of a previous stage in which the one pair failed. *)
Definition row_rsl : Row := row_of "r" "s" "l".
Definition prev_all_failed : list Result :=
  [error_result row_rsl "exit status 1" (Some 1%Z)].

(** The best score of a row in [results_df]: the [max_cnn_score] of the
    loop, when the row has scores. *)
Definition best_of (results_df : list ScoreRow) (row : Row) : option Q :=
  match sr_cnn_score <$> pair_scores results_df row with
  | [] => None
  | s :: ss => Some (Pd.max_of s ss)
  end.

(** The best score of one result, and the best scores of the items of a
    receptor group, in the words of the specification. *)
Definition best_score (r : Result) : option Q :=
  match status r, scores r with
  | success, Some (p :: ps) => Some (Pd.max_of (cnn_score p) (cnn_score <$> ps))
  | _, _ => None
  end.

Definition group_best_scores (prev : list Result) (rec : string) : list Q :=
  omap best_score (filter (fun r => r_receptor r = rec) prev).

(** The top-percentile criterion in the words of the specification: the
    best score is at least the quantile of the best scores of the group. *)
Definition spec_top_percentile (p : Q) (prev : list Result) (row : Row)
    (best : Q) : outcome bool :=
  Pd.quantile (1 - p)%Q (group_best_scores prev (receptor row)) ≫=
    fun t : option Q =>
      match t with
      | Some t => Return (negb (Pd.Qltb best t))
      | None => Return true
      end.

(** A successful result at the default site with the given pose scores. *)
Definition scored_result (r l : string) (sc : list Q) : Result :=
  {| status := success; r_receptor := r; r_ligand := l;
     r_site_id := "site_1"; output_file := None; log_file := None;
     scores := Some (poses_of sc); command := None; error_detail := None;
     returncode := None; r_pair_id := r +:+ "_site_1_" +:+ l;
     batch_idx := None |}.

(** A stage table with the single stage B. *)
Definition only_stage_B (threshold : Q) (cap : option nat) (top : option Q)
  : gmap string StageConfig :=
  {[ "B" := mkStage "Focused Refinement" "refinement" 24 15 "" threshold
                    cap top "" ]}.

Definition catalog_of (r : string) (ligands : list string) : list Row :=
  (fun l => row_of r "site_1" l) <$> ligands.

(** Five items of one receptor with one pose each. *)
Definition group_of_five : list Result :=
  [ scored_result "r" "l1" [95 # 100]; scored_result "r" "l2" [9 # 10];
    scored_result "r" "l3" [85 # 100]; scored_result "r" "l4" [6 # 10];
    scored_result "r" "l5" [5 # 10] ]%Q.

(** The same five best scores, the first item with five more poses. *)
Definition group_of_five_more_poses : list Result :=
  [ scored_result "r" "l1" [95 # 100; 1 # 10; 1 # 10; 1 # 10; 1 # 10; 1 # 10];
    scored_result "r" "l2" [9 # 10]; scored_result "r" "l3" [85 # 100];
    scored_result "r" "l4" [6 # 10]; scored_result "r" "l5" [5 # 10] ]%Q.

(** [a] stands before [b] in the ascending order of the group keys. *)
Definition name_before (a b : string) : Prop := String.le a b /\ a <> b.

(** The best score of a ligand of a receptor over all its sites: the value
    that [groupby('ligand')['cnn_score'].max()] gives it. *)
Definition ligand_best (results_df : list ScoreRow) (rec l : string)
  : option Q :=
  match sr_cnn_score <$>
        filter (fun sr => sr_ligand sr = l) (of_receptor results_df rec) with
  | [] => None
  | s :: ss => Some (Pd.max_of s ss)
  end.

(** Entry [x] of the grouped series is selected before entry [y]: it has
    the larger value, or the same value and the earlier key. *)
Definition selected_before (x y : string * Q) : Prop :=
  (snd y < snd x)%Q \/ (snd y == snd x /\ name_before (fst x) (fst y)).

(** The ligands that the cap retains in the words of the specification:
    the items of the receptor in catalog order, sorted by best score with
    ties left in catalog order, cut after [n]. *)
Definition spec_top_ligands (n : nat) (results_df : list ScoreRow)
    (pairlist_df : list Row) (rec : string) : list string :=
  fst <$> take n
    (fold_right Pd.insert_desc []
       (omap (fun row =>
                if decide (receptor row = rec)
                then (fun b => (ligand row, b)) <$> best_of results_df row
                else None)
             pairlist_df)).

(** Three ligands of one receptor; [b] and [a] tie, and [b] comes first in
    the catalog. *)
Definition tied_results : list Result :=
  [ scored_result "r" "b" [9 # 10]; scored_result "r" "a" [9 # 10];
    scored_result "r" "c" [5 # 10] ]%Q.

(** Seven ligands of one receptor with distinct scores. *)
Definition seven_results : list Result :=
  [ scored_result "r" "l1" [55 # 100]; scored_result "r" "l2" [91 # 100];
    scored_result "r" "l3" [62 # 100]; scored_result "r" "l4" [78 # 100];
    scored_result "r" "l5" [97 # 100]; scored_result "r" "l6" [70 # 100];
    scored_result "r" "l7" [83 # 100] ]%Q.

(** *** Notions used to state the scheduler properties *)

(** The batches in the order in which the main thread collects them. *)
Definition collect_order (sched : list Event) : list nat :=
  omap (fun ev => match ev with Collect b => Some b | _ => None end) sched.

(** The [batch_results] of batch [b]. *)
Definition pool_results (p : Pool) (b : nat) : list Result :=
  match jobs p !! b with
  | Some j => batch_results j
  | None => []
  end.

(** The ledger with which dispatch starts. *)
Definition startup_ledger (e : Engine) (w : World) : gset string :=
  completed_pairs (load_completed_pairs e (fs w)).

(** The pair ids of the rows that the startup ledger does not hold. *)
Definition pending_ids (ledger : gset string) (rows : list Row) : list string :=
  filter (fun k => k ∉ ledger) (pair_id <$> rows).

(** The invariant of the pool.  [batches] are the submitted batches,
    [ledger0] the ledger and [launched0] the number of child processes at
    the start, [sched] the events so far. *)
Record pool_inv (batches : list (list Row)) (ledger0 : gset string)
    (launched0 : nat) (sched : list Event) (p : Pool) : Prop := {
  inv_len : length (jobs p) = length batches;
  inv_job : forall b j,
    jobs p !! b = Some j ->
    exists done,
      batches !! b = Some (done ++ todo j)
      /\ r_pair_id <$> batch_results j = pending_ids ledger0 done;
  inv_collected : forall b j,
    jobs p !! b = Some j -> collected j = true -> todo j = [];
  inv_ledger_lo : ledger0 ⊆ p_completed p;
  inv_ledger_hi : forall k,
    k ∈ p_completed p ->
    k ∈ ledger0
    \/ exists r, r ∈ all_results p /\ status r = success /\ r_pair_id r = k;
  inv_tally : forall rs r,
    tallying p = Some rs -> r ∈ rs -> r ∈ all_results p;
  inv_all : all_results p = flat_map (pool_results p) (collect_order sched);
  inv_order : NoDup (collect_order sched);
  inv_order_in : forall b,
    b ∈ collect_order sched
    <-> exists j, jobs p !! b = Some j /\ collected j = true;
  inv_launched :
    length (launched (p_world p))
    = launched0 + sum_list_with (fun j => length (batch_results j)) (jobs p)
}.
Arguments inv_len {batches ledger0 launched0 sched p} _.
Arguments inv_job {batches ledger0 launched0 sched p} _ b j _.
Arguments inv_collected {batches ledger0 launched0 sched p} _ b j _ _.
Arguments inv_ledger_lo {batches ledger0 launched0 sched p} _.
Arguments inv_ledger_hi {batches ledger0 launched0 sched p} _ k _.
Arguments inv_tally {batches ledger0 launched0 sched p} _ rs r _ _.
Arguments inv_all {batches ledger0 launched0 sched p} _.
Arguments inv_order {batches ledger0 launched0 sched p} _.
Arguments inv_order_in {batches ledger0 launched0 sched p} _ b.
Arguments inv_launched {batches ledger0 launched0 sched p} _.

(** The pair ids that batch [b] contributes to the result: its rows that
    the startup ledger does not hold, in catalog order. *)
Definition batch_pending (ledger : gset string) (batches : list (list Row))
    (b : nat) : list string :=
  pending_ids ledger (default [] (batches !! b)).

(** A tool that is killed at the timeout after it has written part of its
    artifact. *)
Definition runtime_timeout : Runtime :=
  {| py_float := float_decimal;
     subprocess_run := tool_writing "CNNscore 0.4" TimeoutExpired |}.

(** A catalog of three rows, run in batches of two. *)
Definition catalog_three : list Row :=
  [ row_of "r1" "site_1" "l1"; row_of "r1" "site_1" "l2";
    row_of "r2" "site_1" "l1" ].

(** The second batch completes and is collected before the first. *)
Definition sched_second_first : list Event :=
  [ Work 0; Work 1; Work 0; Collect 1; Tally; Save "2026-01-02T00:00:01";
    Collect 0; Tally; Tally; Save "2026-01-02T00:00:02" ].

(** The schedule of a run whose only row is skipped. *)
Definition sched_skip_one : list Event :=
  [Work 0; Collect 0; Save "2026-01-03T00:00:00"].

(** A disk that holds the artifact of the pair [r_s_l]. *)
Definition disk_with_artifact : FileSystem :=
  {[ "gnina_out/r_s_l_poses.sdf" := Text "CNNscore 0.9" ]}.

(** What holds of the ledger on every catalog: the ids that the run has
    added are ids of successful results that the main thread has
    collected. *)
Record ledger_inv (ledger0 : gset string) (p : Pool) : Prop := {
  li_ledger : forall k,
    k ∈ p_completed p ->
    k ∈ ledger0
    \/ exists r, r ∈ all_results p /\ status r = success /\ r_pair_id r = k;
  li_tally : forall rs r,
    tallying p = Some rs -> r ∈ rs -> r ∈ all_results p
}.
Arguments li_ledger {ledger0 p} _ k _.
Arguments li_tally {ledger0 p} _ rs r _ _.

(* ================================================================== *)
(** ** Score-only mode *)
(* ================================================================== *)

(** The dict that [run_score_only] appends for one row. *)
Record ScoreOnlyResult := mkScoreOnly {
  so_status : Status;
  so_receptor : string;
  so_ligand : string;
  so_site_id : string;
  so_output_file : option string;
  so_scores : option (list PoseScore);
  so_error : option string;
  so_pair_id : string;
  so_mode : string
}.

Section ScoreOnly.
Context {rt : Runtime}.

(** One iteration of the [for] loop of [run_score_only]: the dict that is
    appended to [results]. *)
Definition score_only_row (d : FileSystem) (row : Row)
  : outcome ScoreOnlyResult :=
  let pid := pair_id row in
  let output_sdf := output_sdf_of pid in
  if path_exists d output_sdf then
    sc ← parse_gnina_output d output_sdf (log_file_of pid);
    Return {| so_status := success; so_receptor := receptor row;
              so_ligand := ligand row; so_site_id := site_id row;
              so_output_file := Some output_sdf; so_scores := Some sc;
              so_error := None; so_pair_id := pid;
              so_mode := "score_only" |}
  else
    Return {| so_status := error; so_receptor := receptor row;
              so_ligand := ligand row; so_site_id := site_id row;
              so_output_file := None; so_scores := None;
              so_error := Some ("Output file not found: " +:+ output_sdf);
              so_pair_id := pid; so_mode := "score_only" |}.

(** [GNINADockingEngine.run_score_only] *)
Fixpoint run_score_only (d : FileSystem) (pairlist_df : list Row)
  : outcome (list ScoreOnlyResult) :=
  match pairlist_df with
  | [] => Return []
  | row :: rest =>
      r ← score_only_row d row;
      rs ← run_score_only d rest;
      Return (r :: rs)
  end.

End ScoreOnly.

(* ================================================================== *)
(** ** Notions used to state the properties of a whole run *)
(* ================================================================== *)

(** The flexible residues that [_process_batch] looks up for a row. *)
Definition flexible_residues_of
    (flexible_residues_dict : option (gmap string (list string)))
    (row : Row) : option (list string) :=
  match flexible_residues_dict with
  | Some fd => fd !! receptor row
  | None => None
  end.

(** The command line that the engine builds for a row. *)
Definition command_of (cfg : Config)
    (flexible_residues_dict : option (gmap string (list string)))
    (row : Row) : list string :=
  (build_gnina_command cfg row
     (flexible_residues_of flexible_residues_dict row)).1.1.

(** Result [r] is what batch [b] reports for [row]. *)
Definition describes (b : nat) (row : Row) (r : Result) : Prop :=
  r_pair_id r = pair_id row
  /\ r_receptor r = receptor row
  /\ r_ligand r = ligand row
  /\ r_site_id r = site_id row
  /\ batch_idx r = Some b
  /\ match status r with
     | success =>
         output_file r = Some (artifact_path (key row))
         /\ log_file r = Some (log_file_of (pair_id row))
         /\ is_Some (scores r)
         /\ error_detail r = None
     | _ =>
         output_file r = None /\ scores r = None
         /\ is_Some (error_detail r)
     end.

(** What holds of the pool under every interleaving and on every catalog,
    with or without repeated pair ids.  [batches] are the submitted
    batches, [ledger0] the ledger and [launched0] the commands started
    before the run. *)
Record run_inv (cfg : Config)
    (flexible_residues_dict : option (gmap string (list string)))
    (batches : list (list Row)) (ledger0 : gset string)
    (launched0 : list (list string)) (p : Pool) : Prop := {
  ri_ledger : ledger0 ⊆ p_completed p;
  ri_todo : forall b j row,
    jobs p !! b = Some j -> row ∈ todo j ->
    exists batch, batches !! b = Some batch /\ row ∈ batch;
  ri_batch : forall b j r,
    jobs p !! b = Some j -> r ∈ batch_results j ->
    exists batch row,
      batches !! b = Some batch /\ row ∈ batch
      /\ (pair_id row ∉ ledger0) /\ describes b row r;
  ri_all : forall r,
    r ∈ all_results p ->
    exists b batch row,
      batches !! b = Some batch /\ row ∈ batch
      /\ (pair_id row ∉ ledger0) /\ describes b row r;
  ri_success : forall r,
    r ∈ all_results p -> status r = success ->
    r_pair_id r ∈ p_completed p
    \/ exists rs, tallying p = Some rs /\ r ∈ rs;
  ri_launched : exists cmds,
    launched (p_world p) = launched0 ++ cmds
    /\ forall cmd, cmd ∈ cmds ->
         exists row, row ∈ concat batches /\ (pair_id row ∉ ledger0)
                     /\ cmd = command_of cfg flexible_residues_dict row
}.
Arguments ri_ledger {cfg flexible_residues_dict batches ledger0 launched0 p} _.
Arguments ri_todo {cfg flexible_residues_dict batches ledger0 launched0 p} _ b j row _ _.
Arguments ri_batch {cfg flexible_residues_dict batches ledger0 launched0 p} _ b j r _ _.
Arguments ri_all {cfg flexible_residues_dict batches ledger0 launched0 p} _ r _.
Arguments ri_success {cfg flexible_residues_dict batches ledger0 launched0 p} _ r _ _.
Arguments ri_launched {cfg flexible_residues_dict batches ledger0 launched0 p} _.

(** Where the rows of the submitted batches are while the pool is open:
    a row still waits in its batch, or its pair id is in the ledger, or
    its batch holds a result for it; and what a collected batch holds is
    in [all_results]. *)
Record cover_inv (batches : list (list Row)) (p : Pool) : Prop := {
  ci_row : forall b batch row,
    batches !! b = Some batch -> row ∈ batch ->
    exists j,
      jobs p !! b = Some j
      /\ (row ∈ todo j \/ pair_id row ∈ p_completed p
          \/ exists r, r ∈ batch_results j /\ describes b row r);
  ci_collected : forall b j r,
    jobs p !! b = Some j -> collected j = true ->
    r ∈ batch_results j -> r ∈ all_results p
}.
Arguments ci_row {batches p} _ b batch row _ _.
Arguments ci_collected {batches p} _ b j r _ _ _.

(* ================================================================== *)
(** ** Changing the configuration ([scripts/config.py]) *)
(* ================================================================== *)

(** [active_config] with its entries [cnn_scoring], [exhaustiveness],
    [num_modes], [cpu_cores], [use_gpu] and [gpu_device] set. *)
Definition with_active (c : Config) (scoring : string)
    (exh modes cores : nat) (gpu : bool) (device : nat) : Config :=
  {| gnina_binary := gnina_binary c; use_apptainer := use_apptainer c;
     use_gpu_flag := use_gpu_flag c; apptainer_image := apptainer_image c;
     hpc_gnina_binary := hpc_gnina_binary c; exhaustiveness := exh;
     num_modes := modes; seed := seed c; cnn_scoring := scoring;
     cnn_rotation := cnn_rotation c; min_rmsd_filter := min_rmsd_filter c;
     pose_sort_order := pose_sort_order c; use_gpu := gpu;
     base_use_gpu := base_use_gpu c; gpu_device := device;
     cpu_cores := cores; add_hydrogens := add_hydrogens c;
     strip_hydrogens := strip_hydrogens c; timeout := timeout c |}.

(** One entry of [tiered_config]: what [set_tiered_stage] copies. *)
Record TierParams := mkTier {
  tier_cnn_scoring : string;
  tier_exhaustiveness : nat;
  tier_num_modes : nat
}.

(** [self.tiered_config] as [__init__] sets it. *)
Definition default_tiered_config : gmap string TierParams :=
  list_to_map
    [ ("stage_a", mkTier "rescore" 12 8);
      ("stage_b", mkTier "refinement" 24 15);
      ("stage_c", mkTier "all" 48 20) ].

(** [GNINADockingConfig.set_tiered_stage] *)
Definition set_tiered_stage (tiered_config : gmap string TierParams)
    (c : Config) (stage : string) : outcome Config :=
  match tiered_config !! stage with
  | None => Raise (ValueError ("Invalid stage: " +:+ stage))
  | Some t =>
      Return (with_active c (tier_cnn_scoring t) (tier_exhaustiveness t)
                          (tier_num_modes t) (cpu_cores c) (use_gpu c)
                          (gpu_device c))
  end.

(* ================================================================== *)
(** ** The stage loop of the tiered workflow *)
(* ================================================================== *)

(** [str.lower] on ASCII text. *)
Definition lower_char (c : ascii) : ascii :=
  let n := nat_of_ascii c in
  if (65 <=? n)%nat && (n <=? 90)%nat then ascii_of_nat (n + 32) else c.

Fixpoint str_lower (s : string) : string :=
  match s with
  | EmptyString => EmptyString
  | String c s' => String (lower_char c) (str_lower s')
  end.

(** [TieredCNNWorkflow.run_stage]: the input of the stage and the
    configuration, which the workflow object shares with the engine.  An
    empty input is returned before the configuration is touched. *)
Definition run_stage (stages : gmap string StageConfig)
    (tiered_config : gmap string TierParams) (stage : string) (c : Config)
    (pairlist_df : list Row) (previous_results : option (list Result))
  : outcome (list Row * Config) :=
  stage_config ← get_stage_config stages stage;
  input_df ← filter_ligands_for_stage stages stage previous_results pairlist_df;
  if (length input_df =? 0)%nat then Return ([], c)
  else
    c' ← set_tiered_stage tiered_config c ("stage_" +:+ str_lower stage);
    Return (input_df, c').

(** A result dict after the loop has added the keys [stage] and
    [stage_config] to it. *)
Record Tagged := mkTagged {
  tagged_result : Result;
  tagged_stage : string;
  tagged_stage_config : StageConfig
}.

Definition set_config (e : Engine) (c : Config) : Engine :=
  {| config := c; max_workers := max_workers e;
     completed_pairs := completed_pairs e; total_pairs := total_pairs e;
     results := results e |}.

(** The local state of [run_tiered_workflow] between two stages, with the
    engine and the world.  The engine's [results] holds the dicts of
    [previous], which nothing reads during the loop. *)
Record Tiered := mkTiered {
  t_engine : Engine;
  t_world : World;
  t_all : list Tagged;
  t_previous : option (list Result)
}.

Definition status_text (s : Status) : string :=
  match s with
  | success => "success"
  | error => "error"
  | timeout_status => "timeout"
  end.

Definition stage_file (stage : string) : string :=
  "results/stage_" +:+ stage +:+ "_results.json".

Section TieredLoop.
Context {rt : Runtime}.

(** The text that [json.dump] writes for a float. *)
Variable float_repr : Q -> string.

Definition json_member {A} (k : string) (f : A -> Json.json) (o : option A)
  : list (string * Json.json) :=
  match o with
  | Some a => [(k, f a)]
  | None => []
  end.

Definition pose_json (p : PoseScore) : Json.json :=
  Json.JObj [ ("pose_id", Json.JInt (Z.of_nat (pose_id p)));
              ("cnn_score", Json.JLit (float_repr (cnn_score p)));
              ("cnn_affinity", Json.JLit (float_repr (cnn_affinity p))) ].

Definition stage_config_json (c : StageConfig) : Json.json :=
  Json.JObj
    [ ("name", Json.JStr (name c));
      ("cnn_scoring", Json.JStr (stage_cnn_scoring c));
      ("exhaustiveness", Json.JInt (Z.of_nat (stage_exhaustiveness c)));
      ("num_modes", Json.JInt (Z.of_nat (stage_num_modes c)));
      ("description", Json.JStr (description c));
      ("cnn_score_threshold", Json.JLit (float_repr (cnn_score_threshold c)));
      ("max_ligands_per_receptor",
       match max_ligands_per_receptor c with
       | Some n => Json.JInt (Z.of_nat n)
       | None => Json.JNull
       end);
      ("top_percentage",
       match top_percentage c with
       | Some p => Json.JLit (float_repr p)
       | None => Json.JNull
       end);
      ("use_case", Json.JStr (use_case c)) ].

(** A tagged result dict, its keys in the order in which they were set. *)
Definition tagged_json (t : Tagged) : Json.json :=
  let r := tagged_result t in
  Json.JObj
    ([ ("status", Json.JStr (status_text (status r)));
       ("receptor", Json.JStr (r_receptor r));
       ("ligand", Json.JStr (r_ligand r));
       ("site_id", Json.JStr (r_site_id r)) ]
     ++ json_member "output_file" Json.JStr (output_file r)
     ++ json_member "log_file" Json.JStr (log_file r)
     ++ json_member "scores" (fun sc => Json.JArr (pose_json <$> sc)) (scores r)
     ++ json_member "command" Json.JStr (command r)
     ++ json_member "error" Json.JStr (error_detail r)
     ++ json_member "returncode" Json.JInt (returncode r)
     ++ [ ("pair_id", Json.JStr (r_pair_id r)) ]
     ++ json_member "batch_idx" (fun b => Json.JInt (Z.of_nat b)) (batch_idx r)
     ++ [ ("stage", Json.JStr (tagged_stage t));
          ("stage_config", stage_config_json (tagged_stage_config t)) ]).

(** [TieredCNNWorkflow.save_stage_results] with the default file name. *)
Definition save_stage_results (stage : string) (c : StageConfig)
    (timestamp : string) (res : list Tagged) (d : FileSystem) : FileSystem :=
  let count (f : Status -> bool) :=
    length (filter (fun t => f (status (tagged_result t)) = true) res) in
  let stage_data :=
    Json.JObj
      [ ("stage", Json.JStr stage);
        ("stage_config", stage_config_json c);
        ("timestamp", Json.JStr timestamp);
        ("results", Json.JArr (tagged_json <$> res));
        ("summary",
         Json.JObj
           [ ("total_pairs", Json.JInt (Z.of_nat (length res)));
             ("successful",
              Json.JInt (Z.of_nat (count (fun s => match s with
                                                   | success => true
                                                   | _ => false
                                                   end))));
             ("failed",
              Json.JInt (Z.of_nat (count (fun s => match s with
                                                   | success => false
                                                   | _ => true
                                                   end)))) ]) ] in
  <[stage_file stage := Text (Json.dumps stage_data)]> d.

(** One turn of the [for stage in stages] loop of [run_tiered_workflow].
    [sched] is the interleaving of the stage's docking run and
    [timestamp] the time of its save; a stage that has nothing to dock
    uses neither.  The state is the one at the end of the turn, or at the
    point where the exception left the loop. *)
Definition tiered_stage (stages : gmap string StageConfig)
    (tiered_config : gmap string TierParams) (pairlist_df : list Row)
    (flexible_residues_dict : option (gmap string (list string)))
    (stage : string) (sched : list Event) (timestamp : string) (st : Tiered)
  : option (outcome unit * Tiered) :=
  match get_stage_config stages stage with
  | Raise ex => Some (Raise ex, st)
  | Return stage_config =>
      match run_stage stages tiered_config stage (config (t_engine st))
                      pairlist_df (t_previous st) with
      | Raise ex => Some (Raise ex, st)
      | Return (stage_input, c') =>
          if (length stage_input =? 0)%nat then Some (Return tt, st)
          else
            match run_parallel_docking sched (set_config (t_engine st) c')
                    (t_world st) stage_input flexible_residues_dict 5 with
            | None => None
            | Some (Raise ex, e', w') =>
                Some (Raise ex, mkTiered e' w' (t_all st) (t_previous st))
            | Some (Return stage_results, e', w') =>
                let tagged :=
                  (fun r => mkTagged r stage stage_config) <$> stage_results in
                Some (Return tt,
                      {| t_engine := e';
                         t_world :=
                           {| fs := save_stage_results stage stage_config
                                      timestamp tagged (fs w');
                              launched := launched w' |};
                         t_all := t_all st ++ tagged;
                         t_previous := Some stage_results |})
            end
      end
  end.

(** The loop over the stages, each with the interleaving and the save
    time of its docking run. *)
Fixpoint run_tiered_stages (stages : gmap string StageConfig)
    (tiered_config : gmap string TierParams) (pairlist_df : list Row)
    (flexible_residues_dict : option (gmap string (list string)))
    (plan : list (string * list Event * string)) (st : Tiered)
  : option (outcome unit * Tiered) :=
  match plan with
  | [] => Some (Return tt, st)
  | (stage, sched, timestamp) :: rest =>
      match tiered_stage stages tiered_config pairlist_df
                         flexible_residues_dict stage sched timestamp st with
      | Some (Return _, st') =>
          run_tiered_stages stages tiered_config pairlist_df
                            flexible_residues_dict rest st'
      | other => other
      end
  end.

End TieredLoop.

(** The state with which the loop starts. *)
Definition tiered_start (e : Engine) (w : World) : Tiered :=
  {| t_engine := e; t_world := w; t_all := []; t_previous := None |}.

(** What the loop keeps true of the results of the last stage that
    docked: the successes are in the engine's ledger, under the pair id
    that their own fields give. *)
Definition tiered_inv (st : Tiered) : Prop :=
  forall prev r,
    t_previous st = Some prev -> r ∈ prev -> status r = success ->
    r_pair_id r ∈ completed_pairs (t_engine st)
    /\ r_pair_id r = r_receptor r +:+ "_" +:+ r_site_id r +:+ "_" +:+ r_ligand r.

(** A printer of scores for the examples: numerator, slash,
    denominator. *)
Definition float_fraction (q : Q) : string :=
  pretty (Qnum q) +:+ "/" +:+ pretty (Z.pos (Qden q)).

(** The best score of a row reaches the threshold of the stage. *)
Definition above_threshold (c : StageConfig) (results_df : list ScoreRow)
    (row : Row) : bool :=
  match best_of results_df row with
  | Some best => Qle_bool (cnn_score_threshold c) best
  | None => false
  end.

(* ================================================================== *)
(** ** Notions used to state the round trip of the ledger file *)
(* ================================================================== *)

Definition is_digit (c : ascii) : bool :=
  match Json.digit_val c with
  | Some _ => true
  | None => false
  end.

(** A plain decimal literal as [repr] gives it for a float of moderate
    size: digits without a superfluous leading zero, a point, digits. *)
Definition decimal_literal (l : string) : Prop :=
  exists ip fp : list ascii,
    list_ascii_of_string l = ip ++ "."%char :: fp
    /\ ip <> [] /\ fp <> []
    /\ forallb is_digit ip = true /\ forallb is_digit fp = true
    /\ (head ip = Some "0"%char -> length ip = 1).

(** The JSON values that the ledger file is made of: no negative
    integers, and the literals are plain decimals. *)
Fixpoint plain (v : Json.json) : Prop :=
  match v with
  | Json.JInt z => (0 <= z)%Z
  | Json.JLit l => decimal_literal l
  | Json.JArr items => fold_right (fun i acc => plain i /\ acc) True items
  | Json.JObj members =>
      fold_right (fun kv acc => plain (snd kv) /\ acc) True members
  | _ => True
  end.

(** The nesting depth of a value. *)
Fixpoint depth (v : Json.json) : nat :=
  match v with
  | Json.JArr items => S (fold_right (fun i acc => Nat.max (depth i) acc) 0 items)
  | Json.JObj members =>
      S (fold_right (fun kv acc => Nat.max (depth (snd kv)) acc) 0 members)
  | _ => 1
  end.

(** What may follow a value in a JSON text: nothing, a comma or a line
    break. *)
Definition ends_value (rest : list ascii) : Prop :=
  match rest with
  | [] => True
  | c :: _ => c = ","%char \/ c = "010"%char
  end.

(* ================================================================== *)
(** ** Properties: artifact naming *)
(* ================================================================== *)

Lemma list_ascii_of_string_append (s t : string) :
  list_ascii_of_string (s +:+ t)
  = list_ascii_of_string s ++ list_ascii_of_string t.
Proof. induction s as [|c s IH]; simpl; [reflexivity | now rewrite IH]. Qed.

Lemma append_inv_tail (s1 s2 t : string) : s1 +:+ t = s2 +:+ t -> s1 = s2.
Proof.
  intros H.
  apply (f_equal list_ascii_of_string) in H.
  rewrite !list_ascii_of_string_append in H.
  apply app_inv_tail in H.
  rewrite <- (string_of_list_ascii_of_string s1),
          <- (string_of_list_ascii_of_string s2).
  now rewrite H.
Qed.

(** A separator that occurs in neither head cuts two equal strings at the
    same place. *)
Lemma cut_at_first (c : ascii) (a b x y : string) :
  Py.has_char c a = false -> Py.has_char c b = false ->
  a +:+ String c x = b +:+ String c y -> a = b /\ x = y.
Proof.
  revert b. induction a as [|d a IH]; intros [|e b] Ha Hb H; simpl in *.
  - injection H as ->. split; reflexivity.
  - injection H as -> _. rewrite Ascii.eqb_refl in Hb. discriminate.
  - injection H as -> _. rewrite Ascii.eqb_refl in Ha. discriminate.
  - injection H as -> H.
    destruct (Ascii.eqb c e); [discriminate|].
    destruct (IH b Ha Hb H) as [-> ->]. split; reflexivity.
Qed.

Lemma build_gnina_command_output (cfg : Config) (row : Row)
    (flex : option (list string)) :
  (build_gnina_command cfg row flex).1.2 = artifact_path (key row).
Proof. reflexivity. Qed.

(** C7, as the code has it.  The artifact path is a function of the key
    alone, and two rows whose receptor ids contain no underscore, and whose
    site ids are equal or contain no underscore, get the same artifact path
    only if they have the same key. *)
Theorem artifact_path_injective_without_underscores
    (cfg1 cfg2 : Config) (flex1 flex2 : option (list string))
    (row1 row2 : Row) :
  Py.has_char "_" (receptor row1) = false ->
  Py.has_char "_" (receptor row2) = false ->
  (site_id row1 = site_id row2
   \/ (Py.has_char "_" (site_id row1) = false
       /\ Py.has_char "_" (site_id row2) = false)) ->
  (build_gnina_command cfg1 row1 flex1).1.2
  = (build_gnina_command cfg2 row2 flex2).1.2 ->
  (build_gnina_command cfg1 row1 flex1).1.2 = artifact_path (key row1)
  /\ key row1 = key row2.
Proof.
  intros Hr1 Hr2 Hs H. split; [reflexivity|].
  rewrite !build_gnina_command_output in H.
  unfold artifact_path, key, output_sdf_of in *.
  apply (inj (String.append "gnina_out/")) in H.
  apply append_inv_tail in H.
  apply cut_at_first in H as [Hr H]; [|assumption..].
  destruct Hs as [Hs | [Hs1 Hs2]].
  - rewrite Hs in H. apply (inj (String.append (site_id row2))) in H.
    injection H as Hl. change (ligand row1 = ligand row2) in Hl.
    now rewrite Hr, Hs, Hl.
  - apply cut_at_first in H as [Hs Hl]; [|assumption..].
    now rewrite Hr, Hs, Hl.
Qed.

Lemma artifact_path_injective_without_underscores_witness :
  key (row_of "1abc" "site_1" "lig_7") = key (row_of "1abc" "site_1" "lig_7").
Proof.
  apply (artifact_path_injective_without_underscores
           default_config default_config None None
           (row_of "1abc" "site_1" "lig_7") (row_of "1abc" "site_1" "lig_7")).
  - reflexivity.
  - reflexivity.
  - left. reflexivity.
  - reflexivity.
Defined.

(** C7 as stated fails: two distinct keys with one artifact path. *)
Lemma artifact_path_not_injective :
  key row_ab_c <> key row_a_bc
  /\ artifact_path (key row_ab_c) = artifact_path (key row_a_bc)
  /\ (build_gnina_command default_config row_ab_c None).1.2
     = (build_gnina_command default_config row_a_bc None).1.2.
Proof. repeat split. discriminate. Qed.

(* ================================================================== *)
(** ** Properties: the output parser *)
(* ================================================================== *)

Section Parser.
Context {rt : Runtime}.

Lemma scan_line_trailing (acc : list PoseScore) (line : string) :
  scan_line acc line
  = match trailing_score line with
    | Some v => acc ++ [mkPose (length acc + 1) v v]
    | None => acc
    end.
Proof.
  unfold scan_line, trailing_score.
  destruct (Py.contains "CNNscore" line); [|reflexivity].
  destruct (last (Py.split_ws line)) as [tok|]; simpl; [|reflexivity].
  destruct (py_float tok); reflexivity.
Qed.

(** The loop of the parser, started with [acc], appends one pose per
    scored line and numbers them on from [length acc]. *)
Lemma scan_lines_fold (lines : list string) (acc : list PoseScore) :
  fold_left scan_line lines acc
  = acc ++ imap (fun i v => mkPose (S (length acc + i)) v v)
                (omap trailing_score lines).
Proof.
  revert acc. induction lines as [|line lines IH]; intros acc; simpl.
  - now rewrite app_nil_r.
  - rewrite IH, scan_line_trailing.
    destruct (trailing_score line) as [v|]; simpl; [|reflexivity].
    rewrite <- app_assoc. simpl. f_equal.
    rewrite Nat.add_0_r, Nat.add_1_r. f_equal.
    apply imap_ext. intros i x _. simpl.
    rewrite length_app. simpl. f_equal. f_equal. lia.
Qed.

Lemma parse_body_scores (d : FileSystem) (output_sdf log : string) :
  (parse_body d output_sdf log []).1
  = match d !! output_sdf with
    | Some (Text content) =>
        poses_of (omap trailing_score (Py.split_on "010" content))
    | _ => []
    end.
Proof.
  unfold parse_body, path_exists, read_text.
  destruct (d !! output_sdf) as [[content|]|]; simpl;
    try rewrite scan_lines_fold; repeat case_match; reflexivity.
Qed.

Lemma parse_gnina_output_scores (d : FileSystem) (output_sdf log : string) :
  parse_gnina_output d output_sdf log
  = Return (parse_body d output_sdf log []).1.
Proof.
  unfold parse_gnina_output.
  destruct (parse_body d output_sdf log []) as [acc [[]|e]]; reflexivity.
Qed.

(** C10.  The parser returns on every disk and every pair of paths.  A
    missing, unreadable or empty artifact, and one without a line that
    carries the tag and ends in a numeric token, gives the empty list; a
    text artifact gives one pose per such line, in line order, with ids
    1, 2, ... and the affinity equal to the score. *)
Theorem parse_gnina_output_best_effort
    (d : FileSystem) (output_sdf log : string) :
  (exists sc, parse_gnina_output d output_sdf log = Return sc)
  /\ (d !! output_sdf = None ->
      parse_gnina_output d output_sdf log = Return [])
  /\ (d !! output_sdf = Some Unreadable ->
      parse_gnina_output d output_sdf log = Return [])
  /\ (d !! output_sdf = Some (Text "") ->
      parse_gnina_output d output_sdf log = Return [])
  /\ (forall content,
        d !! output_sdf = Some (Text content) ->
        parse_gnina_output d output_sdf log
        = Return (poses_of (omap trailing_score (Py.split_on "010" content)))
        /\ (Forall (fun line => trailing_score line = None)
                   (Py.split_on "010" content) ->
            parse_gnina_output d output_sdf log = Return [])).
Proof.
  rewrite parse_gnina_output_scores, parse_body_scores.
  split; [eauto|].
  split; [intros ->; reflexivity|].
  split; [intros ->; reflexivity|].
  split; [intros ->; reflexivity|].
  intros content ->. split; [reflexivity|].
  intros Hnone. f_equal.
  induction Hnone as [|line lines Hl _ IH]; [reflexivity|].
  simpl. rewrite Hl. exact IH.
Qed.

End Parser.

Lemma parse_gnina_output_best_effort_witness :
  @parse_gnina_output runtime_ok
    {[ "gnina_out/r_s_l_poses.sdf" := Text two_pose_text ]}
    "gnina_out/r_s_l_poses.sdf" "logs/r_s_l.log"
  = Return [mkPose 1 (9 # 10) (9 # 10); mkPose 2 (1 # 4) (1 # 4)].
Proof.
  destruct (@parse_gnina_output_best_effort runtime_ok
              {[ "gnina_out/r_s_l_poses.sdf" := Text two_pose_text ]}
              "gnina_out/r_s_l_poses.sdf" "logs/r_s_l.log")
    as (_ & _ & _ & _ & Htext).
  destruct (Htext two_pose_text) as [-> _]; [|vm_compute]; reflexivity.
Defined.

(* ================================================================== *)
(** ** Properties: the completion ledger *)
(* ================================================================== *)

Lemma substring_all (s : string) : String.substring 0 (String.length s) s = s.
Proof. induction s as [|c s IH]; simpl; [reflexivity | now rewrite IH]. Qed.

Lemma substring_is_prefix (k : nat) (s : string) :
  String.prefix (String.substring 0 k s) s = true.
Proof.
  revert k. induction s as [|c s IH]; intros [|k]; simpl; try reflexivity.
  destruct (ascii_dec c c) as [_|Hne]; [apply IH | now destruct Hne].
Qed.

Lemma append_cons (c : ascii) (p n : string) :
  String c p +:+ n = String c (p +:+ n).
Proof. reflexivity. Qed.

Lemma prefix_append (p n : string) : String.prefix p (p +:+ n) = true.
Proof.
  induction p as [|c p IH].
  - change ("" +:+ n) with n. now destruct n.
  - rewrite append_cons. simpl.
    destruct (ascii_dec c c) as [_|Hne]; [apply IH | now destruct Hne].
Qed.

Lemma prefix_split (p s : string) :
  String.prefix p s = true ->
  s = p +:+ String.substring (String.length p)
                             (String.length s - String.length p) s.
Proof.
  revert s. induction p as [|c p IH]; intros s H.
  - change (String.length "") with 0. rewrite Nat.sub_0_r, substring_all.
    reflexivity.
  - destruct s as [|e s]; simpl in H; [discriminate|].
    destruct (ascii_dec c e) as [->|]; [|discriminate].
    rewrite append_cons. simpl. f_equal. apply IH, H.
Qed.

Lemma length_append (p n : string) :
  String.length (p +:+ n) = String.length p + String.length n.
Proof.
  induction p as [|c p IH]; [reflexivity|].
  rewrite append_cons. simpl. now rewrite IH.
Qed.

Lemma append_assoc (a b c : string) : (a +:+ b) +:+ c = a +:+ (b +:+ c).
Proof.
  induction a as [|x a IH]; [reflexivity|].
  rewrite !append_cons. now rewrite IH.
Qed.

Lemma strip_prefix_opt_spec (p s n : string) :
  strip_prefix_opt p s = Some n <-> s = p +:+ n.
Proof.
  unfold strip_prefix_opt. split.
  - destruct (String.prefix p s) eqn:E; [|discriminate].
    intros [= <-]. apply prefix_split, E.
  - intros ->. rewrite prefix_append. f_equal.
    apply (inj (String.append p)). symmetry. apply prefix_split, prefix_append.
Qed.

(** What [os.listdir] returns. *)
Lemma listdir_spec (d : FileSystem) (dir f : string) :
  f ∈ listdir d dir
  <-> is_Some (d !! (dir +:+ "/" +:+ f)) /\ Py.has_char "/" f = false.
Proof.
  unfold listdir. rewrite list_elem_of_omap. split.
  - intros (path & Hin & Hf).
    destruct (strip_prefix_opt (dir +:+ "/") path) as [n|] eqn:E; [|discriminate].
    destruct (Py.has_char "/" n) eqn:Hs; [discriminate|].
    injection Hf as ->. apply strip_prefix_opt_spec in E. subst path.
    apply elem_of_elements, elem_of_dom in Hin.
    split; [|exact Hs]. now rewrite append_assoc in Hin.
  - intros [Hsome Hs]. exists (dir +:+ "/" +:+ f). split.
    + now apply elem_of_elements, elem_of_dom.
    + rewrite (proj2 (strip_prefix_opt_spec (dir +:+ "/") _ f)), Hs;
        [reflexivity|].
      now rewrite append_assoc.
Qed.

(** What the scan of the output directory adds to the ledger. *)
Lemma scanned_pairs_spec (d : FileSystem) (k : string) :
  k ∈ scanned_pairs d
  <-> exists f, is_Some (d !! ("gnina_out/" +:+ f))
                /\ Py.has_char "/" f = false
                /\ Py.endswith f "_poses.sdf" = true
                /\ k = Py.replace "_poses.sdf" "" f.
Proof.
  unfold scanned_pairs. rewrite list_elem_of_fmap. split.
  - intros (f & -> & Hin). apply list_elem_of_filter in Hin as [He Hin].
    apply listdir_spec in Hin as [Hsome Hs]. exists f. auto.
  - intros (f & Hsome & Hs & He & ->). exists f. split; [reflexivity|].
    apply list_elem_of_filter. split; [exact He|].
    apply listdir_spec. auto.
Qed.

(** The scan reads the output directory only. *)
Lemma scanned_pairs_agree (d d' : FileSystem) :
  (forall f, d' !! ("gnina_out/" +:+ f) = d !! ("gnina_out/" +:+ f)) ->
  (list_to_set (scanned_pairs d') : gset string) = list_to_set (scanned_pairs d).
Proof.
  intros Heq. apply set_eq. intros k.
  rewrite !elem_of_list_to_set, !scanned_pairs_spec.
  split; intros (f & H & Hrest); exists f; (split; [|exact Hrest]).
  - now rewrite <- Heq.
  - now rewrite Heq.
Qed.

Lemma set_of_json_strings (l : list string) :
  set_of_json (Json.JArr (Json.JStr <$> l)) = Return (list_to_set l).
Proof.
  unfold set_of_json.
  assert (Hall : forallb (fun i => match i with
                                  | Json.JArr _ | Json.JObj _ => false
                                  | _ => true
                                  end) (Json.JStr <$> l) = true).
  { induction l as [|x l IH]; [reflexivity | exact IH]. }
  rewrite Hall. do 2 f_equal.
  induction l as [|x l IH]; [reflexivity|].
  rewrite fmap_cons. simpl. f_equal. apply IH.
  simpl in Hall. exact Hall.
Qed.

Lemma set_of_json_elements (X : gset string) :
  set_of_json (Json.JArr (Json.JStr <$> elements X)) = Return X.
Proof. rewrite set_of_json_strings. f_equal. apply list_to_set_elements_L. Qed.

(** C4, as the code has it.  [save_docking_state] rewrites the ledger file
    in place.  Run to its end, it leaves the JSON text of the state, whose
    [completed_pairs] entry is the whole current key set and whose counters
    are the current ones, and it touches no other file.  Stopped before the
    file is opened it leaves the disk as it was; stopped after, it leaves a
    prefix of the new text. *)
Theorem save_docking_state_in_place
    (e : Engine) (timestamp : string) (res : list Result) (d : FileSystem) :
  let new_text := Json.dumps (docking_state e timestamp res) in
  save_docking_state e timestamp res d !! state_file = Some (Text new_text)
  /\ (forall path, path <> state_file ->
        save_docking_state e timestamp res d !! path = d !! path)
  /\ (exists members,
        docking_state e timestamp res = Json.JObj members
        /\ (Json.get "completed_pairs" members ≫= fun v => Some (set_of_json v))
           = Some (Return (completed_pairs e))
        /\ Json.get "total_pairs" members
           = Some (Json.JInt (Z.of_nat (total_pairs e)))
        /\ Json.get "results_count" members
           = Some (Json.JInt (Z.of_nat (length res))))
  /\ save_docking_state_upto NotOpened e timestamp res d = d
  /\ save_docking_state_upto Closed e timestamp res d
     = save_docking_state e timestamp res d
  /\ (forall k, exists written,
        save_docking_state_upto (Opened k) e timestamp res d !! state_file
        = Some (Text written)
        /\ String.prefix written new_text = true
        /\ String.length written = Nat.min k (String.length new_text)).
Proof.
  intros new_text. unfold save_docking_state, save_docking_state_upto, disk_at.
  split; [apply lookup_insert_eq|].
  split; [intros path Hne; now apply lookup_insert_ne|].
  split.
  { eexists. split; [reflexivity|]. split; [|split; reflexivity].
    change (Json.get "completed_pairs" _)
      with (Some (Json.JArr (Json.JStr <$> elements (completed_pairs e)))).
    rewrite <- (set_of_json_elements (completed_pairs e)). reflexivity. }
  split; [reflexivity|]. split; [reflexivity|].
  intros k. exists (String.substring 0 k new_text).
  split; [apply lookup_insert_eq|]. split; [apply substring_is_prefix|].
  generalize new_text. clear. intros s. revert k.
  induction s as [|c s IH]; intros [|k]; simpl; try reflexivity.
  now rewrite IH.
Qed.

Lemma save_docking_state_in_place_witness :
  save_docking_state engine_one_done "2026-01-01T00:00:00" []
                     {[ "gnina_out/r_s_l_poses.sdf" := Text "" ]}
    !! "gnina_out/r_s_l_poses.sdf"
  = Some (Text "").
Proof.
  destruct (save_docking_state_in_place engine_one_done "2026-01-01T00:00:00"
              [] {[ "gnina_out/r_s_l_poses.sdf" := Text "" ]})
    as (_ & Hother & _).
  rewrite Hother; [reflexivity | discriminate].
Defined.

(** C4 as stated fails: a save that stops right after [open] leaves an
    empty ledger file, which is neither the previous text nor the new one
    and which [load_docking_state] cannot read. *)
Lemma save_docking_state_not_atomic :
  let old := disk_ledger_only in
  let e := set_completed engine_one_done {[ "r_s_l"; "r_s_m" ]} in
  let crashed := save_docking_state_upto (Opened 0) e "2026-01-02T00:00:00" [] old in
  let finished := save_docking_state e "2026-01-02T00:00:00" [] old in
  ledger_file_keys old = Return {[ "r_s_l" ]}
  /\ crashed !! state_file = Some (Text "")
  /\ crashed !! state_file <> old !! state_file
  /\ crashed !! state_file <> finished !! state_file
  /\ load_docking_state e crashed = Raise JSONDecodeError.
Proof.
  cbv zeta. split; [vm_compute; reflexivity|].
  split; [reflexivity|].
  split; [vm_compute; discriminate|].
  split; [vm_compute; discriminate|].
  vm_compute. reflexivity.
Qed.

Lemma load_docking_state_keys (e e0 e' : Engine) (d : FileSystem) :
  load_docking_state e d = Return (true, e') ->
  exists e0', load_docking_state e0 d = Return (true, e0')
              /\ completed_pairs e0' = completed_pairs e'.
Proof.
  unfold load_docking_state.
  destruct (path_exists d state_file); [|discriminate].
  destruct (read_text d state_file) as [text|]; [|discriminate]. simpl.
  destruct (Json.loads text) as [[| | | | | |members]|]; try discriminate.
  simpl.
  destruct (match Json.get "completed_pairs" members with
            | Some v => set_of_json v
            | None => Return ∅
            end) as [keys|]; [|discriminate].
  simpl. intros [= <-]. eexists. split; reflexivity.
Qed.

(** C5, as the code has it.  When [run_parallel_docking] starts to
    dispatch, the ledger is the set that the engine object already held
    together with the pair ids scanned from the output directory.  The
    ledger file is not read: writing or deleting it changes nothing.  It
    counts only when the caller ran [load_docking_state] before, and then
    the ledger is the union of the keys of the file and of the scan. *)
Theorem startup_ledger_is_memory_and_scan
    (e : Engine) (w : World) (pairlist_df : list Row) (batch_size : nat) :
  let startup := p_completed (initial_pool e w pairlist_df batch_size) in
  startup = completed_pairs e ∪ list_to_set (scanned_pairs (fs w))
  /\ (forall k, k ∈ startup <->
        k ∈ completed_pairs e
        \/ exists f, is_Some (fs w !! ("gnina_out/" +:+ f))
                     /\ Py.has_char "/" f = false
                     /\ Py.endswith f "_poses.sdf" = true
                     /\ k = Py.replace "_poses.sdf" "" f)
  /\ (forall c,
        p_completed (initial_pool e (mkWorld (<[state_file := c]> (fs w))
                                             (launched w))
                                  pairlist_df batch_size) = startup)
  /\ p_completed (initial_pool e (mkWorld (delete state_file (fs w))
                                          (launched w))
                               pairlist_df batch_size) = startup
  /\ (forall e',
        load_docking_state e (fs w) = Return (true, e') ->
        ledger_file_keys (fs w) = Return (completed_pairs e')
        /\ p_completed (initial_pool e' w pairlist_df batch_size)
           = completed_pairs e' ∪ list_to_set (scanned_pairs (fs w))).
Proof.
  cbv zeta. unfold initial_pool, load_completed_pairs. simpl.
  split; [reflexivity|].
  split.
  { intros k. rewrite elem_of_union, elem_of_list_to_set, scanned_pairs_spec.
    reflexivity. }
  split.
  { intros c. f_equal. apply scanned_pairs_agree. intros f.
    apply lookup_insert_ne. discriminate. }
  split.
  { f_equal. apply scanned_pairs_agree. intros f.
    apply lookup_delete_ne. discriminate. }
  intros e' Hload. split; [|reflexivity].
  unfold ledger_file_keys.
  destruct (load_docking_state_keys e (new_engine default_config 4) e' _ Hload)
    as (e0' & -> & <-).
  reflexivity.
Qed.

Lemma startup_ledger_is_memory_and_scan_witness :
  ledger_file_keys disk_ledger_only = Return {[ "r_s_l" ]}.
Proof.
  destruct (startup_ledger_is_memory_and_scan
              (new_engine default_config 4) (mkWorld disk_ledger_only [])
              [row_of "r" "s" "l"] 5) as (_ & _ & _ & _ & Hload).
  refine (proj1 (Hload (set_total (set_completed (new_engine default_config 4)
                                                 {[ "r_s_l" ]}) 1) _)).
  vm_compute. reflexivity.
Defined.

(** C5 as stated fails: the ledger file lists a key, no artifact is left,
    and the run starts from the empty ledger and launches the item. *)
Lemma startup_ignores_ledger_file :
  let w := mkWorld disk_ledger_only [] in
  let e := new_engine default_config 4 in
  let catalog := [row_of "r" "s" "l"] in
  ledger_file_keys (fs w) = Return {[ "r_s_l" ]}
  /\ scanned_pairs (fs w) = []
  /\ p_completed (initial_pool e w catalog 5) = ∅
  /\ p_completed (initial_pool e w catalog 5)
     <> {[ "r_s_l" ]} ∪ list_to_set (scanned_pairs (fs w))
  /\ exists rs e' w',
       @run_parallel_docking runtime_ok sched_one e w catalog None 5
       = Some (Return rs, e', w')
       /\ length (launched w') = 1.
Proof.
  cbv zeta. split; [vm_compute; reflexivity|].
  split; [vm_compute; reflexivity|].
  split; [vm_compute; reflexivity|].
  split.
  { intros H. assert (Hin : "r_s_l" ∈ (∅ : gset string)).
    { replace (∅ : gset string)
        with (p_completed (initial_pool (new_engine default_config 4)
                             (mkWorld disk_ledger_only [])
                             [row_of "r" "s" "l"] 5))
        by (vm_compute; reflexivity).
      rewrite H. apply elem_of_union_l, elem_of_singleton. reflexivity. }
    now apply not_elem_of_empty in Hin. }
  eexists _, _, _. split; [vm_compute; reflexivity|]. reflexivity.
Qed.

(* ================================================================== *)
(** ** Properties: the funnel filter *)
(* ================================================================== *)

Lemma Qltb_false (a b : Q) : Pd.Qltb a b = false <-> (b <= a)%Q.
Proof.
  unfold Pd.Qltb. rewrite negb_false_iff. apply Qle_bool_iff.
Qed.

Lemma Qltb_true (a b : Q) : Pd.Qltb a b = true <-> (a < b)%Q.
Proof.
  unfold Pd.Qltb. rewrite negb_true_iff. split.
  - intros H. apply Qnot_le_lt. intros Hle.
    apply Qle_bool_iff in Hle. congruence.
  - intros H. destruct (Qle_bool b a) eqn:E; [|reflexivity].
    apply Qle_bool_iff in E. exfalso. now apply (Qlt_not_le a b).
Qed.

Lemma filter_rows_kept (keep : Row -> outcome bool) (rows kept : list Row) :
  filter_rows keep rows = Return kept ->
  kept `sublist_of` rows
  /\ (forall row, row ∈ kept -> keep row = Return true).
Proof.
  revert kept. induction rows as [|row rows IH]; intros kept; simpl.
  - intros [= <-]. split; [constructor|]. intros row Hin.
    now apply not_elem_of_nil in Hin.
  - destruct (keep row) as [b|] eqn:Hk; [|discriminate]. simpl.
    destruct (filter_rows keep rows) as [kept'|]; [|discriminate]. simpl.
    destruct (IH kept' eq_refl) as [Hsub Hall].
    intros [= <-]. destruct b.
    + split; [now constructor|]. intros r Hin.
      apply elem_of_cons in Hin as [->|Hin]; auto.
    + split; [now constructor|]. exact Hall.
Qed.

Lemma filter_rows_returns (keep : Row -> outcome bool) (rows : list Row) :
  (forall row, exists b, keep row = Return b) ->
  exists kept, filter_rows keep rows = Return kept.
Proof.
  intros Hk. induction rows as [|row rows [kept IH]]; simpl; [eauto|].
  destruct (Hk row) as [b ->]. simpl. rewrite IH. simpl. eauto.
Qed.

Lemma successful_results_spec (prev : list Result) (sr : ScoreRow) :
  sr ∈ successful_results prev
  <-> exists r sc p,
        r ∈ prev /\ status r = success /\ scores r = Some sc /\ p ∈ sc
        /\ sr = mkScoreRow (r_receptor r) (r_ligand r) (r_site_id r)
                           (cnn_score p).
Proof.
  unfold successful_results. rewrite list_elem_of_In, in_flat_map. split.
  - intros (r & Hin & Hsr). apply list_elem_of_In in Hin, Hsr.
    destruct (status r) eqn:Hs; try now apply not_elem_of_nil in Hsr.
    destruct (scores r) as [sc|] eqn:Hsc; [|now apply not_elem_of_nil in Hsr].
    apply list_elem_of_fmap in Hsr as (p & -> & Hp).
    exists r, sc, p. auto.
  - intros (r & sc & p & Hin & Hs & Hsc & Hp & ->).
    exists r. split; [now apply list_elem_of_In|].
    rewrite Hs, Hsc. apply list_elem_of_In, list_elem_of_fmap. eauto.
Qed.

(** A row that the loop keeps has scores of its own in [results_df]. *)
Lemma keeps_has_scores (c : StageConfig) (results_df : list ScoreRow)
    (row : Row) :
  keeps c results_df row = Return true ->
  exists sr, sr ∈ results_df
             /\ (sr_receptor sr, sr_site_id sr, sr_ligand sr) = key row.
Proof.
  unfold keeps.
  destruct (pair_scores results_df row) as [|sr l] eqn:E; [discriminate|].
  intros _. exists sr.
  assert (Hin : sr ∈ pair_scores results_df row) by (rewrite E; left).
  apply list_elem_of_filter in Hin as [(Hr & Hl & Hs) Hin].
  split; [exact Hin|]. unfold key. now rewrite Hr, Hl, Hs.
Qed.

Lemma quantile_returns (q : Q) (xs : list Q) :
  (0 <= q)%Q -> (q <= 1)%Q -> exists t, Pd.quantile q xs = Return t.
Proof.
  intros H0 H1. unfold Pd.quantile.
  rewrite (proj2 (Qltb_false q 0) H0), (proj2 (Qltb_false 1 q) H1). simpl.
  destruct (Pd.sort_asc xs); eauto.
Qed.

Lemma keeps_returns (c : StageConfig) (results_df : list ScoreRow) (row : Row) :
  match top_percentage c with
  | Some p => (0 <= p)%Q /\ (p <= 1)%Q
  | None => True
  end ->
  exists b, keeps c results_df row = Return b.
Proof.
  intros Hp. unfold keeps, check_top_percentage.
  destruct (sr_cnn_score <$> pair_scores results_df row) as [|s ss]; [eauto|].
  destruct (Pd.Qltb _ _); [eauto|].
  destruct (top_percentage c) as [p|]; simpl; [|eauto].
  destruct Hp as [Hp0 Hp1].
  destruct (quantile_returns (1 - p) (sr_cnn_score <$>
              of_receptor results_df (receptor row))) as [t ->].
  - lra.
  - lra.
  - simpl. destruct t as [t|]; simpl; [destruct (negb _)|]; simpl; eauto.
Qed.

(** C3, as the code has it.  For a configured stage whose percentile, if
    set, lies in the unit interval, the filter returns, and what it returns
    is a sublist of the pair list.  For a stage other than A and previous
    results that hold at least one score, every row returned has a
    successful, scored result of the previous stage.  For stage A, and
    when the previous results are missing, empty or without any score, the
    whole pair list is returned. *)
Theorem filter_ligands_for_stage_subset
    (stages : gmap string StageConfig) (stage : string) (c : StageConfig)
    (previous_results : option (list Result)) (pairlist_df : list Row) :
  stages !! stage = Some c ->
  match top_percentage c with
  | Some p => (0 <= p)%Q /\ (p <= 1)%Q
  | None => True
  end ->
  exists kept,
    filter_ligands_for_stage stages stage previous_results pairlist_df
    = Return kept
    /\ kept `sublist_of` pairlist_df
    /\ (stage <> "A" ->
        successful_results (default [] previous_results) <> [] ->
        forall row, row ∈ kept ->
                    scored_in (default [] previous_results) row)
    /\ (stage = "A"
        \/ successful_results (default [] previous_results) = [] ->
        kept = pairlist_df).
Proof.
  intros Hc Hp. unfold filter_ligands_for_stage, get_stage_config.
  rewrite Hc. simpl.
  destruct (String.eqb_spec stage "A") as [->|HA].
  { exists pairlist_df. split; [reflexivity|]. split; [reflexivity|].
    split; [congruence|reflexivity]. }
  destruct previous_results as [[|r prev]|]; cbv iota.
  - exists pairlist_df. split; [reflexivity|]. split; [reflexivity|].
    split; [|reflexivity]. intros _ H. now destruct H.
  - change (default [] (Some (r :: prev))) with (r :: prev).
    destruct (successful_results (r :: prev)) as [|sr df] eqn:E.
    { exists pairlist_df. split; [reflexivity|]. split; [reflexivity|].
      split; [|reflexivity]. intros _ H. now destruct H. }
    destruct (filter_rows_returns (keeps c (sr :: df)) pairlist_df)
      as [kept Hk]; [intros row; now apply keeps_returns|].
    exists kept. split; [exact Hk|].
    apply filter_rows_kept in Hk as [Hsub Hall].
    split; [exact Hsub|]. split.
    + intros _ _ row Hin.
      destruct (keeps_has_scores _ _ _ (Hall row Hin)) as (s & Hs & Hkey).
      rewrite <- E in Hs.
      apply successful_results_spec in Hs
        as (r0 & sc & p & Hr0 & Hst & Hsc & Hpin & ->).
      exists r0, sc, p. simpl in Hkey. auto.
    + intros [->|Hnil]; [now destruct HA | discriminate].
  - exists pairlist_df. split; [reflexivity|]. split; [reflexivity|].
    split; [|reflexivity]. intros _ H. now destruct H.
Qed.

Lemma filter_ligands_for_stage_subset_witness :
  exists kept,
    filter_ligands_for_stage default_stages "B" (Some prev_all_failed)
                             [row_rsl] = Return kept
    /\ kept `sublist_of` [row_rsl].
Proof.
  destruct (filter_ligands_for_stage_subset default_stages "B"
              (mkStage "Focused Refinement" "refinement" 24 15
                 "Balanced refinement with CNN pose optimization" (7 # 10)
                 (Some 5) (Some (1 # 20))
                 "Focused re-docking, pose refinement")
              (Some prev_all_failed) [row_rsl])
    as (kept & Hk & Hsub & _).
  - reflexivity.
  - simpl. split; discriminate.
  - exists kept. split; assumption.
Defined.

(** C3 as stated fails: when every result of the previous stage failed,
    the filter for stage B returns the whole pair list, with a row that
    has no score. *)
Lemma failed_items_reach_next_stage :
  filter_ligands_for_stage default_stages "B" (Some prev_all_failed)
                           [row_rsl] = Return [row_rsl]
  /\ ~ scored_in prev_all_failed row_rsl
  /\ filter_ligands_for_stage default_stages "B" None [row_rsl]
     = Return [row_rsl].
Proof.
  split; [reflexivity|]. split; [|reflexivity].
  intros (r & sc & p & Hin & Hs & _).
  apply list_elem_of_singleton in Hin. subst r. discriminate.
Qed.

Lemma insert_asc_length (x : Q) (l : list Q) :
  length (Pd.insert_asc x l) = S (length l).
Proof.
  induction l as [|y l IH]; simpl; [reflexivity|].
  destruct (Qle_bool x y); simpl; [reflexivity | now rewrite IH].
Qed.

Lemma sort_asc_length (l : list Q) : length (Pd.sort_asc l) = length l.
Proof.
  induction l as [|x l IH]; simpl; [reflexivity|].
  unfold Pd.sort_asc in *. simpl. now rewrite insert_asc_length, IH.
Qed.

(** On a non-empty series and a level in the unit interval the quantile is
    a number. *)
Lemma quantile_some (q : Q) (xs : list Q) :
  (0 <= q)%Q -> (q <= 1)%Q -> xs <> [] ->
  exists t, Pd.quantile q xs = Return (Some t).
Proof.
  intros H0 H1 Hne. unfold Pd.quantile.
  rewrite (proj2 (Qltb_false q 0) H0), (proj2 (Qltb_false 1 q) H1). simpl.
  destruct (Pd.sort_asc xs) as [|x0 l] eqn:E; [|eauto].
  apply (f_equal length) in E. rewrite sort_asc_length in E.
  destruct xs; [now destruct Hne | discriminate].
Qed.

Lemma pair_scores_of_receptor (df : list ScoreRow) (row : Row) (sr : ScoreRow) :
  sr ∈ pair_scores df row -> sr ∈ of_receptor df (receptor row).
Proof.
  unfold pair_scores, of_receptor. rewrite !list_elem_of_filter.
  intros [(Hr & _) Hin]. auto.
Qed.

Lemma best_of_group_nonempty (df : list ScoreRow) (row : Row) (best : Q) :
  best_of df row = Some best ->
  sr_cnn_score <$> of_receptor df (receptor row) <> [].
Proof.
  unfold best_of.
  destruct (pair_scores df row) as [|sr l] eqn:E; [discriminate|]. intros _.
  assert (Hin : sr ∈ of_receptor df (receptor row)).
  { apply pair_scores_of_receptor. rewrite E. left. }
  destruct (of_receptor df (receptor row)); [|discriminate].
  now apply not_elem_of_nil in Hin.
Qed.

(** With at most one pose per result, the pose scores of a receptor are
    the best scores of its items. *)
Lemma single_pose_scores (prev : list Result) (rec : string) :
  (forall r sc, r ∈ prev -> scores r = Some sc -> length sc <= 1) ->
  sr_cnn_score <$> of_receptor (successful_results prev) rec
  = group_best_scores prev rec.
Proof.
  unfold of_receptor, group_best_scores, successful_results.
  induction prev as [|r prev IH]; intros Hone; [reflexivity|].
  simpl. rewrite filter_app, fmap_app, IH
    by (intros r' sc Hin; apply Hone; now right).
  rewrite filter_cons. clear IH.
  assert (Hr : forall sc, scores r = Some sc -> length sc <= 1)
    by (intros sc; apply Hone; left).
  destruct (decide (r_receptor r = rec)) as [Heq|Hne].
  - simpl. unfold best_score.
    destruct (status r); [|reflexivity..].
    destruct (scores r) as [[|p [|p' sc]]|]; try reflexivity.
    + specialize (Hr _ eq_refl). simpl.
      rewrite filter_cons. simpl. rewrite decide_True by exact Heq.
      reflexivity.
    + specialize (Hr _ eq_refl). simpl in Hr. lia.
  - replace (filter (fun sr => sr_receptor sr = rec) _) with (@nil ScoreRow);
      [reflexivity|].
    destruct (status r); [|reflexivity..].
    destruct (scores r) as [sc|]; [|reflexivity].
    clear Hr. induction sc as [|p sc IHsc]; [reflexivity|].
    rewrite fmap_cons, filter_cons. simpl.
    rewrite decide_False by exact Hne. exact IHsc.
Qed.

Lemma check_top_percentage_bool (p : Q) (df : list ScoreRow) (row : Row)
    (best t : Q) :
  Pd.quantile (1 - p)
              (sr_cnn_score <$> of_receptor df (receptor row))
  = Return (Some t) ->
  check_top_percentage (Some p) df row best = Return (Qle_bool t best).
Proof.
  intros Hq. unfold check_top_percentage. rewrite Hq. simpl.
  unfold Pd.Qltb. now rewrite negb_involutive.
Qed.

(** C8, as the code has it.  With [top_percentage] set to [p], a row with
    best score [best] passes the percentile test exactly when [best] is at
    least the [(1 - p)]-quantile of all pose scores of its receptor: every
    pose of every successful result counts, not one best score per item.
    When every result has at most one pose the two populations are the
    same, and for five single-pose items with scores 0.95, 0.9, 0.85, 0.6,
    0.5 and [p = 0.2] the item with 0.95 alone passes. *)
Theorem top_percentage_over_all_pose_scores
    (c : StageConfig) (p : Q) (results_df : list ScoreRow) (row : Row)
    (best : Q) :
  top_percentage c = Some p -> (0 <= p)%Q -> (p <= 1)%Q ->
  best_of results_df row = Some best ->
  exists t,
    Pd.quantile (1 - p)
                (sr_cnn_score <$> of_receptor results_df (receptor row))
    = Return (Some t)
    /\ check_top_percentage (top_percentage c) results_df row best
       = Return (Qle_bool t best)
    /\ (keeps c results_df row = Return true -> (t <= best)%Q)
    /\ ((cnn_score_threshold c <= best)%Q ->
        max_ligands_per_receptor c = None ->
        (keeps c results_df row = Return true <-> (t <= best)%Q))
    /\ (forall prev,
          results_df = successful_results prev ->
          (forall r sc, r ∈ prev -> scores r = Some sc -> length sc <= 1) ->
          check_top_percentage (Some p) results_df row best
          = spec_top_percentile p prev row best)
    /\ filter_ligands_for_stage
         (only_stage_B (1 # 2) None (Some (2 # 10))) "B"
         (Some group_of_five) (catalog_of "r" ["l1"; "l2"; "l3"; "l4"; "l5"])
       = Return (catalog_of "r" ["l1"]).
Proof.
  intros Hp Hp0 Hp1 Hbest.
  destruct (quantile_some (1 - p)
              (sr_cnn_score <$> of_receptor results_df (receptor row)))
    as [t Hq]; [lra | lra | now apply best_of_group_nonempty with best|].
  exists t. split; [exact Hq|].
  assert (Hcheck := check_top_percentage_bool p results_df row best t Hq).
  rewrite Hp. split; [exact Hcheck|].
  assert (Hkeeps : keeps c results_df row
                   = if Pd.Qltb best (cnn_score_threshold c) then Return false
                     else if negb (Qle_bool t best) then Return false
                     else Return (check_max_ligands
                                    (max_ligands_per_receptor c) results_df row)).
  { unfold keeps, best_of in *.
    destruct (sr_cnn_score <$> pair_scores results_df row) as [|s ss];
      [discriminate|].
    injection Hbest as ->.
    destruct (Pd.Qltb best (cnn_score_threshold c)); [reflexivity|].
    rewrite Hp, Hcheck. reflexivity. }
  split.
  { rewrite Hkeeps. destruct (Pd.Qltb best _); [discriminate|].
    destruct (Qle_bool t best) eqn:E; [|discriminate].
    intros _. now apply Qle_bool_iff. }
  split.
  { intros Hthr Hcap. rewrite Hkeeps, Hcap.
    rewrite (proj2 (Qltb_false best (cnn_score_threshold c)) Hthr).
    simpl. rewrite <- Qle_bool_iff.
    destruct (Qle_bool t best); simpl; split; congruence. }
  split; [|vm_compute; reflexivity].
  intros prev -> Hone. unfold check_top_percentage, spec_top_percentile.
  now rewrite single_pose_scores.
Qed.

Lemma top_percentage_over_all_pose_scores_witness :
  exists t,
    Pd.quantile (1 - (2 # 10))
      (sr_cnn_score <$> of_receptor (successful_results group_of_five) "r")
    = Return (Some t)
    /\ check_top_percentage (Some (2 # 10)) (successful_results group_of_five)
         (row_of "r" "site_1" "l1") (95 # 100)
       = Return (Qle_bool t (95 # 100)).
Proof.
  destruct (top_percentage_over_all_pose_scores
              (mkStage "Focused Refinement" "refinement" 24 15 "" (1 # 2)
                       None (Some (2 # 10)) "")
              (2 # 10) (successful_results group_of_five)
              (row_of "r" "site_1" "l1") (95 # 100))
    as (t & Hq & Hc & _).
  - reflexivity.
  - discriminate.
  - discriminate.
  - reflexivity.
  - exists t. split; assumption.
Defined.

(** C8 as stated fails: with five more poses on the first item the five
    best scores are unchanged, the quantile of the best scores still admits
    one item, and the code admits two. *)
Lemma top_percentage_not_over_best_scores :
  let df := successful_results group_of_five_more_poses in
  let row := row_of "r" "site_1" "l2" in
  group_best_scores group_of_five_more_poses "r"
  = [95 # 100; 9 # 10; 85 # 100; 6 # 10; 5 # 10]%Q
  /\ best_of df row = Some (9 # 10)
  /\ spec_top_percentile (2 # 10) group_of_five_more_poses row (9 # 10)
     = Return false
  /\ check_top_percentage (Some (2 # 10)) df row (9 # 10) = Return true
  /\ filter_ligands_for_stage
       (only_stage_B (1 # 2) None (Some (2 # 10))) "B"
       (Some group_of_five_more_poses)
       (catalog_of "r" ["l1"; "l2"; "l3"; "l4"; "l5"])
     = Return (catalog_of "r" ["l1"; "l2"]).
Proof. cbv zeta. repeat split; vm_compute; reflexivity. Qed.

(** *** The per-receptor cap *)

Lemma unique_elem_of (l : list string) (x : string) :
  x ∈ Pd.unique l <-> x ∈ l.
Proof.
  induction l as [|y l IH]; simpl; [reflexivity|].
  rewrite !elem_of_cons, list_elem_of_filter, IH.
  destruct (decide (x = y)); intuition.
Qed.

Lemma unique_NoDup (l : list string) : NoDup (Pd.unique l).
Proof.
  induction l as [|y l IH]; simpl; constructor.
  - rewrite list_elem_of_filter. intros [Hne _]. now apply Hne.
  - now apply NoDup_filter.
Qed.

Lemma insert_str_perm (x : string) (l : list string) :
  Pd.insert_str x l ≡ₚ x :: l.
Proof.
  induction l as [|y l IH]; simpl; [reflexivity|].
  destruct (String.leb x y); [reflexivity|].
  rewrite IH. apply Permutation_swap.
Qed.

Lemma sort_str_perm (l : list string) : Pd.sort_str l ≡ₚ l.
Proof.
  induction l as [|x l IH]; [reflexivity|].
  unfold Pd.sort_str in *. simpl. now rewrite insert_str_perm, IH.
Qed.

Lemma insert_str_sorted (x : string) (l : list string) :
  StronglySorted String.le l -> StronglySorted String.le (Pd.insert_str x l).
Proof.
  induction 1 as [|y l Hs IH Hall]; simpl; [repeat constructor|].
  destruct (String.leb x y) eqn:E.
  - constructor; [now constructor|].
    assert (Hxy : String.le x y) by (unfold String.le; now rewrite E).
    constructor; [exact Hxy|].
    eapply Forall_impl; [exact Hall|]. intros z Hyz. now transitivity y.
  - constructor; [exact IH|].
    rewrite insert_str_perm. constructor; [|exact Hall].
    destruct (total String.le x y) as [Hxy|Hyx]; [|exact Hyx].
    unfold String.le in Hxy. rewrite E in Hxy. now destruct Hxy.
Qed.

Lemma sort_str_sorted (l : list string) :
  StronglySorted String.le (Pd.sort_str l).
Proof.
  induction l as [|x l IH]; [constructor|].
  unfold Pd.sort_str in *. simpl. now apply insert_str_sorted.
Qed.

Lemma sorted_strict (l : list string) :
  StronglySorted String.le l -> NoDup l -> StronglySorted name_before l.
Proof.
  induction 1 as [|x l Hs IH Hall]; intros Hnd; [constructor|].
  apply NoDup_cons in Hnd as [Hx Hnd]. constructor; [now apply IH|].
  apply Forall_forall. intros y Hy. split.
  - rewrite Forall_forall in Hall. now apply Hall.
  - intros ->. now apply Hx.
Qed.

(** The keys of the grouped series: the distinct keys in ascending
    order. *)
Lemma groupby_max_keys (rows : list (string * Q)) :
  fst <$> Pd.groupby_max rows = Pd.sort_str (Pd.unique (fst <$> rows)).
Proof.
  unfold Pd.groupby_max.
  assert (Hin : forall k, k ∈ Pd.sort_str (Pd.unique (fst <$> rows)) ->
                          k ∈ fst <$> rows).
  { intros k. now rewrite sort_str_perm, unique_elem_of. }
  induction (Pd.sort_str (Pd.unique (fst <$> rows))) as [|k ks IH];
    [reflexivity|].
  simpl.
  destruct (filter (fun kv => kv.1 = k) rows) as [|kv kvs] eqn:E.
  - exfalso. assert (Hk : k ∈ fst <$> rows) by (apply Hin; left).
    apply list_elem_of_fmap in Hk as ([k' v] & -> & Hkv).
    assert (Hf : (k', v) ∈ filter (fun kv => kv.1 = (k', v).1) rows)
      by now apply list_elem_of_filter.
    rewrite E in Hf. now apply not_elem_of_nil in Hf.
  - simpl. f_equal. apply IH. intros k' Hk'. apply Hin. now right.
Qed.

Lemma groupby_max_elem_of (rows : list (string * Q)) (k : string) (v : Q) :
  (k, v) ∈ Pd.groupby_max rows
  <-> exists s ss, snd <$> filter (fun kv => kv.1 = k) rows = s :: ss
                   /\ v = Pd.max_of s ss.
Proof.
  unfold Pd.groupby_max. rewrite list_elem_of_omap. split.
  - intros (k' & _ & Hf).
    destruct (snd <$> filter (fun kv => kv.1 = k') rows) as [|s ss] eqn:E;
      [discriminate|].
    injection Hf as -> <-. eauto.
  - intros (s & ss & E & ->). exists k. split; [|now rewrite E].
    rewrite sort_str_perm, unique_elem_of.
    destruct (filter (fun kv => kv.1 = k) rows) as [|[k' v'] kvs] eqn:Ef;
      [discriminate|].
    assert (Hin : (k', v') ∈ filter (fun kv => kv.1 = k) rows)
      by (rewrite Ef; left).
    apply list_elem_of_filter in Hin as [Hk Hin]. simpl in Hk. subst k'.
    apply list_elem_of_fmap. exists (k, v'). auto.
Qed.

Lemma insert_desc_perm (x : string * Q) (l : list (string * Q)) :
  Pd.insert_desc x l ≡ₚ x :: l.
Proof.
  induction l as [|y l IH]; simpl; [reflexivity|].
  destruct (Pd.Qltb (snd x) (snd y)); [|reflexivity].
  rewrite IH. apply Permutation_swap.
Qed.

Lemma sort_desc_perm (l : list (string * Q)) :
  fold_right Pd.insert_desc [] l ≡ₚ l.
Proof.
  induction l as [|x l IH]; [reflexivity|].
  simpl. now rewrite insert_desc_perm, IH.
Qed.

(** Inserting an entry whose key is earlier than every key of a list that
    is in selection order gives a list in selection order. *)
Lemma insert_desc_sorted (x : string * Q) (l : list (string * Q)) :
  StronglySorted selected_before l ->
  Forall (fun y => name_before (fst x) (fst y)) l ->
  StronglySorted selected_before (Pd.insert_desc x l).
Proof.
  induction 1 as [|y l Hs IH Hall]; intros Hnames; simpl;
    [repeat constructor|].
  apply Forall_cons in Hnames as [Hxy Hnames].
  destruct (Pd.Qltb (snd x) (snd y)) eqn:E.
  - apply Qltb_true in E. constructor; [now apply IH|].
    rewrite insert_desc_perm. constructor; [now left | exact Hall].
  - apply Qltb_false in E. constructor; [now constructor|].
    assert (Hle : forall z, (snd z <= snd x)%Q ->
                            name_before (fst x) (fst z) ->
                            selected_before x z).
    { intros z Hz Hn. unfold selected_before.
      destruct (Qlt_le_dec (snd z) (snd x)) as [Hlt|Hge]; [now left|].
      right. split; [lra | exact Hn]. }
    constructor; [now apply Hle|].
    rewrite Forall_forall in Hall, Hnames. apply Forall_forall.
    intros z Hz. apply Hle; [|now apply Hnames].
    destruct (Hall z Hz) as [Hlt | [Heq _]]; lra.
Qed.

Lemma sort_desc_sorted (l : list (string * Q)) :
  StronglySorted name_before (fst <$> l) ->
  StronglySorted selected_before (fold_right Pd.insert_desc [] l).
Proof.
  induction l as [|x l IH]; intros Hs; [constructor|].
  rewrite fmap_cons in Hs. apply StronglySorted_inv in Hs as [Hs Hx].
  simpl. apply insert_desc_sorted; [now apply IH|].
  apply Forall_forall. intros y Hy. rewrite sort_desc_perm in Hy.
  rewrite Forall_forall in Hx. apply Hx.
  apply list_elem_of_fmap. eauto.
Qed.

Lemma sorted_take_drop {A} (R : A -> A -> Prop) (l : list A) (n : nat)
    (x y : A) :
  StronglySorted R l -> x ∈ take n l -> y ∈ drop n l -> R x y.
Proof.
  intros Hs. revert n. induction Hs as [|a l Hs IH Hall]; intros n Hx Hy.
  - rewrite take_nil in Hx. now apply not_elem_of_nil in Hx.
  - destruct n as [|n]; simpl in *; [now apply not_elem_of_nil in Hx|].
    apply elem_of_cons in Hx as [->|Hx].
    + rewrite Forall_forall in Hall. apply Hall.
      apply (subseteq_drop n l), Hy.
    + now apply (IH n).
Qed.

Lemma filter_pairs_of_rows (G : list ScoreRow) (k : string) :
  snd <$> filter (fun kv : string * Q => kv.1 = k)
                 ((fun sr => (sr_ligand sr, sr_cnn_score sr)) <$> G)
  = sr_cnn_score <$> filter (fun sr => sr_ligand sr = k) G.
Proof.
  induction G as [|sr G IH]; [reflexivity|].
  rewrite fmap_cons, !filter_cons. simpl.
  destruct (decide (sr_ligand sr = k)); simpl; [f_equal|]; exact IH.
Qed.

(** The grouped series of a receptor holds, for each of its ligands, the
    best score of the ligand. *)
Lemma series_ligand_best (df : list ScoreRow) (rec l : string) (v : Q) :
  (l, v) ∈ Pd.groupby_max ((fun sr => (sr_ligand sr, sr_cnn_score sr))
                             <$> of_receptor df rec)
  <-> ligand_best df rec l = Some v.
Proof.
  rewrite groupby_max_elem_of, filter_pairs_of_rows. unfold ligand_best.
  destruct (sr_cnn_score <$> _) as [|s ss]; split.
  - intros (? & ? & ? & _). discriminate.
  - discriminate.
  - intros (s' & ss' & [= <- <-] & ->). reflexivity.
  - intros [= <-]. eauto.
Qed.

Lemma series_keys (df : list ScoreRow) (rec : string) :
  fst <$> Pd.groupby_max ((fun sr => (sr_ligand sr, sr_cnn_score sr))
                            <$> of_receptor df rec)
  = Pd.sort_str (Pd.unique (sr_ligand <$> of_receptor df rec)).
Proof.
  rewrite groupby_max_keys. do 2 f_equal.
  rewrite <- list_fmap_compose. reflexivity.
Qed.

(** C9, as the code has it.  With the cap set to [n], a receptor with at
    most [n] distinct ligands loses none to the cap.  With more, the cap
    keeps the rows whose ligand is among [n] selected ligands: these are
    distinct ligands of the receptor, and each of them has, over all sites
    of the receptor, a larger best score than every ligand left out, or the
    same best score and the earlier ligand id in ascending string order
    (not the earlier place in the catalog).  For seven ligands with
    distinct scores and [n = 2] the two with the highest scores are
    kept. *)
Theorem max_ligands_keeps_top_by_score_then_name
    (n : nat) (results_df : list ScoreRow) (row : Row) :
  let rec := receptor row in
  let ligands := Pd.unique (sr_ligand <$> of_receptor results_df rec) in
  let top := top_ligands n results_df rec in
  (length ligands <= n -> check_max_ligands (Some n) results_df row = true)
  /\ (n < length ligands ->
      check_max_ligands (Some n) results_df row
      = bool_decide (ligand row ∈ top)
      /\ length top = n /\ NoDup top
      /\ (forall l, l ∈ top -> l ∈ ligands)
      /\ (forall l l', l ∈ top -> l' ∈ ligands -> l' ∉ top ->
            exists v v',
              ligand_best results_df rec l = Some v
              /\ ligand_best results_df rec l' = Some v'
              /\ ((v' < v)%Q \/ (v' == v /\ name_before l l'))))
  /\ filter_ligands_for_stage (only_stage_B 0 (Some 2) None) "B"
       (Some seven_results)
       (catalog_of "r" ["l1"; "l2"; "l3"; "l4"; "l5"; "l6"; "l7"])
     = Return (catalog_of "r" ["l2"; "l5"]).
Proof.
  intros rec ligands top.
  split.
  { intros Hle. unfold check_max_ligands. fold rec ligands.
    now rewrite (proj2 (Nat.ltb_ge n (length ligands)) Hle). }
  split; [|vm_compute; reflexivity].
  intros Hlt.
  set (series := Pd.groupby_max ((fun sr => (sr_ligand sr, sr_cnn_score sr))
                                   <$> of_receptor results_df rec)).
  set (sorted := fold_right Pd.insert_desc [] series).
  assert (Hkeys : fst <$> series = Pd.sort_str ligands) by apply series_keys.
  assert (Hnd : NoDup (fst <$> sorted)).
  { unfold sorted. rewrite sort_desc_perm, Hkeys, sort_str_perm.
    apply unique_NoDup. }
  assert (Hsorted : StronglySorted selected_before sorted).
  { apply sort_desc_sorted. rewrite Hkeys.
    apply sorted_strict; [apply sort_str_sorted|].
    rewrite sort_str_perm. apply unique_NoDup. }
  assert (Htop : top = fst <$> take n sorted) by reflexivity.
  assert (Hlen : length sorted = length ligands).
  { unfold sorted. rewrite sort_desc_perm.
    rewrite <- (length_fmap fst series), Hkeys.
    now rewrite sort_str_perm. }
  assert (Hligs : forall l, l ∈ fst <$> sorted <-> l ∈ ligands).
  { intros l. unfold sorted.
    now rewrite sort_desc_perm, Hkeys, sort_str_perm. }
  split.
  { unfold check_max_ligands. fold rec ligands top.
    now rewrite (proj2 (Nat.ltb_lt n (length ligands)) Hlt). }
  split.
  { rewrite Htop, length_fmap, length_take. lia. }
  split.
  { rewrite Htop, fmap_take. apply (sublist_NoDup _ _ Hnd), sublist_take. }
  split.
  { intros l Hl. apply Hligs. rewrite Htop, fmap_take in Hl.
    now apply (subseteq_take n). }
  intros l l' Hl Hl' Hnot.
  rewrite Htop in Hl. apply list_elem_of_fmap in Hl as ([l0 v] & -> & Hl).
  apply Hligs in Hl'. apply list_elem_of_fmap in Hl' as ([l1 v'] & -> & Hl').
  simpl in *.
  assert (Hdrop : (l1, v') ∈ drop n sorted).
  { rewrite <- (take_drop n sorted) in Hl'.
    apply elem_of_app in Hl' as [Hin|Hin]; [|exact Hin].
    exfalso. apply Hnot. rewrite Htop. apply list_elem_of_fmap.
    exists (l1, v'). auto. }
  exists v, v'.
  assert (Hin : forall k w, (k, w) ∈ sorted ->
                            ligand_best results_df rec k = Some w).
  { intros k w Hk. apply series_ligand_best. fold series.
    unfold sorted in Hk. now rewrite sort_desc_perm in Hk. }
  split; [apply Hin; now apply (subseteq_take n)|].
  split; [apply Hin; now apply (subseteq_drop n)|].
  apply (sorted_take_drop _ _ _ _ _ Hsorted Hl Hdrop).
Qed.

Lemma max_ligands_keeps_top_by_score_then_name_witness :
  check_max_ligands (Some 1) (successful_results tied_results)
                    (row_of "r" "site_1" "a")
  = bool_decide ("a" ∈ top_ligands 1 (successful_results tied_results) "r")
  /\ length (top_ligands 1 (successful_results tied_results) "r") = 1.
Proof.
  destruct (max_ligands_keeps_top_by_score_then_name 1
              (successful_results tied_results) (row_of "r" "site_1" "a"))
    as (_ & Hmore & _).
  destruct Hmore as (Hcheck & Hlen & _); [vm_compute; lia|].
  split; [exact Hcheck | exact Hlen].
Defined.

(** C9 as stated fails: [b] and [a] have the same best score and [b] comes
    first in the catalog, and the cap of one keeps [a]. *)
Lemma cap_ties_not_in_catalog_order :
  let df := successful_results tied_results in
  let catalog := catalog_of "r" ["b"; "a"; "c"] in
  spec_top_ligands 1 df catalog "r" = ["b"]
  /\ top_ligands 1 df "r" = ["a"]
  /\ filter_ligands_for_stage (only_stage_B 0 (Some 1) None) "B"
       (Some tied_results) catalog
     = Return (catalog_of "r" ["a"]).
Proof. cbv zeta. repeat split; vm_compute; reflexivity. Qed.

(* ================================================================== *)
(** ** Properties: the batch scheduler *)
(* ================================================================== *)

Section SchedulerFacts.
Context {rt : Runtime}.

(** What [run_single_docking] does with one row: nothing when the pair id
    is in the ledger, else one child process and one result. *)
Lemma run_single_docking_spec (cfg : Config) (C : gset string) (row : Row)
    (flex : option (list string)) (w : World) :
  (pair_id row ∈ C /\ run_single_docking cfg C row flex w = (None, w))
  \/ ((pair_id row ∉ C)
      /\ exists r w',
           run_single_docking cfg C row flex w = (Some r, w')
           /\ r_pair_id r = pair_id row
           /\ (r_receptor r, r_site_id r, r_ligand r) = key row
           /\ length (launched w') = S (length (launched w))).
Proof.
  unfold run_single_docking.
  destruct (decide (pair_id row ∈ C)) as [Hin|Hout].
  - left. rewrite bool_decide_true by exact Hin. auto.
  - right. split; [exact Hout|]. rewrite bool_decide_false by exact Hout.
    destruct (build_gnina_command cfg row flex) as [[cmd out] log].
    destruct (subprocess_run cmd (timeout cfg) (fs w)) as [po d'].
    assert (Hlen : length (launched w ++ [cmd]) = S (length (launched w)))
      by (rewrite length_app; simpl; lia).
    destruct po as [rc err| |msg].
    + destruct ((rc =? 0)%Z && path_exists d' out).
      * destruct (parse_gnina_output d' out log);
          eexists _, _; (split; [reflexivity|]); auto.
      * eexists _, _; (split; [reflexivity|]); auto.
    + eexists _, _; (split; [reflexivity|]); auto.
    + eexists _, _; (split; [reflexivity|]); auto.
Qed.

Lemma process_row_spec (cfg : Config) (C : gset string)
    (fd : option (gmap string (list string))) (b : nat) (row : Row)
    (acc : list Result) (w : World) :
  (pair_id row ∈ C /\ process_row cfg C fd b row acc w = (acc, w))
  \/ ((pair_id row ∉ C)
      /\ exists r w',
           process_row cfg C fd b row acc w = (acc ++ [r], w')
           /\ r_pair_id r = pair_id row
           /\ (r_receptor r, r_site_id r, r_ligand r) = key row
           /\ batch_idx r = Some b
           /\ length (launched w') = S (length (launched w))).
Proof.
  unfold process_row.
  set (flex := match fd with Some d => d !! receptor row | None => None end).
  destruct (run_single_docking_spec cfg C row flex w)
    as [[Hin ->] | (Hout & r & w' & -> & Hid & Hkey & Hlen)].
  - left. auto.
  - right. split; [exact Hout|]. eexists _, w'. split; [reflexivity|]. auto.
Qed.

End SchedulerFacts.

Lemma collect_order_snoc (s : list Event) (ev : Event) :
  collect_order (s ++ [ev])
  = collect_order s ++ match ev with Collect b => [b] | _ => [] end.
Proof.
  unfold collect_order. rewrite omap_app. f_equal. now destruct ev.
Qed.

Lemma sum_list_with_insert {A} (f : A -> nat) (l : list A) (i : nat) (x y : A) :
  l !! i = Some x ->
  sum_list_with f (<[i := y]> l) + f x = sum_list_with f l + f y.
Proof.
  revert i. induction l as [|a l IH]; intros [|i] H; simpl in *;
    try discriminate.
  - injection H as ->. lia.
  - specialize (IH i H). lia.
Qed.

Lemma flat_map_ext_in {A B} (f g : A -> list B) (l : list A) :
  (forall x, x ∈ l -> f x = g x) -> flat_map f l = flat_map g l.
Proof.
  induction l as [|a l IH]; intros H; simpl; [reflexivity|].
  rewrite H by left. f_equal. apply IH. intros x Hx. apply H. now right.
Qed.

Lemma elem_of_flat_map {A B} (f : A -> list B) (l : list A) (y : B) :
  y ∈ flat_map f l <-> exists x, x ∈ l /\ y ∈ f x.
Proof.
  rewrite list_elem_of_In, in_flat_map. split; intros (x & Hx & Hy); exists x.
  - now rewrite !list_elem_of_In.
  - now rewrite <- !list_elem_of_In.
Qed.

(** Rows of two different batches of a catalog without duplicate pair ids
    have different pair ids. *)
Lemma batches_disjoint {A B} (f : A -> B) (bs : list (list A)) (b b' : nat)
    (l l' : list A) (x x' : A) :
  NoDup (f <$> concat bs) -> b <> b' ->
  bs !! b = Some l -> bs !! b' = Some l' -> x ∈ l -> x' ∈ l' ->
  f x <> f x'.
Proof.
  revert b b'. induction bs as [|l0 bs IH]; intros b b' Hnd Hne Hb Hb' Hx Hx';
    [discriminate|].
  simpl in Hnd. rewrite fmap_app in Hnd.
  apply NoDup_app in Hnd as (_ & Hdis & Hnd).
  assert (Hin : forall i li y, bs !! i = Some li -> y ∈ li ->
                               f y ∈ f <$> concat bs).
  { intros i li y Hi Hy. apply list_elem_of_fmap. exists y. split; [reflexivity|].
    apply list_elem_of_In, in_concat. exists li.
    split; apply list_elem_of_In; [|exact Hy].
    eapply list_elem_of_lookup_2, Hi. }
  destruct b as [|b], b' as [|b']; simpl in *.
  - now destruct Hne.
  - injection Hb as <-. intros Heq.
    apply (Hdis (f x)); [apply list_elem_of_fmap; eauto|].
    rewrite Heq. eapply Hin; eauto.
  - injection Hb' as <-. intros Heq.
    apply (Hdis (f x')); [apply list_elem_of_fmap; eauto|].
    rewrite <- Heq. eapply Hin; eauto.
  - apply (IH b b'); auto.
Qed.

Lemma pending_ids_snoc (C : gset string) (l : list Row) (x : Row) :
  pending_ids C (l ++ [x])
  = pending_ids C l ++ if decide (pair_id x ∈ C) then [] else [pair_id x].
Proof.
  unfold pending_ids. rewrite fmap_app, filter_app. f_equal.
  simpl. rewrite filter_cons, filter_nil.
  destruct (decide (pair_id x ∈ C)) as [Hin|Hout].
  - rewrite decide_False; [reflexivity | now intros H; apply H].
  - now rewrite decide_True.
Qed.

Lemma insert_keeps_flag (js : list Job) (b : nat) (j J : Job) :
  js !! b = Some j -> collected J = collected j ->
  forall b0, (exists j0, <[b := J]> js !! b0 = Some j0 /\ collected j0 = true)
             <-> (exists j0, js !! b0 = Some j0 /\ collected j0 = true).
Proof.
  intros Hj Hflag b0. destruct (decide (b0 = b)) as [->|Hne].
  - rewrite list_lookup_insert_eq by (eapply lookup_lt_Some, Hj).
    rewrite Hj.
    split; intros (j0 & Heq & Hc); injection Heq as Heq; subst j0;
      eexists; (split; [reflexivity|]); congruence.
  - now rewrite list_lookup_insert_ne by congruence.
Qed.

(** Case analysis on a lookup [Hj0] in the jobs updated at [b], where [Hj]
    is the lookup of the job that stood there. *)
Ltac insert_cases b0 b Hj Hj0 :=
  destruct (decide (b0 = b)) as [->|?];
  [ rewrite list_lookup_insert_eq in Hj0 by (eapply lookup_lt_Some, Hj)
  | rewrite list_lookup_insert_ne in Hj0 by congruence ].

Section PoolInvariant.
Context {rt : Runtime}.
Variables (e : Engine) (fd : option (gmap string (list string))).
Variables (bs : list (list Row)) (C0 : gset string) (n0 : nat).
Hypothesis Hnd : NoDup (pair_id <$> concat bs).

(** While a row waits in a batch, its pair id is in the ledger only if it
    was there at the start: what the run adds are ids of collected
    batches. *)
Lemma waiting_row_ledger (s : list Event) (p : Pool) (b : nat) (j : Job)
    (row : Row) (rest : list Row) :
  pool_inv bs C0 n0 s p -> jobs p !! b = Some j -> todo j = row :: rest ->
  pair_id row ∈ p_completed p <-> pair_id row ∈ C0.
Proof.
  intros Hinv Hj Htodo. split; [|apply (inv_ledger_lo Hinv)].
  intros Hin.
  destruct (inv_ledger_hi Hinv _ Hin) as [|(r & Hr & _ & Hid)];
    [assumption|].
  exfalso. rewrite (inv_all Hinv) in Hr.
  apply elem_of_flat_map in Hr as (b' & Hb' & Hr).
  apply (inv_order_in Hinv) in Hb' as (j' & Hj' & Hc').
  unfold pool_results in Hr. rewrite Hj' in Hr.
  destruct (inv_job Hinv b j Hj) as (done & Hbs & _).
  destruct (inv_job Hinv b' j' Hj') as (done' & Hbs' & Hids').
  assert (Hne : b <> b').
  { intros ->. rewrite Hj in Hj'. injection Hj' as <-.
    apply (inv_collected Hinv) in Hj; [|exact Hc']. congruence. }
  assert (Hpid : r_pair_id r ∈ r_pair_id <$> batch_results j')
    by (apply list_elem_of_fmap; eauto).
  rewrite Hids' in Hpid. unfold pending_ids in Hpid.
  apply list_elem_of_filter in Hpid as [_ Hpid].
  apply list_elem_of_fmap in Hpid as (row' & Hrow' & Hin').
  rewrite Htodo in Hbs.
  apply (batches_disjoint pair_id bs b b' _ _ row row' Hnd Hne Hbs Hbs').
  - apply elem_of_app. right. left.
  - apply elem_of_app. now left.
  - congruence.
Qed.

Lemma work_preserves (s : list Event) (b : nat) (p p' : Pool) :
  pool_inv bs C0 n0 s p -> step e fd (Work b) p = Some p' ->
  pool_inv bs C0 n0 (s ++ [Work b]) p'.
Proof.
  intros Hinv Hstep. simpl in Hstep.
  destruct (jobs p !! b) as [j|] eqn:Hj; [|discriminate].
  destruct (todo j) as [|row rest] eqn:Htodo; [discriminate|].
  destruct (has_worker (max_workers e) (jobs p) b); [|discriminate].
  destruct (process_row (config e) (p_completed p) fd b row
                        (batch_results j) (p_world p)) as [acc w'] eqn:Hproc.
  injection Hstep as <-.
  assert (Hskip := waiting_row_ledger s p b j row rest Hinv Hj Htodo).
  assert (Hnc : collected j = false).
  { destruct (collected j) eqn:E; [|reflexivity].
    apply (inv_collected Hinv) in Hj; [|exact E]. congruence. }
  destruct (inv_job Hinv b j Hj) as (done & Hbs & Hids).
  rewrite Htodo in Hbs.
  assert (Hfacts :
            r_pair_id <$> acc = pending_ids C0 (done ++ [row])
            /\ length (launched w') + length (batch_results j)
               = length (launched (p_world p)) + length acc).
  { rewrite pending_ids_snoc.
    destruct (process_row_spec (config e) (p_completed p) fd b row
                (batch_results j) (p_world p))
      as [[Hin Heq] | (Hout & r & w'' & Heq & Hid & _ & _ & Hlen)];
      rewrite Heq in Hproc; injection Hproc as <- <-.
    - rewrite decide_True by now apply Hskip.
      rewrite app_nil_r. split; [exact Hids | lia].
    - rewrite decide_False by (intros H; now apply Hout, Hskip).
      rewrite fmap_app, Hids, length_app. simpl. rewrite Hid.
      split; [reflexivity | lia]. }
  destruct Hfacts as [Hacc Hcount].
  assert (Hflag := insert_keeps_flag (jobs p) b j (mkJob rest acc false) Hj
                     (eq_sym Hnc)).
  assert (Horder : collect_order (s ++ [Work b]) = collect_order s)
    by (rewrite collect_order_snoc; apply app_nil_r).
  constructor; rewrite ?Horder;
    cbn [jobs p_completed p_world all_results tallying].
  - rewrite length_insert. apply (inv_len Hinv).
  - intros b0 j0 Hj0. insert_cases b0 b Hj Hj0.
    + injection Hj0 as <-. exists (done ++ [row]). simpl.
      split; [now rewrite <- app_assoc | exact Hacc].
    + now apply (inv_job Hinv).
  - intros b0 j0 Hj0 Hc. insert_cases b0 b Hj Hj0.
    + injection Hj0 as <-. discriminate.
    + now apply (inv_collected Hinv b0).
  - apply (inv_ledger_lo Hinv).
  - apply (inv_ledger_hi Hinv).
  - apply (inv_tally Hinv).
  - rewrite (inv_all Hinv). apply flat_map_ext_in.
    intros b0 Hb0. unfold pool_results. cbn [jobs].
    rewrite list_lookup_insert_ne; [reflexivity|].
    intros <-. apply (inv_order_in Hinv) in Hb0 as (j0 & Hj0 & Hc).
    congruence.
  - apply (inv_order Hinv).
  - intros b0. rewrite (inv_order_in Hinv). symmetry. apply Hflag.
  - assert (Hsum := sum_list_with_insert
                      (fun j => length (batch_results j)) (jobs p) b j
                      (mkJob rest acc false) Hj).
    assert (Hl := inv_launched Hinv). simpl in Hsum. lia.
Qed.

Lemma collect_preserves (s : list Event) (b : nat) (p p' : Pool) :
  pool_inv bs C0 n0 s p -> step e fd (Collect b) p = Some p' ->
  pool_inv bs C0 n0 (s ++ [Collect b]) p'.
Proof.
  intros Hinv Hstep. simpl in Hstep.
  destruct (tallying p) eqn:Ht; [discriminate|].
  destruct (jobs p !! b) as [j|] eqn:Hj; [|discriminate].
  destruct (unfinished j) eqn:Hu; [discriminate|].
  destruct (collected j) eqn:Hc; [discriminate|].
  injection Hstep as <-.
  assert (Htodo : todo j = []).
  { unfold unfinished in Hu. now destruct (todo j). }
  assert (Horder : collect_order (s ++ [Collect b]) = collect_order s ++ [b])
    by apply collect_order_snoc.
  assert (Hnotin : b ∉ collect_order s).
  { intros Hin. apply (inv_order_in Hinv) in Hin as (j0 & Hj0 & Hc0).
    congruence. }
  assert (Hres : forall b0,
             pool_results
               {| p_completed := p_completed p; p_world := p_world p;
                  jobs := <[b := mkJob [] (batch_results j) true]> (jobs p);
                  all_results := all_results p ++ batch_results j;
                  successful := successful p; failed := failed p;
                  tallying := Some (batch_results j) |} b0
             = pool_results p b0).
  { intros b0. unfold pool_results. cbn [jobs].
    destruct (decide (b0 = b)) as [->|Hne].
    - rewrite list_lookup_insert_eq by (eapply lookup_lt_Some, Hj).
      now rewrite Hj.
    - now rewrite list_lookup_insert_ne by congruence. }
  constructor; rewrite ?Horder;
    cbn [jobs p_completed p_world all_results tallying].
  - rewrite length_insert. apply (inv_len Hinv).
  - intros b0 j0 Hj0. insert_cases b0 b Hj Hj0.
    + injection Hj0 as <-.
      destruct (inv_job Hinv b j Hj) as (done & Hbs & Hids).
      exists done. simpl. rewrite Htodo in Hbs. auto.
    + now apply (inv_job Hinv).
  - intros b0 j0 Hj0 Hc0. insert_cases b0 b Hj Hj0.
    + now injection Hj0 as <-.
    + now apply (inv_collected Hinv b0).
  - apply (inv_ledger_lo Hinv).
  - intros k Hk.
    destruct (inv_ledger_hi Hinv k Hk) as [|(r & Hr & Hs & Hid)];
      [now left|].
    right. exists r. split; [|auto]. apply elem_of_app. now left.
  - intros rs r [= <-] Hr. apply elem_of_app. now right.
  - rewrite flat_map_app. simpl. rewrite app_nil_r, Hres.
    unfold pool_results at 2. rewrite Hj. f_equal.
    rewrite (inv_all Hinv). apply flat_map_ext_in.
    intros b0 _. symmetry. apply Hres.
  - apply NoDup_app. split; [apply (inv_order Hinv)|].
    split; [|apply NoDup_singleton].
    intros b0 Hb0 Hb. apply list_elem_of_singleton in Hb. now subst b0.
  - intros b0. rewrite elem_of_app, list_elem_of_singleton.
    rewrite (inv_order_in Hinv).
    destruct (decide (b0 = b)) as [->|Hne].
    + rewrite list_lookup_insert_eq by (eapply lookup_lt_Some, Hj).
      split; [eauto | now right].
    + rewrite list_lookup_insert_ne by congruence. intuition.
  - assert (Hsum := sum_list_with_insert
                      (fun j => length (batch_results j)) (jobs p) b j
                      (mkJob [] (batch_results j) true) Hj).
    assert (Hl := inv_launched Hinv). simpl in Hsum. lia.
Qed.

Lemma tally_preserves (s : list Event) (p p' : Pool) :
  pool_inv bs C0 n0 s p -> step e fd Tally p = Some p' ->
  pool_inv bs C0 n0 (s ++ [Tally]) p'.
Proof.
  intros Hinv Hstep. simpl in Hstep.
  destruct (tallying p) as [[|r rs]|] eqn:Ht; try discriminate.
  assert (Horder : collect_order (s ++ [Tally]) = collect_order s)
    by (rewrite collect_order_snoc; apply app_nil_r).
  assert (Hr : r ∈ all_results p).
  { apply (inv_tally Hinv (r :: rs)); [exact Ht | left]. }
  assert (Hrs : forall rs' r', Some rs = Some rs' -> r' ∈ rs' ->
                               r' ∈ all_results p).
  { intros rs' r' [= <-] Hr'.
    apply (inv_tally Hinv (r :: rs)); [exact Ht | now right]. }
  destruct Hinv as [H1 H2 H3 H4 H5 H6 H7 H8 H9 H10].
  destruct (status r) eqn:Hs; injection Hstep as <-;
    constructor; rewrite ?Horder;
    cbn [jobs p_completed p_world all_results tallying]; try assumption.
  - etransitivity; [exact H4|]. apply union_subseteq_l.
  - intros k Hk. apply elem_of_union in Hk as [Hk|Hk]; [now apply H5|].
    apply elem_of_singleton in Hk. subst k. right. eauto.
Qed.

Lemma save_preserves (s : list Event) (ts : string) (p p' : Pool) :
  pool_inv bs C0 n0 s p -> step e fd (Save ts) p = Some p' ->
  pool_inv bs C0 n0 (s ++ [Save ts]) p'.
Proof.
  intros Hinv Hstep. simpl in Hstep.
  destruct (tallying p) as [[|r rs]|] eqn:Ht; try discriminate.
  injection Hstep as <-.
  assert (Horder : collect_order (s ++ [Save ts]) = collect_order s)
    by (rewrite collect_order_snoc; apply app_nil_r).
  destruct Hinv as [H1 H2 H3 H4 H5 H6 H7 H8 H9 H10].
  constructor; rewrite ?Horder;
    cbn [jobs p_completed p_world all_results tallying launched];
    try assumption.
  intros rs r. discriminate.
Qed.

Lemma step_preserves (s : list Event) (ev : Event) (p p' : Pool) :
  pool_inv bs C0 n0 s p -> step e fd ev p = Some p' ->
  pool_inv bs C0 n0 (s ++ [ev]) p'.
Proof.
  destruct ev.
  - apply work_preserves.
  - apply collect_preserves.
  - apply tally_preserves.
  - apply save_preserves.
Qed.

Lemma run_schedule_app (s1 s2 : list Event) (p : Pool) :
  run_schedule e fd (s1 ++ s2) p
  = run_schedule e fd s1 p ≫= run_schedule e fd s2.
Proof.
  revert p. induction s1 as [|ev s1 IH]; intros p; simpl; [reflexivity|].
  destruct (step e fd ev p); [apply IH | reflexivity].
Qed.

(** The invariant holds along every schedule. *)
Lemma run_schedule_inv (sched : list Event) (p0 p : Pool) :
  pool_inv bs C0 n0 [] p0 -> run_schedule e fd sched p0 = Some p ->
  pool_inv bs C0 n0 sched p.
Proof.
  intros H0. revert p. induction sched as [|ev s IH] using rev_ind; intros p.
  - simpl. now intros [= <-].
  - rewrite run_schedule_app.
    destruct (run_schedule e fd s p0) as [p1|]; [|discriminate]. simpl.
    destruct (step e fd ev p1) as [p2|] eqn:Hstep; [|discriminate].
    intros [= <-]. eapply step_preserves; [now apply IH | exact Hstep].
Qed.

End PoolInvariant.

Lemma chunks_from_concat {A} (fuel n : nat) (l : list A) :
  0 < n -> length l <= fuel -> concat (chunks_from fuel n l) = l.
Proof.
  intros Hn. revert l. induction fuel as [|f IH]; intros l Hl.
  - destruct l; [reflexivity | simpl in Hl; lia].
  - destruct l as [|x l]; [reflexivity|].
    change (chunks_from (S f) n (x :: l))
      with (take n (x :: l) :: chunks_from f n (drop n (x :: l))).
    simpl concat. rewrite IH; [apply take_drop|].
    rewrite length_drop. simpl in *. lia.
Qed.

Lemma chunks_concat {A} (n : nat) (l : list A) :
  0 < n -> concat (chunks n l) = l.
Proof. intros Hn. now apply chunks_from_concat. Qed.

Lemma pending_ids_app (C : gset string) (l1 l2 : list Row) :
  pending_ids C (l1 ++ l2) = pending_ids C l1 ++ pending_ids C l2.
Proof. unfold pending_ids. now rewrite fmap_app, filter_app. Qed.

Lemma pending_ids_concat (C : gset string) (bs : list (list Row)) :
  pending_ids C (concat bs) = flat_map (pending_ids C) bs.
Proof.
  induction bs as [|l bs IH]; [reflexivity|].
  simpl. now rewrite pending_ids_app, IH.
Qed.

Lemma flat_map_fmap {A B C} (f : A -> B) (g : B -> list C) (l : list A) :
  flat_map g (f <$> l) = flat_map (fun x => g (f x)) l.
Proof.
  induction l as [|x l IH]; [reflexivity|].
  rewrite fmap_cons.
  change (g (f x) ++ flat_map g (f <$> l)
          = g (f x) ++ flat_map (fun x => g (f x)) l).
  now rewrite IH.
Qed.

Lemma fmap_flat_map {A B C} (f : B -> C) (g : A -> list B) (l : list A) :
  f <$> flat_map g l = flat_map (fun x => f <$> g x) l.
Proof.
  induction l as [|x l IH]; [reflexivity|].
  change (f <$> (g x ++ flat_map g l)
          = (f <$> g x) ++ flat_map (fun x => f <$> g x) l).
  now rewrite fmap_app, IH.
Qed.

(** Going through the batches by index is going through the batches. *)
Lemma flat_map_by_index {A B} (g : list A -> list B) (bs : list (list A)) :
  flat_map (fun b => g (default [] (bs !! b))) (seq 0 (length bs))
  = flat_map g bs.
Proof.
  induction bs as [|l bs IH]; [reflexivity|].
  simpl. f_equal. rewrite <- fmap_S_seq, flat_map_fmap. exact IH.
Qed.

Lemma initial_pool_inv (e : Engine) (w : World) (pairlist_df : list Row)
    (n : nat) :
  pool_inv (chunks n pairlist_df) (startup_ledger e w) (length (launched w)) []
           (initial_pool e w pairlist_df n).
Proof.
  unfold initial_pool. constructor; cbn [jobs p_completed p_world all_results
                                        tallying collect_order omap list_omap].
  - apply length_fmap.
  - intros b j Hj. rewrite list_lookup_fmap in Hj.
    destruct (chunks n pairlist_df !! b) as [rows|] eqn:E; [|discriminate].
    injection Hj as <-. exists []. auto.
  - intros b j Hj. rewrite list_lookup_fmap in Hj.
    destruct (chunks n pairlist_df !! b); [|discriminate].
    now injection Hj as <-.
  - reflexivity.
  - intros k Hk. now left.
  - discriminate.
  - reflexivity.
  - constructor.
  - intros b. split; [intros H; now apply not_elem_of_nil in H|].
    intros (j & Hj & Hc). rewrite list_lookup_fmap in Hj.
    destruct (chunks n pairlist_df !! b); [|discriminate].
    injection Hj as <-. discriminate.
  - assert (Hzero : sum_list_with (fun j => length (batch_results j))
                      ((fun rows => mkJob rows [] false)
                         <$> chunks n pairlist_df) = 0).
    { induction (chunks n pairlist_df) as [|l bs IH]; [reflexivity|].
      rewrite fmap_cons. simpl. exact IH. }
    rewrite Hzero. lia.
Qed.

Section LedgerInvariant.
Context {rt : Runtime}.
Variables (e : Engine) (fd : option (gmap string (list string))).
Variable C0 : gset string.

Lemma step_ledger_inv (ev : Event) (p p' : Pool) :
  ledger_inv C0 p -> step e fd ev p = Some p' -> ledger_inv C0 p'.
Proof.
  intros [Hled Htal] Hstep. destruct ev as [b|b| |ts]; simpl in Hstep.
  - destruct (jobs p !! b) as [j|]; [|discriminate].
    destruct (todo j) as [|row rest]; [discriminate|].
    destruct (has_worker _ _ _); [|discriminate].
    destruct (process_row _ _ _ _ _ _ _) as [acc w'].
    injection Hstep as <-. now constructor.
  - destruct (tallying p); [discriminate|].
    destruct (jobs p !! b) as [j|]; [|discriminate].
    destruct (negb (unfinished j) && negb (collected j)); [|discriminate].
    injection Hstep as <-.
    constructor; cbn [p_completed all_results tallying].
    + intros k Hk. destruct (Hled k Hk) as [|(r & Hr & Hs & Hid)]; [now left|].
      right. exists r. split; [|auto]. apply elem_of_app. now left.
    + intros rs r [= <-] Hr. apply elem_of_app. now right.
  - destruct (tallying p) as [[|r rs]|] eqn:Ht; try discriminate.
    assert (Hr : r ∈ all_results p) by (apply (Htal (r :: rs)); [easy | left]).
    assert (Hrs : forall rs' r', Some rs = Some rs' -> r' ∈ rs' ->
                                 r' ∈ all_results p).
    { intros rs' r' [= <-] Hr'. apply (Htal (r :: rs)); [easy | now right]. }
    destruct (status r) eqn:Hs; injection Hstep as <-;
      constructor; cbn [p_completed all_results tallying]; try assumption.
    intros k Hk. apply elem_of_union in Hk as [Hk|Hk]; [now apply Hled|].
    apply elem_of_singleton in Hk. subst k. right. eauto.
  - destruct (tallying p) as [[|r rs]|]; try discriminate.
    injection Hstep as <-.
    constructor; cbn [p_completed all_results tallying];
      [assumption | discriminate].
Qed.

Lemma run_schedule_ledger_inv (sched : list Event) :
  forall p p', ledger_inv C0 p -> run_schedule e fd sched p = Some p' ->
               ledger_inv C0 p'.
Proof.
  induction sched as [|ev sched IH]; intros p p' Hinv; simpl.
  - now intros [= <-].
  - destruct (step e fd ev p) as [p1|] eqn:Hstep; [|discriminate].
    apply IH. eapply step_ledger_inv; eauto.
Qed.

End LedgerInvariant.

Lemma initial_pool_ledger_inv (e : Engine) (w : World)
    (pairlist_df : list Row) (n : nat) :
  ledger_inv (startup_ledger e w) (initial_pool e w pairlist_df n).
Proof.
  constructor; cbn [initial_pool p_completed all_results tallying].
  - intros k Hk. now left.
  - discriminate.
Qed.

Section FinalPool.
Variables (bs : list (list Row)) (C0 : gset string) (n0 : nat).
Variables (sched : list Event) (p : Pool).
Hypothesis Hinv : pool_inv bs C0 n0 sched p.
Hypothesis Hdone : pool_done p = true.

Lemma done_jobs (b : nat) (j : Job) :
  jobs p !! b = Some j -> todo j = [] /\ collected j = true.
Proof.
  intros Hj. unfold pool_done in Hdone.
  apply andb_true_iff in Hdone as [Hall _].
  rewrite forallb_forall in Hall.
  specialize (Hall j). rewrite <- list_elem_of_In in Hall.
  specialize (Hall (list_elem_of_lookup_2 _ _ _ Hj)).
  apply andb_true_iff in Hall as [Hu Hc]. split; [|exact Hc].
  unfold unfinished in Hu. now destruct (todo j).
Qed.

(** Every batch is collected once. *)
Lemma collect_order_perm : collect_order sched ≡ₚ seq 0 (length bs).
Proof.
  apply NoDup_Permutation;
    [apply (inv_order Hinv) | apply NoDup_seq|].
  intros b. rewrite (inv_order_in Hinv), elem_of_seq.
  rewrite <- (inv_len Hinv). split.
  - intros (j & Hj & _). apply lookup_lt_Some in Hj. lia.
  - intros [_ Hb]. destruct (lookup_lt_is_Some_2 (jobs p) b Hb) as [j Hj].
    exists j. split; [exact Hj | now apply (done_jobs b)].
Qed.

Lemma pool_results_ids (b : nat) :
  r_pair_id <$> pool_results p b = batch_pending C0 bs b.
Proof.
  unfold pool_results, batch_pending.
  destruct (jobs p !! b) as [j|] eqn:Hj.
  - destruct (inv_job Hinv b j Hj) as (done & Hbs & Hids).
    destruct (done_jobs b j Hj) as [Htodo _].
    rewrite Htodo, app_nil_r in Hbs. now rewrite Hbs.
  - apply lookup_ge_None in Hj. rewrite (inv_len Hinv) in Hj.
    apply lookup_ge_None in Hj. now rewrite Hj.
Qed.

(** The pair ids of the results: batch after batch in collection order,
    each batch in catalog order without the rows of the startup ledger. *)
Lemma all_results_ids :
  r_pair_id <$> all_results p
  = flat_map (batch_pending C0 bs) (collect_order sched).
Proof.
  rewrite (inv_all Hinv), fmap_flat_map.
  apply flat_map_ext_in. intros b _. apply pool_results_ids.
Qed.

Lemma all_results_ids_perm :
  r_pair_id <$> all_results p ≡ₚ pending_ids C0 (concat bs).
Proof.
  rewrite all_results_ids, collect_order_perm.
  unfold batch_pending. now rewrite flat_map_by_index, pending_ids_concat.
Qed.

(** One child process per result. *)
Lemma launched_count :
  length (launched (p_world p)) = n0 + length (all_results p).
Proof.
  rewrite (inv_launched Hinv). f_equal.
  rewrite (inv_all Hinv).
  transitivity (length (flat_map (pool_results p) (seq 0 (length (jobs p))))).
  - clear. unfold pool_results.
    induction (jobs p) as [|j js IH]; [reflexivity|].
    simpl. rewrite length_app, <- fmap_S_seq, flat_map_fmap. simpl. now f_equal.
  - apply Permutation_length, Permutation_flat_map. symmetry.
    rewrite (inv_len Hinv). apply collect_order_perm.
Qed.

End FinalPool.

(** *** A schedule that completes *)

Lemma insert_middle {A} (l1 l2 : list A) (x y : A) :
  <[length l1 := y]> (l1 ++ x :: l2) = l1 ++ y :: l2.
Proof. rewrite insert_app_r_alt by lia. now rewrite Nat.sub_diag. Qed.

Section Sequential.
Context {rt : Runtime}.
Variables (e : Engine) (fd : option (gmap string (list string))).
Hypothesis Hworkers : 0 < max_workers e.

Lemma run_schedule_prefix (s1 s2 : list Event) (p p1 : Pool) :
  run_schedule e fd s1 p = Some p1 ->
  run_schedule e fd (s1 ++ s2) p = run_schedule e fd s2 p1.
Proof. intros H. now rewrite run_schedule_app, H. Qed.

Lemma run_schedule_step (ev : Event) (s : list Event) (p p1 : Pool) :
  step e fd ev p = Some p1 ->
  run_schedule e fd ([ev] ++ s) p = run_schedule e fd s p1.
Proof.
  intros H. change ([ev] ++ s) with (ev :: s). cbn [run_schedule].
  now rewrite H.
Qed.

(** A worker can take the first unfinished batch through all its rows;
    left alone, it computes [_process_batch]. *)
Lemma work_loop (rows : list Row) :
  forall (acc : list Result) (p : Pool) (done rest : list Job),
    jobs p = done ++ mkJob rows acc false :: rest ->
    Forall (fun j => unfinished j = false) done ->
    exists p' acc',
      run_schedule e fd (replicate (length rows) (Work (length done))) p
      = Some p'
      /\ jobs p' = done ++ mkJob [] acc' false :: rest
      /\ tallying p' = tallying p
      /\ p_completed p' = p_completed p
      /\ (acc', p_world p')
         = _process_batch (config e) (p_completed p) fd (length done) rows
                          acc (p_world p).
Proof.
  induction rows as [|row rows IH]; intros acc p done rest Hjobs Hdone.
  - exists p, acc. auto.
  - cbn [length replicate run_schedule step].
    rewrite Hjobs, (list_lookup_middle done rest _ _ eq_refl).
    cbn [todo batch_results].
    assert (Hw : has_worker (max_workers e)
                   (done ++ mkJob (row :: rows) acc false :: rest)
                   (length done) = true).
    { unfold has_worker. rewrite take_app_length.
      replace (filter (fun j => unfinished j = true) done) with (@nil Job).
      - now apply Nat.ltb_lt.
      - symmetry. clear -Hdone.
        induction Hdone as [|j l Hj _ IHd]; [reflexivity|].
        rewrite filter_cons, decide_False by congruence. exact IHd. }
    rewrite Hw.
    cbn [_process_batch].
    destruct (process_row (config e) (p_completed p) fd (length done) row
                          acc (p_world p)) as [acc1 w1].
    rewrite insert_middle.
    match goal with
    | |- context [run_schedule _ _ _ ?q] =>
        destruct (IH acc1 q done rest eq_refl Hdone)
          as (p' & acc' & Hrun & Hj & Ht & Hc & Hb)
    end.
    exists p', acc'. auto.
Qed.

(** The main thread can count a collected batch to its end. *)
Lemma tally_loop (rs : list Result) :
  forall p, tallying p = Some rs ->
            exists p', run_schedule e fd (replicate (length rs) Tally) p = Some p'
                       /\ jobs p' = jobs p /\ tallying p' = Some [].
Proof.
  induction rs as [|r rs IH]; intros p Ht.
  - exists p. auto.
  - cbn [length replicate run_schedule step]. rewrite Ht.
    destruct (status r);
      match goal with
      | |- context [run_schedule _ _ _ ?q] =>
          destruct (IH q eq_refl) as (p' & Hrun & Hj & Ht')
      end; exists p'; auto.
Qed.

(** From a pool whose first batches are finished and collected and whose
    other batches are untouched by the main thread, the run can be brought
    to its end, one batch after the other. *)
Lemma sequential_completion (fresh : list Job) :
  forall (p : Pool) (done : list Job),
    jobs p = done ++ fresh ->
    Forall (fun j => unfinished j = false /\ collected j = true) done ->
    Forall (fun j => collected j = false) fresh ->
    tallying p = None ->
    exists sched p',
      run_schedule e fd sched p = Some p' /\ pool_done p' = true.
Proof.
  induction fresh as [|j fresh IH]; intros p done Hjobs Hdone Hfresh Ht.
  - exists [], p. split; [reflexivity|]. unfold pool_done.
    rewrite Ht, Hjobs, app_nil_r, andb_true_r.
    apply forallb_forall. intros j Hj.
    rewrite Forall_forall in Hdone. apply list_elem_of_In, Hdone in Hj.
    destruct Hj as [-> ->]. reflexivity.
  - apply Forall_cons in Hfresh as [Hc Hfresh].
    destruct j as [rows acc c]. simpl in Hc. subst c.
    destruct (work_loop rows acc p done fresh Hjobs)
      as (p1 & acc1 & Hrun1 & Hj1 & Ht1 & _).
    { eapply Forall_impl; [exact Hdone|]. now intros j [Hu _]. }
    rewrite Ht in Ht1.
    set (b := length done) in *.
    destruct (step e fd (Collect b) p1) as [p2|] eqn:Hstep2.
    2:{ exfalso. simpl in Hstep2. rewrite Ht1, Hj1 in Hstep2.
        unfold b in Hstep2.
        rewrite (list_lookup_middle done fresh _ _ eq_refl) in Hstep2.
        discriminate. }
    assert (Hp2 : jobs p2 = done ++ mkJob [] acc1 true :: fresh
                  /\ tallying p2 = Some acc1).
    { simpl in Hstep2. rewrite Ht1, Hj1 in Hstep2. unfold b in Hstep2.
      rewrite (list_lookup_middle done fresh _ _ eq_refl) in Hstep2.
      simpl in Hstep2. injection Hstep2 as <-. simpl.
      rewrite insert_middle. auto. }
    destruct Hp2 as [Hj2 Ht2].
    destruct (tally_loop acc1 p2 Ht2) as (p3 & Hrun3 & Hj3 & Ht3).
    destruct (step e fd (Save "") p3) as [p4|] eqn:Hstep4.
    2:{ exfalso. simpl in Hstep4. rewrite Ht3 in Hstep4. discriminate. }
    assert (Hp4 : jobs p4 = jobs p3 /\ tallying p4 = None).
    { simpl in Hstep4. rewrite Ht3 in Hstep4. now injection Hstep4 as <-. }
    destruct Hp4 as [Hj4 Ht4].
    destruct (IH p4 (done ++ [mkJob [] acc1 true]))
      as (sched & p' & Hrun & Hfin); [| |exact Hfresh|exact Ht4|].
    { rewrite Hj4, Hj3, Hj2, <- app_assoc. reflexivity. }
    { apply Forall_app. split; [exact Hdone|]. constructor; [|constructor].
      split; reflexivity. }
    exists (replicate (length rows) (Work b) ++ [Collect b]
            ++ replicate (length acc1) Tally ++ [Save ""] ++ sched), p'.
    split; [|exact Hfin].
    rewrite (run_schedule_prefix _ _ _ _ Hrun1).
    rewrite (run_schedule_step _ _ _ _ Hstep2).
    rewrite (run_schedule_prefix _ _ _ _ Hrun3).
    rewrite (run_schedule_step _ _ _ _ Hstep4). exact Hrun.
Qed.

End Sequential.

(** Every call of [run_parallel_docking] has an execution. *)
Lemma run_parallel_docking_runs `{Runtime} (e : Engine) (w : World)
    (pairlist_df : list Row) (fd : option (gmap string (list string)))
    (batch_size : nat) :
  exists sched out e' w',
    run_parallel_docking sched e w pairlist_df fd batch_size
    = Some (out, e', w').
Proof.
  unfold run_parallel_docking.
  destruct (batch_size =? 0)%nat; [exists []; eauto|].
  destruct (max_workers e =? 0)%nat eqn:Hw; [exists []; eauto|].
  apply Nat.eqb_neq in Hw.
  destruct (sequential_completion
              (load_completed_pairs (set_total e (length pairlist_df)) (fs w))
              fd (ltac:(simpl; lia))
              (jobs (initial_pool e w pairlist_df batch_size))
              (initial_pool e w pairlist_df batch_size) [])
    as (sched & p & Hrun & Hdone).
  - reflexivity.
  - constructor.
  - simpl. apply Forall_fmap, Forall_forall. reflexivity.
  - reflexivity.
  - exists sched. rewrite Hrun, Hdone.
    destruct (total_pairs _ =? 0)%nat; eauto.
Qed.

Lemma filter_split_length {A} (P : A -> Prop) `{forall x, Decision (P x)}
    (l : list A) :
  length (filter P l) + length (filter (fun x => ~ P x) l) = length l.
Proof.
  induction l as [|x l IH]; [reflexivity|].
  rewrite !filter_cons. destruct (decide (P x)) as [Hp|Hn].
  - rewrite decide_False by tauto. simpl. lia.
  - rewrite decide_True by exact Hn. simpl. lia.
Qed.

Lemma pending_ids_length (C : gset string) (rows : list Row) :
  length (pending_ids C rows)
  + length (filter (fun row => pair_id row ∈ C) rows)
  = length rows.
Proof.
  unfold pending_ids.
  induction rows as [|row rows IH]; [reflexivity|].
  rewrite fmap_cons, !filter_cons.
  destruct (decide (pair_id row ∈ C)) as [Hin|Hout].
  - rewrite decide_False by tauto. simpl. lia.
  - rewrite decide_True by exact Hout. simpl. lia.
Qed.

Lemma NoDup_fmap_eq {A B} (f : A -> B) (l : list A) (x y : A) :
  NoDup (f <$> l) -> x ∈ l -> y ∈ l -> f x = f y -> x = y.
Proof.
  induction l as [|a l IH]; intros Hnd Hx Hy Heq;
    [now apply not_elem_of_nil in Hx|].
  rewrite fmap_cons in Hnd. apply NoDup_cons in Hnd as [Ha Hnd].
  apply elem_of_cons in Hx as [->|Hx], Hy as [->|Hy].
  - reflexivity.
  - exfalso. apply Ha. rewrite Heq. apply list_elem_of_fmap. eauto.
  - exfalso. apply Ha. rewrite <- Heq. apply list_elem_of_fmap. eauto.
  - now apply IH.
Qed.

(** The pool at the end of a run that returns. *)
Lemma run_parallel_docking_pool `{Runtime} (sched : list Event) (e : Engine)
    (w : World) (pairlist_df : list Row)
    (fd : option (gmap string (list string))) (n : nat)
    (rs : list Result) (e' : Engine) (w' : World) :
  run_parallel_docking sched e w pairlist_df fd n = Some (Return rs, e', w') ->
  0 < n
  /\ exists p,
       run_schedule
         (load_completed_pairs (set_total e (length pairlist_df)) (fs w))
         fd sched (initial_pool e w pairlist_df n) = Some p
       /\ pool_done p = true
       /\ rs = all_results p /\ w' = p_world p
       /\ completed_pairs e' = p_completed p.
Proof.
  unfold run_parallel_docking.
  destruct (n =? 0)%nat eqn:Hn; [destruct sched; discriminate|].
  apply Nat.eqb_neq in Hn.
  destruct (max_workers e =? 0)%nat; [destruct sched; discriminate|].
  destruct (run_schedule _ fd sched _) as [p|] eqn:Hrun; [|discriminate].
  destruct (pool_done p) eqn:Hdone; [|discriminate].
  destruct (total_pairs _ =? 0)%nat; [discriminate|].
  intros [= <- <- <-]. split; [lia|]. exists p. auto.
Qed.

Lemma run_parallel_docking_final `{Runtime} (sched : list Event) (e : Engine)
    (w : World) (pairlist_df : list Row)
    (fd : option (gmap string (list string))) (n : nat)
    (rs : list Result) (e' : Engine) (w' : World) :
  NoDup (pair_id <$> pairlist_df) ->
  run_parallel_docking sched e w pairlist_df fd n = Some (Return rs, e', w') ->
  0 < n
  /\ exists p,
       pool_inv (chunks n pairlist_df) (startup_ledger e w)
                (length (launched w)) sched p
       /\ pool_done p = true
       /\ rs = all_results p /\ w' = p_world p
       /\ completed_pairs e' = p_completed p.
Proof.
  intros Hnd Hrun.
  destruct (run_parallel_docking_pool _ _ _ _ _ _ _ _ _ Hrun)
    as (Hn & p & Hsched & Hrest).
  split; [exact Hn|]. exists p. split; [|exact Hrest].
  eapply run_schedule_inv; [|apply initial_pool_inv|exact Hsched].
  rewrite chunks_concat by exact Hn. exact Hnd.
Qed.

(** C1, as the code has it.  Every call has an execution.  In a run that
    returns, on a catalog with distinct pair ids, a row whose pair id is in
    the startup ledger starts no child process and has no result at all in
    the returned list; every other row starts exactly one child process and
    has exactly one result.  So the run starts N - |S| processes when the
    ledger holds the pair ids of |S| of the N rows, and none, returning the
    empty list, when it holds them all. *)
Theorem resume_skips_ledger_items `{Runtime} (e : Engine) (w : World)
    (pairlist_df : list Row) (fd : option (gmap string (list string)))
    (n : nat) :
  NoDup (pair_id <$> pairlist_df) ->
  let ledger := startup_ledger e w in
  (exists sched out e' w',
     run_parallel_docking sched e w pairlist_df fd n = Some (out, e', w'))
  /\ forall sched rs e' w',
       run_parallel_docking sched e w pairlist_df fd n
       = Some (Return rs, e', w') ->
       length (launched w')
       = length (launched w) + length (pending_ids ledger pairlist_df)
       /\ length (launched w')
          + length (filter (fun row => pair_id row ∈ ledger) pairlist_df)
          = length (launched w) + length pairlist_df
       /\ r_pair_id <$> rs ≡ₚ pending_ids ledger pairlist_df
       /\ (forall row r, row ∈ pairlist_df -> pair_id row ∈ ledger ->
                         r ∈ rs -> r_pair_id r <> pair_id row)
       /\ ((forall row, row ∈ pairlist_df -> pair_id row ∈ ledger) ->
           rs = [] /\ length (launched w') = length (launched w)).
Proof.
  intros Hnd ledger. split; [apply run_parallel_docking_runs|].
  intros sched rs e' w' Hrun.
  destruct (run_parallel_docking_final _ _ _ _ _ _ _ _ _ Hnd Hrun)
    as (Hn & p & Hinv & Hdone & -> & -> & _).
  assert (Hperm := all_results_ids_perm _ _ _ _ _ Hinv Hdone).
  rewrite chunks_concat in Hperm by exact Hn. fold ledger in Hperm.
  assert (Hcount := launched_count _ _ _ _ _ Hinv Hdone).
  assert (Hlen : length (all_results p)
                 = length (pending_ids ledger pairlist_df)).
  { rewrite <- (length_fmap r_pair_id). now apply Permutation_length. }
  assert (Hsplit := pending_ids_length ledger pairlist_df).
  split; [lia|]. split; [lia|]. split; [exact Hperm|]. split.
  - intros row r Hrow Hin Hr Heq.
    assert (Hk : r_pair_id r ∈ pending_ids ledger pairlist_df).
    { rewrite <- Hperm. apply list_elem_of_fmap. eauto. }
    apply list_elem_of_filter in Hk as [Hk _]. apply Hk. now rewrite Heq.
  - intros Hall.
    assert (Hnil : pending_ids ledger pairlist_df = []).
    { unfold pending_ids. clear -Hall.
      induction pairlist_df as [|row rows IH]; [reflexivity|].
      rewrite fmap_cons, filter_cons.
      rewrite decide_False by (intros Hk; apply Hk, Hall; left).
      apply IH. intros r Hr. apply Hall. now right. }
    rewrite Hnil in Hlen. simpl in Hlen.
    split; [now apply length_zero_iff_nil | lia].
Qed.

Lemma resume_skips_ledger_items_witness :
  exists sched out e' w',
    @run_parallel_docking runtime_ok sched (new_engine default_config 4)
      (mkWorld ∅ []) catalog_three None 2 = Some (out, e', w').
Proof.
  refine (proj1 (@resume_skips_ledger_items runtime_ok
                   (new_engine default_config 4) (mkWorld ∅ [])
                   catalog_three None 2 _)).
  apply (bool_decide_unpack _). vm_compute. exact I.
Defined.

(** C1 as stated fails: the artifact of the only row is on disk, the row is
    skipped without a child process, and the run returns the empty list:
    there is no success result for the skipped row. *)
Lemma skipped_item_has_no_result :
  let e := new_engine default_config 4 in
  let w := mkWorld disk_with_artifact [] in
  pair_id row_rsl ∈ startup_ledger e w
  /\ exists e' w',
       @run_parallel_docking runtime_ok sched_skip_one e w [row_rsl] None 5
       = Some (Return [], e', w')
       /\ launched w' = []
       /\ ~ (exists r, r ∈ ([] : list Result)
                       /\ status r = success
                       /\ r_pair_id r = pair_id row_rsl).
Proof.
  cbv zeta. split; [vm_compute; set_solver|].
  eexists _, _. split; [vm_compute; reflexivity|]. split; [reflexivity|].
  intros (r & Hr & _). now apply not_elem_of_nil in Hr.
Qed.

(** C2, as the code has it.  In a run that returns, on a catalog with
    distinct pair ids, every batch is collected exactly once, and the
    returned list is the results of the batches in the order in which the
    main thread collects them; inside a batch the results are in catalog
    order, and rows of the startup ledger have none.  When the batches are
    collected in submission order the list is in catalog order. *)
Theorem results_follow_collection_order `{Runtime} (sched : list Event)
    (e : Engine) (w : World) (pairlist_df : list Row)
    (fd : option (gmap string (list string))) (n : nat)
    (rs : list Result) (e' : Engine) (w' : World) :
  NoDup (pair_id <$> pairlist_df) ->
  run_parallel_docking sched e w pairlist_df fd n = Some (Return rs, e', w') ->
  let ledger := startup_ledger e w in
  let batches := chunks n pairlist_df in
  collect_order sched ≡ₚ seq 0 (length batches)
  /\ r_pair_id <$> rs
     = flat_map (batch_pending ledger batches) (collect_order sched)
  /\ (collect_order sched = seq 0 (length batches) ->
      r_pair_id <$> rs = pending_ids ledger pairlist_df).
Proof.
  intros Hnd Hrun ledger batches.
  destruct (run_parallel_docking_final _ _ _ _ _ _ _ _ _ Hnd Hrun)
    as (Hn & p & Hinv & Hdone & -> & _).
  split; [exact (collect_order_perm _ _ _ _ _ Hinv Hdone)|].
  assert (Hids := all_results_ids _ _ _ _ _ Hinv Hdone).
  split; [exact Hids|].
  intros Horder. rewrite Hids, Horder. unfold batch_pending.
  rewrite flat_map_by_index, <- pending_ids_concat.
  unfold batches. now rewrite chunks_concat.
Qed.

Lemma results_follow_collection_order_witness :
  exists rs e' w',
    @run_parallel_docking runtime_ok sched_second_first
      (new_engine default_config 4) (mkWorld ∅ []) catalog_three None 2
    = Some (Return rs, e', w')
    /\ r_pair_id <$> rs
       = flat_map (batch_pending ∅ (chunks 2 catalog_three)) [1; 0].
Proof.
  eexists _, _, _. split; [vm_compute; reflexivity|].
  refine (proj1 (proj2 (@results_follow_collection_order runtime_ok
                          sched_second_first (new_engine default_config 4)
                          (mkWorld ∅ []) catalog_three None 2 _ _ _ _ _))).
  - apply (bool_decide_unpack _). vm_compute. exact I.
  - vm_compute. reflexivity.
Defined.

(** C2 as stated fails: the second batch is collected first, and the
    result of the third row of the catalog comes first in the returned
    list. *)
Lemma results_not_in_catalog_order :
  exists rs e' w',
    @run_parallel_docking runtime_ok sched_second_first
      (new_engine default_config 4) (mkWorld ∅ []) catalog_three None 2
    = Some (Return rs, e', w')
    /\ pair_id <$> catalog_three
       = ["r1_site_1_l1"; "r1_site_1_l2"; "r2_site_1_l1"]
    /\ r_pair_id <$> rs
       = ["r2_site_1_l1"; "r1_site_1_l1"; "r1_site_1_l2"]
    /\ r_pair_id <$> rs <> pair_id <$> catalog_three.
Proof.
  eexists _, _, _. split; [vm_compute; reflexivity|].
  split; [reflexivity|]. split; [reflexivity|]. discriminate.
Qed.


(* ================================================================== *)
(** ** Further properties: what a run does on every catalog *)
(* ================================================================== *)

Lemma elem_of_concat {A} (ls : list (list A)) (l : list A) (x : A) (b : nat) :
  ls !! b = Some l -> x ∈ l -> x ∈ concat ls.
Proof.
  intros Hl Hx. apply list_elem_of_In, in_concat. exists l.
  split; apply list_elem_of_In; [eapply list_elem_of_lookup_2; eauto | exact Hx].
Qed.

Section RunInvariant.
Context {rt : Runtime}.

(** One row through [_process_batch]: skipped, or one child process on the
    row's command and one result that describes the row. *)
Lemma process_row_cases (cfg : Config) (C : gset string)
    (fd : option (gmap string (list string))) (b : nat) (row : Row)
    (acc : list Result) (w : World) :
  (pair_id row ∈ C /\ process_row cfg C fd b row acc w = (acc, w))
  \/ ((pair_id row ∉ C)
      /\ exists r w',
           process_row cfg C fd b row acc w = (acc ++ [r], w')
           /\ describes b row r
           /\ launched w' = launched w ++ [command_of cfg fd row]).
Proof.
  unfold process_row, command_of, flexible_residues_of.
  set (flex := match fd with Some d => d !! receptor row | None => None end).
  unfold run_single_docking.
  destruct (decide (pair_id row ∈ C)) as [Hin|Hout].
  - left. rewrite bool_decide_true by exact Hin. auto.
  - right. split; [exact Hout|]. rewrite bool_decide_false by exact Hout.
    pose proof (build_gnina_command_output cfg row flex) as Hout_file.
    assert (Hlog : (build_gnina_command cfg row flex).2
                   = log_file_of (pair_id row)) by reflexivity.
    destruct (build_gnina_command cfg row flex) as [[cmd out] log].
    cbn [fst snd] in Hout_file, Hlog. subst out log.
    destruct (subprocess_run cmd (timeout cfg) (fs w)) as [po d'].
    destruct po as [rc err| |msg].
    + destruct ((rc =? 0)%Z && path_exists d' (artifact_path (key row))).
      * destruct (parse_gnina_output d' _ _);
          eexists _, _; (split; [reflexivity|]); (split; [|reflexivity]);
          unfold describes; cbn; repeat split; eauto.
      * eexists _, _; (split; [reflexivity|]); (split; [|reflexivity]);
          unfold describes; cbn; repeat split; eauto.
    + eexists _, _; (split; [reflexivity|]); (split; [|reflexivity]);
        unfold describes; cbn; repeat split; eauto.
    + eexists _, _; (split; [reflexivity|]); (split; [|reflexivity]);
        unfold describes; cbn; repeat split; eauto.
Qed.

Variables (e : Engine) (fd : option (gmap string (list string))).
Variables (bs : list (list Row)) (C0 : gset string).
Variable L0 : list (list string).

Lemma step_run_inv (ev : Event) (p p' : Pool) :
  run_inv (config e) fd bs C0 L0 p -> step e fd ev p = Some p' ->
  run_inv (config e) fd bs C0 L0 p'.
Proof.
  intros [Hled Htodo Hbatch Hall Hsucc Hlaunch] Hstep.
  destruct ev as [b|b| |ts]; simpl in Hstep.
  - destruct (jobs p !! b) as [j|] eqn:Hj; [|discriminate].
    destruct (todo j) as [|row rest] eqn:Htd; [discriminate|].
    destruct (has_worker _ _ _); [|discriminate].
    assert (Hrow : exists batch, bs !! b = Some batch /\ row ∈ batch).
    { apply (Htodo b j row Hj). rewrite Htd. left. }
    destruct (process_row_cases (config e) (p_completed p) fd b row
                (batch_results j) (p_world p))
      as [[Hin Hpr] | (Hout & r & w' & Hpr & Hdesc & Hcmd)];
      rewrite Hpr in Hstep; injection Hstep as <-;
      constructor; cbn [p_completed jobs all_results tallying p_world];
      try assumption.
    + intros b0 j0 row0 Hj0 Hr0. insert_cases b0 b Hj Hj0.
      * injection Hj0 as <-. cbn [todo] in Hr0.
        apply (Htodo b j row0 Hj). rewrite Htd. now right.
      * eauto.
    + intros b0 j0 r0 Hj0 Hr0. insert_cases b0 b Hj Hj0.
      * injection Hj0 as <-. cbn [batch_results] in Hr0. eauto.
      * eauto.
    + intros b0 j0 row0 Hj0 Hr0. insert_cases b0 b Hj Hj0.
      * injection Hj0 as <-. cbn [todo] in Hr0.
        apply (Htodo b j row0 Hj). rewrite Htd. now right.
      * eauto.
    + intros b0 j0 r0 Hj0 Hr0. insert_cases b0 b Hj Hj0.
      * injection Hj0 as <-. cbn [batch_results] in Hr0.
        apply elem_of_app in Hr0 as [Hr0|Hr0]; [eauto|].
        apply list_elem_of_singleton in Hr0. subst r0.
        destruct Hrow as (batch & Hb & Hrb).
        exists batch, row.
        split; [exact Hb|]. split; [exact Hrb|]. split; [|exact Hdesc].
        intros Hc. apply Hout. now apply Hled.
      * eauto.
    + destruct Hlaunch as (cmds & Hl & Hcmds).
      exists (cmds ++ [command_of (config e) fd row]). split.
      * rewrite Hcmd, Hl. now rewrite <- app_assoc.
      * intros cmd Hc. apply elem_of_app in Hc as [Hc|Hc]; [now apply Hcmds|].
        apply list_elem_of_singleton in Hc. subst cmd.
        destruct Hrow as (batch & Hb & Hrb).
        exists row. split; [eapply elem_of_concat; eauto|].
        split; [|reflexivity]. intros Hc. apply Hout. now apply Hled.
  - destruct (tallying p) eqn:Ht; [discriminate|].
    destruct (jobs p !! b) as [j|] eqn:Hj; [|discriminate].
    destruct (negb (unfinished j) && negb (collected j)); [|discriminate].
    injection Hstep as <-.
    constructor; cbn [p_completed jobs all_results tallying p_world];
      try assumption.
    + intros b0 j0 row0 Hj0 Hr0. insert_cases b0 b Hj Hj0.
      * injection Hj0 as <-. cbn [todo] in Hr0. inversion Hr0.
      * eauto.
    + intros b0 j0 r0 Hj0 Hr0. insert_cases b0 b Hj Hj0.
      * injection Hj0 as <-. cbn [batch_results] in Hr0. eauto.
      * eauto.
    + intros r Hr. apply elem_of_app in Hr as [Hr|Hr]; [eauto|].
      exists b. eauto.
    + intros r Hr Hs. apply elem_of_app in Hr as [Hr|Hr].
      * destruct (Hsucc r Hr Hs) as [|(rs & Hrs & _)]; [now left|discriminate].
      * right. eauto.
  - destruct (tallying p) as [[|r rs]|] eqn:Ht; try discriminate.
    destruct (status r) eqn:Hs; injection Hstep as <-;
      constructor; cbn [p_completed jobs all_results tallying p_world];
      try assumption.
    + intros k Hk. apply elem_of_union. left. now apply Hled.
    + intros r0 Hr0 Hs0.
      destruct (Hsucc r0 Hr0 Hs0) as [Hc|(rs0 & Hrs0 & Hin)].
      * left. apply elem_of_union. now left.
      * injection Hrs0 as <-. apply elem_of_cons in Hin as [->|Hin].
        -- left. apply elem_of_union. right. now apply elem_of_singleton.
        -- right. eauto.
    + intros r0 Hr0 Hs0.
      destruct (Hsucc r0 Hr0 Hs0) as [Hc|(rs0 & Hrs0 & Hin)]; [now left|].
      injection Hrs0 as <-. apply elem_of_cons in Hin as [->|Hin].
      * congruence.
      * right. eauto.
    + intros r0 Hr0 Hs0.
      destruct (Hsucc r0 Hr0 Hs0) as [Hc|(rs0 & Hrs0 & Hin)]; [now left|].
      injection Hrs0 as <-. apply elem_of_cons in Hin as [->|Hin].
      * congruence.
      * right. eauto.
  - destruct (tallying p) as [[|r rs]|] eqn:Ht; try discriminate.
    injection Hstep as <-.
    constructor; cbn [p_completed jobs all_results tallying p_world launched];
      try assumption.
    intros r0 Hr0 Hs0.
    destruct (Hsucc r0 Hr0 Hs0) as [Hc|(rs0 & Hrs0 & Hin)]; [now left|].
    injection Hrs0 as <-. inversion Hin.
Qed.

Lemma run_schedule_run_inv (sched : list Event) :
  forall p p', run_inv (config e) fd bs C0 L0 p ->
               run_schedule e fd sched p = Some p' ->
               run_inv (config e) fd bs C0 L0 p'.
Proof.
  induction sched as [|ev sched IH]; intros p p' Hinv; simpl.
  - now intros [= <-].
  - destruct (step e fd ev p) as [p1|] eqn:Hstep; [|discriminate].
    apply IH. eapply step_run_inv; eauto.
Qed.

End RunInvariant.

Lemma initial_pool_run_inv (e : Engine) (w : World)
    (fd : option (gmap string (list string)))
    (pairlist_df : list Row) (n : nat) :
  run_inv (config e) fd (chunks n pairlist_df) (startup_ledger e w)
          (launched w) (initial_pool e w pairlist_df n).
Proof.
  constructor; cbn [initial_pool p_completed jobs all_results tallying p_world].
  - reflexivity.
  - intros b j row Hj Hr. rewrite list_lookup_fmap in Hj.
    destruct (chunks n pairlist_df !! b) as [batch|]; [|discriminate].
    injection Hj as <-. eauto.
  - intros b j r Hj Hr. rewrite list_lookup_fmap in Hj.
    destruct (chunks n pairlist_df !! b) as [batch|]; [|discriminate].
    injection Hj as <-. inversion Hr.
  - intros r Hr. inversion Hr.
  - intros r Hr. inversion Hr.
  - exists []. split; [now rewrite app_nil_r|]. intros cmd Hc. inversion Hc.
Qed.

(** The pool with which a run that returns has ended. *)
Lemma run_parallel_docking_run_inv `{Runtime} (sched : list Event)
    (e : Engine) (w : World) (pairlist_df : list Row)
    (fd : option (gmap string (list string))) (n : nat)
    (rs : list Result) (e' : Engine) (w' : World) :
  run_parallel_docking sched e w pairlist_df fd n = Some (Return rs, e', w') ->
  exists p,
    run_inv (config e) fd (chunks n pairlist_df) (startup_ledger e w)
            (launched w) p
    /\ pool_done p = true
    /\ rs = all_results p /\ w' = p_world p
    /\ completed_pairs e' = p_completed p.
Proof.
  intros Hrun.
  destruct (run_parallel_docking_pool _ _ _ _ _ _ _ _ _ Hrun)
    as (_ & p & Hsched & Hdone & Hrs & Hw & Hc).
  exists p. split; [|now repeat split].
  set (e1 := load_completed_pairs (set_total e (length pairlist_df)) (fs w))
    in Hsched.
  change (config e) with (config e1).
  eapply (run_schedule_run_inv e1); [|exact Hsched].
  change (config e1) with (config e). apply initial_pool_run_inv.
Qed.

Lemma pool_done_tallying (p : Pool) : pool_done p = true -> tallying p = None.
Proof.
  unfold pool_done. intros H%andb_true_iff. destruct H as [_ H].
  now destruct (tallying p).
Qed.

(** X1. On every catalog and under every interleaving, a run keeps the
    ledger it started with and records every success: when it returns,
    the pair id of each result with status success is in the ledger. *)
Theorem ledger_records_every_success `{Runtime} (sched : list Event)
    (e : Engine) (w : World) (pairlist_df : list Row)
    (fd : option (gmap string (list string))) (n : nat)
    (rs : list Result) (e' : Engine) (w' : World) :
  run_parallel_docking sched e w pairlist_df fd n = Some (Return rs, e', w') ->
  startup_ledger e w ⊆ completed_pairs e'
  /\ completed_pairs e ⊆ completed_pairs e'
  /\ forall r, r ∈ rs -> status r = success ->
               r_pair_id r ∈ completed_pairs e'.
Proof.
  intros Hrun.
  destruct (run_parallel_docking_run_inv _ _ _ _ _ _ _ _ _ Hrun)
    as (p & Hinv & Hdone & -> & -> & Hc).
  rewrite Hc. split; [exact (ri_ledger Hinv)|]. split.
  - etransitivity; [|exact (ri_ledger Hinv)].
    unfold startup_ledger, load_completed_pairs. cbn.
    intros k Hk. apply elem_of_union. now left.
  - intros r Hr Hs.
    destruct (ri_success Hinv r Hr Hs) as [|(rs & Hrs & _)]; [assumption|].
    rewrite (pool_done_tallying p Hdone) in Hrs. discriminate.
Qed.

Lemma ledger_records_every_success_witness :
  exists rs e' w',
    @run_parallel_docking runtime_ok sched_one
      (new_engine default_config 4) (mkWorld ∅ []) [row_rsl] None 5
    = Some (Return rs, e', w')
    /\ forall r, r ∈ rs -> status r = success ->
                 r_pair_id r ∈ completed_pairs e'.
Proof.
  eexists _, _, _. split; [vm_compute; reflexivity|].
  refine (proj2 (proj2 (@ledger_records_every_success runtime_ok sched_one
            (new_engine default_config 4) (mkWorld ∅ []) [row_rsl] None 5
            _ _ _ _))).
  vm_compute. reflexivity.
Defined.

Lemma chunks_elem_of {A} (n : nat) (l batch : list A) (b : nat) (x : A) :
  0 < n -> chunks n l !! b = Some batch -> x ∈ batch -> x ∈ l.
Proof.
  intros Hn Hb Hx. rewrite <- (chunks_concat n l Hn).
  eapply elem_of_concat; eauto.
Qed.

(** X2. Every result that a run returns is the report of a catalog row
    that was not in the ledger at startup: it carries the row's ids and
    the index of the row's batch; a success carries the row's artifact
    path, its log file and a score list, an error or timeout carries none
    of these but a message. *)
Theorem results_describe_dispatched_rows `{Runtime} (sched : list Event)
    (e : Engine) (w : World) (pairlist_df : list Row)
    (fd : option (gmap string (list string))) (n : nat)
    (rs : list Result) (e' : Engine) (w' : World) :
  run_parallel_docking sched e w pairlist_df fd n = Some (Return rs, e', w') ->
  forall r, r ∈ rs ->
    exists b batch row,
      chunks n pairlist_df !! b = Some batch /\ row ∈ batch
      /\ row ∈ pairlist_df
      /\ (pair_id row ∉ startup_ledger e w)
      /\ describes b row r.
Proof.
  intros Hrun r Hr.
  destruct (run_parallel_docking_pool _ _ _ _ _ _ _ _ _ Hrun) as (Hn & _).
  destruct (run_parallel_docking_run_inv _ _ _ _ _ _ _ _ _ Hrun)
    as (p & Hinv & Hdone & -> & -> & Hc).
  destruct (ri_all Hinv r Hr) as (b & batch & row & Hb & Hrow & Hout & Hd).
  exists b, batch, row. split; [exact Hb|]. split; [exact Hrow|].
  split; [eapply chunks_elem_of; eauto|]. now split.
Qed.

Lemma results_describe_dispatched_rows_witness :
  exists rs e' w',
    @run_parallel_docking runtime_ok sched_one
      (new_engine default_config 4) (mkWorld ∅ []) [row_rsl] None 5
    = Some (Return rs, e', w')
    /\ forall r, r ∈ rs ->
         exists b batch row,
           chunks 5 [row_rsl] !! b = Some batch /\ row ∈ batch
           /\ row ∈ [row_rsl]
           /\ (pair_id row ∉ startup_ledger (new_engine default_config 4)
                                            (mkWorld ∅ []))
           /\ describes b row r.
Proof.
  eexists _, _, _. split; [vm_compute; reflexivity|].
  refine (@results_describe_dispatched_rows runtime_ok sched_one
            (new_engine default_config 4) (mkWorld ∅ []) [row_rsl] None 5
            _ _ _ _).
  vm_compute. reflexivity.
Defined.

(** X3. The child processes that a run starts are commands that
    [build_gnina_command] gives for catalog rows that were not in the
    ledger at startup, with the flexible residues of the row's receptor;
    nothing else is started. *)
Theorem launched_commands_from_catalog `{Runtime} (sched : list Event)
    (e : Engine) (w : World) (pairlist_df : list Row)
    (fd : option (gmap string (list string))) (n : nat)
    (rs : list Result) (e' : Engine) (w' : World) :
  run_parallel_docking sched e w pairlist_df fd n = Some (Return rs, e', w') ->
  exists cmds,
    launched w' = launched w ++ cmds
    /\ forall cmd, cmd ∈ cmds ->
         exists row,
           row ∈ pairlist_df
           /\ (pair_id row ∉ startup_ledger e w)
           /\ cmd = (build_gnina_command (config e) row
                       (flexible_residues_of fd row)).1.1.
Proof.
  intros Hrun.
  destruct (run_parallel_docking_pool _ _ _ _ _ _ _ _ _ Hrun) as (Hn & _).
  destruct (run_parallel_docking_run_inv _ _ _ _ _ _ _ _ _ Hrun)
    as (p & Hinv & Hdone & -> & -> & Hc).
  destruct (ri_launched Hinv) as (cmds & Hl & Hcmds).
  exists cmds. split; [exact Hl|]. intros cmd Hcmd.
  destruct (Hcmds cmd Hcmd) as (row & Hrow & Hout & ->).
  exists row. split; [|now split].
  now rewrite (chunks_concat n pairlist_df Hn) in Hrow.
Qed.

Lemma launched_commands_from_catalog_witness :
  exists rs e' w',
    @run_parallel_docking runtime_ok sched_one
      (new_engine default_config 4) (mkWorld ∅ []) [row_rsl] None 5
    = Some (Return rs, e', w')
    /\ exists cmds,
         launched w' = [] ++ cmds
         /\ forall cmd, cmd ∈ cmds ->
              exists row,
                row ∈ [row_rsl]
                /\ (pair_id row ∉ startup_ledger (new_engine default_config 4)
                                                 (mkWorld ∅ []))
                /\ cmd = (build_gnina_command default_config row None).1.1.
Proof.
  eexists _, _, _. split; [vm_compute; reflexivity|].
  refine (@launched_commands_from_catalog runtime_ok sched_one
            (new_engine default_config 4) (mkWorld ∅ []) [row_rsl] None 5
            _ _ _ _).
  vm_compute. reflexivity.
Defined.

(* ================================================================== *)
(** ** Further properties: the ledger file, the empty catalog, batches *)
(* ================================================================== *)

Lemma forallb_lookup {A} (f : A -> bool) (l : list A) (i : nat) (x : A) :
  forallb f l = true -> l !! i = Some x -> f x = true.
Proof.
  intros Hall Hx. rewrite forallb_forall in Hall. apply Hall.
  apply list_elem_of_In. eapply list_elem_of_lookup_2; eauto.
Qed.

Section LastEvent.
Context {rt : Runtime}.
Variables (e : Engine) (fd : option (gmap string (list string))).

(** The event that leaves the pool with every future handled is the save
    that follows the last counting loop. *)
Lemma pool_done_after_step (ev : Event) (p p' : Pool) :
  step e fd ev p = Some p' -> pool_done p' = true ->
  exists ts,
    ev = Save ts
    /\ p_completed p' = p_completed p /\ all_results p' = all_results p
    /\ fs (p_world p')
       = save_docking_state (set_completed e (p_completed p)) ts
                            (all_results p) (fs (p_world p)).
Proof.
  intros Hstep Hdone. destruct ev as [b|b| |ts]; simpl in Hstep.
  - destruct (jobs p !! b) as [j|] eqn:Hj; [|discriminate].
    destruct (todo j) as [|row rest]; [discriminate|].
    destruct (has_worker _ _ _); [|discriminate].
    destruct (process_row _ _ _ _ _ _ _) as [acc w1].
    injection Hstep as <-. exfalso.
    unfold pool_done in Hdone. cbn [jobs tallying] in Hdone.
    apply andb_true_iff in Hdone as [Hjobs _].
    assert (Hb : <[b := mkJob rest acc false]> (jobs p) !! b
                 = Some (mkJob rest acc false)).
    { apply list_lookup_insert_eq. eapply lookup_lt_Some, Hj. }
    pose proof (forallb_lookup _ _ _ _ Hjobs Hb) as Hf. cbn in Hf.
    now rewrite andb_false_r in Hf.
  - destruct (tallying p); [discriminate|].
    destruct (jobs p !! b) as [j|]; [|discriminate].
    destruct (negb (unfinished j) && negb (collected j)); [|discriminate].
    injection Hstep as <-. exfalso.
    apply pool_done_tallying in Hdone. discriminate.
  - destruct (tallying p) as [[|r rs]|]; try discriminate.
    destruct (status r); injection Hstep as <-; exfalso;
      apply pool_done_tallying in Hdone; discriminate.
  - destruct (tallying p) as [[|r rs]|]; try discriminate.
    injection Hstep as <-. exists ts. repeat split.
Qed.

End LastEvent.

Lemma initial_pool_not_done (e : Engine) (w : World) (row : Row)
    (rows : list Row) (n : nat) :
  pool_done (initial_pool e w (row :: rows) n) = false.
Proof.
  unfold pool_done, initial_pool, chunks. cbn [jobs tallying length].
  cbn [chunks_from]. rewrite fmap_cons. cbn [forallb collected].
  now rewrite andb_false_r.
Qed.

(** The last event of a run that returns is a save, and it has written
    the state of the returned engine. *)
Lemma returned_run_last_save `{Runtime} (sched : list Event)
    (e : Engine) (w : World) (pairlist_df : list Row)
    (fd : option (gmap string (list string))) (n : nat)
    (rs : list Result) (e' : Engine) (w' : World) :
  run_parallel_docking sched e w pairlist_df fd n = Some (Return rs, e', w') ->
  exists ts,
    fs w' !! state_file = Some (Text (Json.dumps (docking_state e' ts rs)))
    /\ total_pairs e' = length pairlist_df
    /\ config e' = config e.
Proof.
  unfold run_parallel_docking.
  set (e1 := load_completed_pairs (set_total e (length pairlist_df)) (fs w)).
  destruct (n =? 0)%nat; [destruct sched; discriminate|].
  destruct (max_workers e =? 0)%nat; [destruct sched; discriminate|].
  destruct (run_schedule e1 fd sched _) as [p|] eqn:Hsched; [|discriminate].
  destruct (pool_done p) eqn:Hdone; [|discriminate].
  destruct (total_pairs e1 =? 0)%nat eqn:Htot; [discriminate|].
  intros [= <- <- <-].
  destruct sched as [|ev s _] using rev_ind.
  - exfalso. simpl in Hsched. injection Hsched as <-.
    destruct pairlist_df as [|row rows]; [discriminate|].
    now rewrite initial_pool_not_done in Hdone.
  - rewrite run_schedule_app in Hsched.
    destruct (run_schedule e1 fd s _) as [p1|]; [|discriminate].
    cbn in Hsched.
    destruct (step e1 fd ev p1) as [p2|] eqn:Hstep; [|discriminate].
    injection Hsched as ->.
    destruct (pool_done_after_step e1 fd ev p1 p Hstep Hdone)
      as (ts & -> & Hc & Hall & Hfs).
    exists ts. split; [|now split].
    rewrite Hfs, Hc, Hall. unfold save_docking_state, save_docking_state_upto.
    cbn [disk_at]. now rewrite lookup_insert_eq.
Qed.

(** X4. When a run returns, the ledger file on disk is the one that the
    last step of the run has written: its text is the JSON dump of the
    state of the returned engine, with the count of the returned results,
    and the run has set [total_pairs] to the size of the catalog and
    [results] to the returned list. *)
Theorem ledger_file_on_return `{Runtime} (sched : list Event)
    (e : Engine) (w : World) (pairlist_df : list Row)
    (fd : option (gmap string (list string))) (n : nat)
    (rs : list Result) (e' : Engine) (w' : World) :
  run_parallel_docking sched e w pairlist_df fd n = Some (Return rs, e', w') ->
  exists ts sched0,
    sched = sched0 ++ [Save ts]
    /\ fs w' !! state_file
       = Some (Text (Json.dumps (docking_state e' ts rs)))
    /\ total_pairs e' = length pairlist_df
    /\ results e' = rs
    /\ config e' = config e /\ max_workers e' = max_workers e.
Proof.
  unfold run_parallel_docking.
  set (e1 := load_completed_pairs (set_total e (length pairlist_df)) (fs w)).
  destruct (n =? 0)%nat; [destruct sched; discriminate|].
  destruct (max_workers e =? 0)%nat; [destruct sched; discriminate|].
  destruct (run_schedule e1 fd sched _) as [p|] eqn:Hsched; [|discriminate].
  destruct (pool_done p) eqn:Hdone; [|discriminate].
  destruct (total_pairs e1 =? 0)%nat eqn:Htot; [discriminate|].
  intros [= <- <- <-].
  destruct sched as [|ev s _] using rev_ind.
  - exfalso. simpl in Hsched. injection Hsched as <-.
    destruct pairlist_df as [|row rows]; [discriminate|].
    now rewrite initial_pool_not_done in Hdone.
  - rewrite run_schedule_app in Hsched.
    destruct (run_schedule e1 fd s _) as [p1|]; [|discriminate].
    cbn in Hsched.
    destruct (step e1 fd ev p1) as [p2|] eqn:Hstep; [|discriminate].
    injection Hsched as ->.
    destruct (pool_done_after_step e1 fd ev p1 p Hstep Hdone)
      as (ts & -> & Hc & Hall & Hfs).
    exists ts, s. split; [reflexivity|]. split; [|now repeat split].
    rewrite Hfs, Hc, Hall. unfold save_docking_state, save_docking_state_upto.
    cbn [disk_at]. now rewrite lookup_insert_eq.
Qed.

Lemma ledger_file_on_return_witness :
  exists rs e' w',
    @run_parallel_docking runtime_ok sched_one
      (new_engine default_config 4) (mkWorld ∅ []) [row_rsl] None 5
    = Some (Return rs, e', w')
    /\ exists ts sched0,
         sched_one = sched0 ++ [Save ts]
         /\ fs w' !! state_file
            = Some (Text (Json.dumps (docking_state e' ts rs)))
         /\ total_pairs e' = length [row_rsl]
         /\ results e' = rs
         /\ config e' = config (new_engine default_config 4)
         /\ max_workers e' = max_workers (new_engine default_config 4).
Proof.
  eexists _, _, _. split; [vm_compute; reflexivity|].
  refine (@ledger_file_on_return runtime_ok sched_one
            (new_engine default_config 4) (mkWorld ∅ []) [row_rsl] None 5
            _ _ _ _).
  vm_compute. reflexivity.
Defined.

(** X5. On an empty catalog [run_parallel_docking] does not return: with
    a positive batch size and worker count it raises ZeroDivisionError
    from the summary, after the scan has updated the ledger, and without
    setting [results]; nothing is dispatched and the disk is left as it
    was. *)
Theorem empty_catalog_raises `{Runtime} (e : Engine) (w : World)
    (fd : option (gmap string (list string))) (n : nat) :
  (exists ex e', run_parallel_docking [] e w [] fd n = Some (Raise ex, e', w))
  /\ forall sched out e' w',
       run_parallel_docking sched e w [] fd n = Some (out, e', w') ->
       sched = [] /\ w' = w
       /\ completed_pairs e' = startup_ledger e w
       /\ total_pairs e' = 0 /\ results e' = results e
       /\ out = Raise (if (n =? 0)%nat
                       then ValueError "range() arg 3 must not be zero"
                       else if (max_workers e =? 0)%nat
                            then ValueError "max_workers must be greater than 0"
                            else ZeroDivisionError).
Proof.
  assert (Hstep : forall e1 ev,
            step e1 fd ev (initial_pool e w [] n) = None).
  { intros e1 [b|b| |ts]; simpl; try reflexivity.
    all: unfold chunks; cbn; now rewrite lookup_nil. }
  split.
  - unfold run_parallel_docking.
    destruct (n =? 0)%nat; [eauto|].
    destruct (max_workers e =? 0)%nat; [eauto|].
    cbn. eauto.
  - intros sched out e' w'. unfold run_parallel_docking.
    destruct (n =? 0)%nat.
    { destruct sched; [|discriminate]. intros [= <- <- <-]. now repeat split. }
    destruct (max_workers e =? 0)%nat.
    { destruct sched; [|discriminate]. intros [= <- <- <-]. now repeat split. }
    destruct sched as [|ev s].
    + cbn. intros [= <- <- <-]. now repeat split.
    + cbn [run_schedule]. rewrite Hstep. discriminate.
Qed.

Lemma empty_catalog_raises_witness :
  @Raise (list Result) ZeroDivisionError
  = Raise (if (5 =? 0)%nat
           then ValueError "range() arg 3 must not be zero"
           else if (max_workers (new_engine default_config 4) =? 0)%nat
                then ValueError "max_workers must be greater than 0"
                else ZeroDivisionError).
Proof.
  refine (proj2 (proj2 (proj2 (proj2 (proj2
            (proj2 (@empty_catalog_raises runtime_ok
                      (new_engine default_config 4)
                      (mkWorld disk_with_artifact []) None 5)
                   [] (Raise ZeroDivisionError)
                   (set_completed (new_engine default_config 4) {[ "r_s_l" ]})
                   (mkWorld disk_with_artifact []) _)))))).
  vm_compute. reflexivity.
Defined.

(* ================================================================== *)
(** ** Further properties: batches *)
(* ================================================================== *)

Lemma chunks_from_lookup {A} (fuel n : nat) :
  0 < n ->
  forall (l : list A) (i : nat),
    length l <= fuel ->
    chunks_from fuel n l !! i
    = if decide (i * n < length l) then Some (take n (drop (i * n) l))
      else None.
Proof.
  intros Hn. induction fuel as [|fuel IH]; intros l i Hlen.
  - destruct l; [|simpl in Hlen; lia]. simpl.
    destruct (decide (i * n < 0)); [lia | reflexivity].
  - destruct l as [|x l].
    + simpl. destruct (decide (i * n < 0)); [lia | reflexivity].
    + cbn [chunks_from]. destruct i as [|i].
      * simpl. destruct (decide (0 < S (length l))); [reflexivity | lia].
      * cbn [lookup list_lookup]. rewrite IH by (rewrite length_drop; lia).
        rewrite length_drop.
        replace (S i * n) with (n + i * n) by lia.
        rewrite <- drop_drop.
        destruct (decide (i * n < length (x :: l) - n)),
                 (decide (n + i * n < length (x :: l)));
          try reflexivity; lia.
Qed.

Lemma chunks_from_length {A} (fuel n : nat) :
  0 < n ->
  forall l : list A,
    length l <= fuel ->
    length (chunks_from fuel n l) = (length l + n - 1) / n.
Proof.
  intros Hn. induction fuel as [|fuel IH]; intros l Hlen.
  - destruct l; [|simpl in Hlen; lia]. simpl.
    symmetry. apply Nat.div_small. lia.
  - destruct l as [|x l].
    + simpl. symmetry. apply Nat.div_small. lia.
    + cbn [chunks_from length]. rewrite IH by (rewrite length_drop; lia).
      rewrite length_drop. cbn [length].
      destruct (decide (n <= S (length l))) as [Hle|Hgt].
      * replace (S (length l) + n - 1) with (S (length l) - n + n - 1 + 1 * n)
          by lia.
        rewrite Nat.div_add by lia. lia.
      * replace (S (length l) - n) with 0 by lia.
        rewrite (Nat.div_small (0 + n - 1)) by lia.
        apply (Nat.div_unique _ _ 1 (S (length l) - 1)); lia.
Qed.

(** X6. The batches that a run submits, for a positive batch size: they
    are the consecutive slices of the catalog, batch [i] holding the rows
    [i * n .. i * n + n - 1]; none is empty, none has more than [n] rows,
    only the last may have fewer; there are [ceil(N / n)] of them and,
    put end to end, they are the catalog. *)
Theorem batches_partition_catalog {A} (n : nat) (l : list A) :
  0 < n ->
  concat (chunks n l) = l
  /\ (forall i, chunks n l !! i
                = if decide (i * n < length l)
                  then Some (take n (drop (i * n) l)) else None)
  /\ Forall (fun b => 0 < length b <= n) (chunks n l)
  /\ (forall i b, chunks n l !! i = Some b ->
                  S i < length (chunks n l) -> length b = n)
  /\ length (chunks n l) = (length l + n - 1) / n.
Proof.
  intros Hn.
  assert (Hlookup : forall i, chunks n l !! i
                              = if decide (i * n < length l)
                                then Some (take n (drop (i * n) l)) else None).
  { intros i. unfold chunks. now apply chunks_from_lookup. }
  split; [now apply chunks_concat|]. split; [exact Hlookup|]. split; [|split].
  - apply Forall_lookup. intros i b Hb. rewrite Hlookup in Hb.
    destruct (decide (i * n < length l)); [|discriminate].
    injection Hb as <-. rewrite length_take, length_drop. lia.
  - intros i b Hb Hi. rewrite Hlookup in Hb.
    destruct (decide (i * n < length l)); [|discriminate].
    injection Hb as <-. rewrite length_take, length_drop.
    assert (Hnext : is_Some (chunks n l !! S i))
      by (apply lookup_lt_is_Some; lia).
    rewrite Hlookup in Hnext.
    destruct (decide (S i * n < length l)); [lia|].
    destruct Hnext as [? ?]. discriminate.
  - unfold chunks. now apply chunks_from_length.
Qed.

Lemma batches_partition_catalog_witness :
  concat (chunks 2 catalog_three) = catalog_three
  /\ (forall i, chunks 2 catalog_three !! i
                = if decide (i * 2 < length catalog_three)
                  then Some (take 2 (drop (i * 2) catalog_three)) else None)
  /\ Forall (fun b => 0 < length b <= 2) (chunks 2 catalog_three)
  /\ (forall i b, chunks 2 catalog_three !! i = Some b ->
                  S i < length (chunks 2 catalog_three) -> length b = 2)
  /\ length (chunks 2 catalog_three) = (length catalog_three + 2 - 1) / 2.
Proof. apply (batches_partition_catalog 2 catalog_three). lia. Defined.

(* ================================================================== *)
(** ** Further properties: artifacts on disk and the resume scan *)
(* ================================================================== *)

Lemma append_nil_l (s : string) : "" +:+ s = s.
Proof. reflexivity. Qed.

Lemma has_char_append (c : ascii) (s t : string) :
  Py.has_char c (s +:+ t) = Py.has_char c s || Py.has_char c t.
Proof.
  induction s as [|d s IH]; [reflexivity|].
  rewrite append_cons. simpl. now destruct (Ascii.eqb c d).
Qed.

Lemma endswith_append (t s : string) : Py.endswith (t +:+ s) s = true.
Proof.
  induction t as [|c t IH].
  - rewrite append_nil_l. destruct s; simpl; [reflexivity|].
    now rewrite Ascii.eqb_refl, String.eqb_refl.
  - rewrite append_cons. cbn [Py.endswith]. rewrite IH.
    now destruct (String.eqb _ _).
Qed.

(** A pattern that starts inside [t +:+ s] either lies in [t] or runs
    over into [s]. *)
Lemma prefix_append_cases (p t s : string) :
  String.prefix p (t +:+ s) = true ->
  String.prefix p t = true
  \/ exists p2, p = t +:+ p2 /\ p2 <> "" /\ String.prefix p2 s = true.
Proof.
  revert t. induction p as [|a p IH]; intros t Hp.
  - left. now destruct t.
  - destruct t as [|c t].
    + right. exists (String a p). rewrite append_nil_l in Hp. now repeat split.
    + rewrite append_cons in Hp. cbn [String.prefix] in Hp |- *.
      destruct (ascii_dec a c) as [->|]; [|discriminate].
      destruct (IH t Hp) as [Hl|(p2 & -> & Hne & Hp2)]; [now left|].
      right. exists p2. now rewrite append_cons.
Qed.

Lemma replace_from_skip_all (old new s : string) :
  Py.replace_from old new (String.length s) s = "".
Proof. induction s as [|c s IH]; [reflexivity | exact IH]. Qed.

(** No proper tail of the artifact suffix starts the suffix again. *)
Lemma poses_suffix_no_border (t p2 : string) :
  "_poses.sdf" = t +:+ p2 -> p2 <> "" ->
  String.prefix p2 "_poses.sdf" = true -> t = "".
Proof.
  intros H Hne Hp. destruct t as [|c t]; [reflexivity|]. exfalso.
  rewrite append_cons in H. injection H as _ H.
  repeat (destruct t as [|? t];
          [ rewrite append_nil_l in H; subst p2; vm_compute in Hp; discriminate
          | rewrite append_cons in H; injection H as _ H ]).
  destruct t; [|rewrite append_cons in H; discriminate].
  rewrite append_nil_l in H. now subst p2.
Qed.

(** The scan's [replace] takes the suffix off an artifact name and nothing
    else, when the pair id does not contain the suffix. *)
Lemma replace_poses_suffix (t : string) :
  Py.contains "_poses.sdf" t = false ->
  Py.replace "_poses.sdf" "" (t +:+ "_poses.sdf") = t.
Proof.
  unfold Py.replace. induction t as [|c t IH]; intros Hc.
  - reflexivity.
  - cbn [Py.contains] in Hc.
    destruct (String.prefix "_poses.sdf" (String c t)) eqn:Hp; [discriminate|].
    rewrite append_cons.
    assert (Hno : String.prefix "_poses.sdf" (String c (t +:+ "_poses.sdf"))
                  = false).
    { destruct (String.prefix "_poses.sdf" (String c (t +:+ "_poses.sdf")))
        eqn:Hq; [|reflexivity]. exfalso.
      rewrite <- append_cons in Hq.
      destruct (prefix_append_cases _ _ _ Hq) as [Hl|(p2 & Hsplit & Hne & Hp2)].
      - congruence.
      - now pose proof (poses_suffix_no_border _ _ Hsplit Hne Hp2). }
    change (Py.replace_from "_poses.sdf" "" 0 (String c (t +:+ "_poses.sdf")))
      with (if String.prefix "_poses.sdf" (String c (t +:+ "_poses.sdf"))
            then "" +:+ Py.replace_from "_poses.sdf" "" 9 (t +:+ "_poses.sdf")
            else String c (Py.replace_from "_poses.sdf" "" 0
                                           (t +:+ "_poses.sdf"))).
    rewrite Hno. f_equal. now apply IH.
Qed.

(** The artifact of a row is found by the scan of [load_completed_pairs]. *)
Lemma artifact_scanned (d : FileSystem) (row : Row) :
  is_Some (d !! artifact_path (key row)) ->
  Py.has_char "/" (pair_id row) = false ->
  Py.contains "_poses.sdf" (pair_id row) = false ->
  pair_id row ∈ scanned_pairs d.
Proof.
  intros Hfile Hslash Hsuffix. apply scanned_pairs_spec.
  exists (pair_id row +:+ "_poses.sdf"). split; [exact Hfile|].
  split; [|split].
  - rewrite has_char_append, Hslash. reflexivity.
  - apply endswith_append.
  - symmetry. now apply replace_poses_suffix.
Qed.

(** X7. Resume from the disk.  When the artifact of a catalog row is on
    disk, and the row's pair id contains neither a slash nor the text
    "_poses.sdf", the scan at startup puts the pair id in the ledger:
    [run_single_docking] skips the row, and no run on that disk returns a
    result for it. *)
Theorem artifact_on_disk_is_resumed `{Runtime} (e : Engine) (w : World)
    (row : Row) :
  is_Some (fs w !! artifact_path (key row)) ->
  Py.has_char "/" (pair_id row) = false ->
  Py.contains "_poses.sdf" (pair_id row) = false ->
  pair_id row ∈ completed_pairs (load_completed_pairs e (fs w))
  /\ (forall cfg flex,
        run_single_docking cfg
          (completed_pairs (load_completed_pairs e (fs w))) row flex w
        = (None, w))
  /\ (forall sched pairlist_df fd n rs e' w',
        run_parallel_docking sched e w pairlist_df fd n
        = Some (Return rs, e', w') ->
        pair_id row ∈ completed_pairs e'
        /\ forall r, r ∈ rs -> r_pair_id r <> pair_id row).
Proof.
  intros Hfile Hslash Hsuffix.
  assert (Hin : pair_id row ∈ completed_pairs (load_completed_pairs e (fs w))).
  { unfold load_completed_pairs. cbn. apply elem_of_union. right.
    apply elem_of_list_to_set. now apply artifact_scanned. }
  split; [exact Hin|]. split.
  - intros cfg flex. unfold run_single_docking.
    now rewrite bool_decide_true by exact Hin.
  - intros sched pairlist_df fd n rs e' w' Hrun.
    destruct (run_parallel_docking_run_inv _ _ _ _ _ _ _ _ _ Hrun)
      as (p & Hinv & Hdone & -> & -> & Hc).
    split.
    + rewrite Hc. now apply (ri_ledger Hinv).
    + intros r Hr Heq.
      destruct (ri_all Hinv r Hr) as (b & batch & row' & _ & _ & Hout & Hd).
      apply Hout. destruct Hd as [Hid _]. rewrite <- Hid, Heq. exact Hin.
Qed.

Lemma artifact_on_disk_is_resumed_witness :
  pair_id row_rsl
  ∈ completed_pairs (load_completed_pairs (new_engine default_config 4)
                                          disk_with_artifact).
Proof.
  refine (proj1 (@artifact_on_disk_is_resumed runtime_ok
                   (new_engine default_config 4)
                   (mkWorld disk_with_artifact []) row_rsl _ _ _)).
  - vm_compute. eauto.
  - reflexivity.
  - reflexivity.
Defined.

(* ================================================================== *)
(** ** Further properties: the stage loop of the tiered workflow *)
(* ================================================================== *)

(** How a call of [run_parallel_docking] ends: before the pool is opened,
    or with a pool in which every future has been handled. *)
Lemma run_parallel_docking_cases `{Runtime} (sched : list Event)
    (e : Engine) (w : World) (pairlist_df : list Row)
    (fd : option (gmap string (list string))) (n : nat)
    (out : outcome (list Result)) (e' : Engine) (w' : World) :
  run_parallel_docking sched e w pairlist_df fd n = Some (out, e', w') ->
  (w' = w /\ exists ex, out = Raise ex)
  \/ (0 < n
      /\ exists p,
           run_inv (config e) fd (chunks n pairlist_df) (startup_ledger e w)
                   (launched w) p
           /\ pool_done p = true /\ w' = p_world p
           /\ completed_pairs e' = p_completed p
           /\ (out = Return (all_results p)
               \/ (out = Raise ZeroDivisionError /\ pairlist_df = []))).
Proof.
  unfold run_parallel_docking.
  set (e1 := load_completed_pairs (set_total e (length pairlist_df)) (fs w)).
  destruct (n =? 0)%nat eqn:Hn.
  { destruct sched; [|discriminate]. intros [= <- <- <-]. left. eauto. }
  destruct (max_workers e =? 0)%nat.
  { destruct sched; [|discriminate]. intros [= <- <- <-]. left. eauto. }
  destruct (run_schedule e1 fd sched _) as [p|] eqn:Hsched; [|discriminate].
  destruct (pool_done p) eqn:Hdone; [|discriminate].
  intros Hout. right. apply Nat.eqb_neq in Hn. split; [lia|].
  exists p.
  assert (Hinv : run_inv (config e) fd (chunks n pairlist_df)
                         (startup_ledger e w) (launched w) p).
  { change (config e) with (config e1).
    eapply (run_schedule_run_inv e1); [|exact Hsched].
    change (config e1) with (config e). apply initial_pool_run_inv. }
  split; [exact Hinv|]. split; [exact Hdone|].
  destruct (total_pairs e1 =? 0)%nat eqn:Htot;
    injection Hout as <- <- <-; (split; [reflexivity|]);
    (split; [reflexivity|]).
  - right. split; [reflexivity|]. apply Nat.eqb_eq in Htot. cbn in Htot.
    now destruct pairlist_df.
  - now left.
Qed.

(** A run on rows that are all in the ledger starts no child process and
    has no result. *)
Lemma run_on_ledger_rows_idle `{Runtime} (sched : list Event)
    (e : Engine) (w : World) (pairlist_df : list Row)
    (fd : option (gmap string (list string))) (n : nat)
    (out : outcome (list Result)) (e' : Engine) (w' : World) :
  (forall row, row ∈ pairlist_df -> pair_id row ∈ startup_ledger e w) ->
  run_parallel_docking sched e w pairlist_df fd n = Some (out, e', w') ->
  launched w' = launched w
  /\ forall rs, out = Return rs -> rs = [].
Proof.
  intros Hall Hrun.
  destruct (run_parallel_docking_cases _ _ _ _ _ _ _ _ _ Hrun)
    as [[-> [ex ->]] | (Hn & p & Hinv & Hdone & -> & Hc & Hout)].
  - split; [reflexivity | discriminate].
  - split.
    + destruct (ri_launched Hinv) as (cmds & -> & Hcmds).
      destruct cmds as [|cmd cmds]; [now rewrite app_nil_r|]. exfalso.
      destruct (Hcmds cmd) as (row & Hrow & Hnot & _); [left|].
      rewrite (chunks_concat n pairlist_df Hn) in Hrow. now apply Hnot, Hall.
    + intros rs ->. destruct Hout as [[= ->]|[? _]]; [|discriminate].
      destruct (all_results p) as [|r rs] eqn:Hrs; [reflexivity|]. exfalso.
      destruct (ri_all Hinv r) as (b & batch & row & Hb & Hrow & Hnot & _).
      { rewrite Hrs. left. }
      apply Hnot, Hall. eapply chunks_elem_of; eauto.
Qed.

(** A run that returns leaves the configuration and the worker count of
    the engine as they were. *)
Lemma ledger_config_kept `{Runtime} (sched : list Event)
    (e : Engine) (w : World) (pairlist_df : list Row)
    (fd : option (gmap string (list string))) (n : nat)
    (rs : list Result) (e' : Engine) (w' : World) :
  run_parallel_docking sched e w pairlist_df fd n = Some (Return rs, e', w') ->
  config e' = config e /\ max_workers e' = max_workers e.
Proof.
  unfold run_parallel_docking.
  destruct (n =? 0)%nat; [destruct sched; discriminate|].
  destruct (max_workers e =? 0)%nat; [destruct sched; discriminate|].
  destruct (run_schedule _ fd sched _) as [p|]; [|discriminate].
  destruct (pool_done p); [|discriminate].
  destruct (total_pairs _ =? 0)%nat; [discriminate|].
  intros [= <- <- <-]. split; reflexivity.
Qed.

Section TieredFacts.
Context {rt : Runtime}.
Variable float_repr : Q -> string.
Variables (stages : gmap string StageConfig).
Variables (tiered_config : gmap string TierParams).
Variables (pairlist_df : list Row).
Variable fd : option (gmap string (list string)).

Lemma tiered_stage_inv (stage : string) (sched : list Event) (ts : string)
    (st st' : Tiered) :
  tiered_inv st ->
  tiered_stage float_repr stages tiered_config pairlist_df fd stage sched ts st
  = Some (Return tt, st') ->
  tiered_inv st'.
Proof.
  intros Hinv. unfold tiered_stage.
  destruct (get_stage_config stages stage) as [sc|ex]; [|discriminate].
  destruct (run_stage _ _ _ _ _ _) as [[stage_input c']|ex]; [|discriminate].
  destruct (length stage_input =? 0)%nat; [now intros [= <-]|].
  destruct (run_parallel_docking _ _ _ _ _ _) as [[[out e'] w']|] eqn:Hrun;
    [|discriminate].
  destruct out as [rs|ex]; [|discriminate].
  intros [= <-]. intros prev r [= <-] Hr Hs. cbn [t_engine].
  destruct (run_parallel_docking_run_inv _ _ _ _ _ _ _ _ _ Hrun)
    as (p & Hp & Hdone & -> & -> & Hc).
  split.
  - rewrite Hc. destruct (ri_success Hp r Hr Hs) as [|(rs & Hrs & _)];
      [assumption|].
    rewrite (pool_done_tallying p Hdone) in Hrs. discriminate.
  - destruct (ri_all Hp r Hr) as (b & batch & row & _ & _ & _ & Hd).
    destruct Hd as (-> & -> & -> & -> & _). reflexivity.
Qed.

Lemma run_tiered_stages_inv (plan : list (string * list Event * string)) :
  forall st st',
    tiered_inv st ->
    run_tiered_stages float_repr stages tiered_config pairlist_df fd plan st
    = Some (Return tt, st') ->
    tiered_inv st'.
Proof.
  induction plan as [|[[stage sched] ts] plan IH]; intros st st' Hinv; simpl.
  - now intros [= <-].
  - destruct (tiered_stage _ _ _ _ _ _ _ _ _) as [[[[]|ex] st1]|] eqn:Hst;
      try discriminate.
    apply IH. eapply tiered_stage_inv; eauto.
Qed.

(** The rows that the filter keeps, when it filters, have a success of the
    last stage under their pair id. *)
Lemma filtered_rows_in_ledger (stage : string) (st : Tiered)
    (prev : list Result) (kept : list Row) :
  tiered_inv st -> t_previous st = Some prev ->
  successful_results prev <> [] -> stage <> "A" ->
  filter_ligands_for_stage stages stage (Some prev) pairlist_df = Return kept ->
  forall row, row ∈ kept -> pair_id row ∈ completed_pairs (t_engine st).
Proof.
  intros Hinv Hprev Hscored HA. unfold filter_ligands_for_stage.
  destruct (get_stage_config stages stage) as [sc|ex]; [|discriminate].
  cbn. apply String.eqb_neq in HA. rewrite HA.
  destruct prev as [|r0 prev0]; [now destruct Hscored|].
  destruct (successful_results (r0 :: prev0)) as [|sr df] eqn:Hdf;
    [now destruct Hscored|].
  intros Hfilter row Hrow.
  destruct (filter_rows_kept _ _ _ Hfilter) as [_ Hkeep].
  destruct (keeps_has_scores _ _ _ (Hkeep row Hrow)) as (sr' & Hin & Hkey).
  rewrite <- Hdf in Hin.
  apply successful_results_spec in Hin
    as (r & sc' & p & Hr & Hs & _ & _ & ->).
  cbn in Hkey. destruct (Hinv _ r Hprev Hr Hs) as [Hled Hid].
  rewrite Hid in Hled. unfold pair_id. injection Hkey as <- <- <-.
  exact Hled.
Qed.

End TieredFacts.

(** X8. The funnel after a stage with scored successes.  In the stage
    loop of [run_tiered_workflow], started with no previous results:
    once the last stage that docked has left a successful result with a
    score, a following stage other than A docks nothing.  The rows that
    its filter keeps are rows of those successes, their pair ids are in
    the ledger of the engine that the stages share, and every one of them
    is skipped: no child process is started and no result is added. *)
Theorem stage_after_scored_stage_docks_nothing `{Runtime}
    (float_repr : Q -> string) (stages : gmap string StageConfig)
    (tiered_config : gmap string TierParams) (pairlist_df : list Row)
    (fd : option (gmap string (list string)))
    (plan : list (string * list Event * string)) (e : Engine) (w : World)
    (st1 : Tiered) (prev : list Result)
    (stage : string) (sched : list Event) (ts : string)
    (out : outcome unit) (st2 : Tiered) :
  run_tiered_stages float_repr stages tiered_config pairlist_df fd plan
                    (tiered_start e w) = Some (Return tt, st1) ->
  t_previous st1 = Some prev ->
  successful_results prev <> [] ->
  stage <> "A" ->
  tiered_stage float_repr stages tiered_config pairlist_df fd stage sched ts st1
  = Some (out, st2) ->
  t_all st2 = t_all st1
  /\ launched (t_world st2) = launched (t_world st1)
  /\ (t_previous st2 = Some [] \/ t_previous st2 = t_previous st1).
Proof.
  intros Hloop Hprev Hscored HA.
  assert (Hinv : tiered_inv st1).
  { eapply run_tiered_stages_inv; [|exact Hloop]. intros ? ? [=]. }
  unfold tiered_stage.
  destruct (get_stage_config stages stage) as [sc|ex] eqn:Hsc;
    [|intros [= <- <-]; auto].
  unfold run_stage. rewrite Hsc, Hprev. cbn [mbind outcome_bind].
  destruct (filter_ligands_for_stage _ _ _ _) as [kept|ex] eqn:Hf;
    cbn [mbind outcome_bind]; [|intros [= <- <-]; auto].
  destruct (length kept =? 0)%nat eqn:Hlen.
  { cbn. intros [= <- <-]. auto. }
  destruct (set_tiered_stage _ _ _) as [c'|ex];
    cbn [mret outcome_ret mbind outcome_bind]; [|intros [= <- <-]; auto].
  rewrite Hlen.
  destruct (run_parallel_docking _ _ _ _ _ _) as [[[out' e'] w']|] eqn:Hrun;
    [|discriminate].
  assert (Hidle : launched w' = launched (t_world st1)
                  /\ forall rs, out' = Return rs -> rs = []).
  { eapply run_on_ledger_rows_idle; [|exact Hrun].
    intros row Hrow. unfold startup_ledger, load_completed_pairs. cbn.
    apply elem_of_union. left.
    eapply filtered_rows_in_ledger; eauto. }
  destruct Hidle as [Hl Hrs].
  destruct out' as [rs|ex]; intros [= <- <-]; cbn.
  - rewrite (Hrs rs eq_refl). cbn. rewrite app_nil_r. auto.
  - auto.
Qed.

Lemma stage_after_scored_stage_docks_nothing_witness :
  exists st1 st2,
    @run_tiered_stages runtime_ok float_fraction default_stages
      default_tiered_config [row_rsl] None
      [("A", sched_one, "2026-01-02T00:00:01")]
      (tiered_start (new_engine default_config 4) (mkWorld ∅ []))
    = Some (Return tt, st1)
    /\ @tiered_stage runtime_ok float_fraction default_stages
         default_tiered_config [row_rsl] None "B" sched_skip_one
         "2026-01-03T00:00:01" st1
       = Some (Return tt, st2)
    /\ length (t_all st1) = 1
    /\ t_all st2 = t_all st1
    /\ launched (t_world st2) = launched (t_world st1)
    /\ (t_previous st2 = Some [] \/ t_previous st2 = t_previous st1).
Proof.
  eexists _, _. split; [vm_compute; reflexivity|].
  split; [vm_compute; reflexivity|]. split; [reflexivity|].
  eapply (@stage_after_scored_stage_docks_nothing runtime_ok float_fraction
            default_stages default_tiered_config [row_rsl] None
            [("A", sched_one, "2026-01-02T00:00:01")]
            (new_engine default_config 4) (mkWorld ∅ [])
            _ _ "B" sched_skip_one "2026-01-03T00:00:01" (Return tt) _).
  - vm_compute. reflexivity.
  - reflexivity.
  - intros Hc. vm_compute in Hc. discriminate Hc.
  - discriminate.
  - vm_compute. reflexivity.
Defined.

(* ================================================================== *)
(** ** Further properties: score-only mode *)
(* ================================================================== *)

(** X9. Score-only mode reports on every row and starts nothing.  On
    every disk and catalog [run_score_only] returns, with one entry per
    catalog row in catalog order, whatever the ledger holds: the entry
    of a row whose artifact is on disk is a success with the artifact's
    path and the scores that [parse_gnina_output] reads from it, the
    entry of any other row is an error without scores; no row is
    skipped. *)
Theorem run_score_only_reports_every_row `{Runtime} (d : FileSystem)
    (pairlist_df : list Row) :
  exists rs,
    run_score_only d pairlist_df = Return rs
    /\ so_pair_id <$> rs = pair_id <$> pairlist_df
    /\ Forall2
         (fun row r =>
            so_receptor r = receptor row /\ so_ligand r = ligand row
            /\ so_site_id r = site_id row /\ so_mode r = "score_only"
            /\ (is_Some (d !! artifact_path (key row)) ->
                so_status r = success
                /\ so_output_file r = Some (artifact_path (key row))
                /\ Return (default [] (so_scores r))
                   = parse_gnina_output d (artifact_path (key row))
                                        (log_file_of (pair_id row))
                /\ is_Some (so_scores r) /\ so_error r = None)
            /\ (d !! artifact_path (key row) = None ->
                so_status r = error /\ so_scores r = None
                /\ so_output_file r = None /\ is_Some (so_error r)))
         pairlist_df rs.
Proof.
  induction pairlist_df as [|row rows (rs & Hrun & Hids & Hall)].
  - exists []. repeat split. constructor.
  - cbn [run_score_only]. rewrite Hrun. unfold score_only_row.
    change (output_sdf_of (pair_id row)) with (artifact_path (key row)).
    unfold path_exists.
    destruct (d !! artifact_path (key row)) as [f|] eqn:Hfile.
    + rewrite bool_decide_true by eauto.
      rewrite parse_gnina_output_scores. cbn [mbind outcome_bind].
      eexists. split; [reflexivity|]. split; [cbn; now rewrite Hids|].
      constructor; [|exact Hall].
      cbn [so_receptor so_ligand so_site_id so_mode so_status so_output_file
           so_scores so_error default].
      do 4 (split; [reflexivity|]). split.
      * intros _. rewrite parse_gnina_output_scores. repeat split. eauto.
      * intros Hnone. rewrite Hnone in Hfile. discriminate.
    + rewrite bool_decide_false by (intros [? ?]; discriminate).
      cbn [mbind outcome_bind].
      eexists. split; [reflexivity|]. split; [cbn; now rewrite Hids|].
      constructor; [|exact Hall].
      cbn [so_receptor so_ligand so_site_id so_mode so_status so_output_file
           so_scores so_error default].
      do 4 (split; [reflexivity|]). split.
      * intros [x Hx]. rewrite Hfile in Hx. discriminate.
      * intros _. repeat split. eauto.
Qed.

Lemma run_score_only_reports_every_row_witness :
  @run_score_only runtime_ok disk_with_artifact
    [row_rsl; row_of "r" "s" "m"]
  = Return
      [ mkScoreOnly success "r" "l" "s" (Some "gnina_out/r_s_l_poses.sdf")
                    (Some [mkPose 1 (9 # 10) (9 # 10)]) None "r_s_l"
                    "score_only";
        mkScoreOnly error "r" "m" "s" None None
                    (Some "Output file not found: gnina_out/r_s_m_poses.sdf")
                    "r_s_m" "score_only" ].
Proof.
  destruct (@run_score_only_reports_every_row runtime_ok disk_with_artifact
              [row_rsl; row_of "r" "s" "m"]) as (rs & Hrun & _).
  rewrite Hrun. vm_compute in Hrun. injection Hrun as <-. reflexivity.
Defined.

(* ================================================================== *)
(** ** Further properties: the funnel filter *)
(* ================================================================== *)

Lemma filter_rows_pure (f : Row -> bool) (keep : Row -> outcome bool)
    (rows : list Row) :
  (forall row, row ∈ rows -> keep row = Return (f row)) ->
  filter_rows keep rows = Return (filter (fun row => f row = true) rows).
Proof.
  induction rows as [|row rows IH]; intros Hkeep; [reflexivity|].
  cbn [filter_rows]. rewrite (Hkeep row) by left.
  rewrite IH by (intros r Hr; apply Hkeep; now right).
  cbn [mbind outcome_bind mret outcome_ret]. rewrite filter_cons.
  destruct (f row); [now rewrite decide_True by reflexivity|].
  now rewrite decide_False by discriminate.
Qed.

Lemma filter_rows_app (keep : Row -> outcome bool) (l1 l2 kept : list Row) :
  filter_rows keep (l1 ++ l2) = Return kept ->
  exists k1 k2,
    filter_rows keep l1 = Return k1 /\ filter_rows keep l2 = Return k2
    /\ kept = k1 ++ k2.
Proof.
  revert kept. induction l1 as [|row l1 IH]; intros kept.
  - intros H. exists [], kept. auto.
  - cbn [app filter_rows].
    destruct (keep row) as [b|ex]; [|discriminate]. cbn [mbind outcome_bind].
    destruct (filter_rows keep (l1 ++ l2)) as [k|ex] eqn:Hk; [|discriminate].
    destruct (IH k eq_refl) as (k1 & k2 & -> & H2 & ->).
    cbn. intros [= <-]. exists (if b then row :: k1 else k1), k2.
    split; [reflexivity|]. split; [exact H2|]. now destruct b.
Qed.

Lemma filter_rows_idempotent (keep : Row -> outcome bool)
    (rows kept : list Row) :
  filter_rows keep rows = Return kept -> filter_rows keep kept = Return kept.
Proof.
  intros H. destruct (filter_rows_kept _ _ _ H) as [_ Hkeep].
  clear H. induction kept as [|row kept IH]; [reflexivity|].
  cbn [filter_rows]. rewrite (Hkeep row) by left.
  rewrite IH by (intros r Hr; apply Hkeep; now right). reflexivity.
Qed.

Lemma keeps_above_threshold (c : StageConfig) (df : list ScoreRow)
    (row : Row) :
  keeps c df row = Return true -> above_threshold c df row = true.
Proof.
  unfold keeps, above_threshold, best_of.
  destruct (sr_cnn_score <$> pair_scores df row) as [|s ss]; [discriminate|].
  destruct (Pd.Qltb (Pd.max_of s ss) (cnn_score_threshold c)) eqn:Hlt;
    [discriminate|].
  intros _. apply Qltb_false in Hlt. now apply Qle_bool_iff.
Qed.

Lemma keeps_threshold_only (c : StageConfig) (df : list ScoreRow) (row : Row) :
  max_ligands_per_receptor c = None -> top_percentage c = None ->
  keeps c df row = Return (above_threshold c df row).
Proof.
  intros Hcap Htop. unfold keeps, above_threshold, best_of.
  destruct (sr_cnn_score <$> pair_scores df row) as [|s ss]; [reflexivity|].
  rewrite Hcap, Htop. cbn.
  destruct (Pd.Qltb (Pd.max_of s ss) (cnn_score_threshold c)) eqn:Hlt.
  - apply Qltb_true in Hlt. f_equal. symmetry.
    destruct (Qle_bool _ _) eqn:Hle; [|reflexivity].
    apply Qle_bool_iff in Hle. lra.
  - apply Qltb_false in Hlt. f_equal. symmetry. now apply Qle_bool_iff.
Qed.

(** X10. The score threshold of a stage.  When a stage other than A
    filters on scored previous results, every row that it keeps has
    scores in those results, under its own receptor, ligand and site, and
    the best of them is at least the stage's [cnn_score_threshold]; when
    the stage has neither a cap nor a top percentage, the rows kept are
    exactly the rows with such a best score, in catalog order. *)
Theorem filter_keeps_rows_above_threshold
    (stages : gmap string StageConfig) (stage : string) (c : StageConfig)
    (prev : list Result) (pairlist_df kept : list Row) :
  stages !! stage = Some c -> stage <> "A" ->
  successful_results prev <> [] ->
  filter_ligands_for_stage stages stage (Some prev) pairlist_df = Return kept ->
  (forall row, row ∈ kept ->
     exists best,
       best_of (successful_results prev) row = Some best
       /\ (cnn_score_threshold c <= best)%Q)
  /\ (max_ligands_per_receptor c = None -> top_percentage c = None ->
      kept = filter (fun row => above_threshold c (successful_results prev) row
                                = true) pairlist_df).
Proof.
  intros Hc HA Hscored. unfold filter_ligands_for_stage, get_stage_config.
  rewrite Hc. cbn [mbind outcome_bind].
  apply String.eqb_neq in HA. rewrite HA.
  destruct prev as [|r0 prev0]; [now destruct Hscored|].
  destruct (successful_results (r0 :: prev0)) as [|sr df] eqn:Hdf;
    [now destruct Hscored|].
  intros Hfilter. split.
  - intros row Hrow.
    destruct (filter_rows_kept _ _ _ Hfilter) as [_ Hkeep].
    pose proof (keeps_above_threshold _ _ _ (Hkeep row Hrow)) as Hab.
    unfold above_threshold in Hab.
    destruct (best_of (sr :: df) row) as [best|]; [|discriminate].
    exists best. split; [reflexivity|]. now apply Qle_bool_iff.
  - intros Hcap Htop.
    rewrite (filter_rows_pure (above_threshold c (sr :: df))) in Hfilter.
    + now injection Hfilter as <-.
    + intros row _. now apply keeps_threshold_only.
Qed.

Lemma filter_keeps_rows_above_threshold_witness :
  exists best,
    best_of (successful_results group_of_five) (row_of "r" "site_1" "l1")
    = Some best
    /\ (1 # 2 <= best)%Q.
Proof.
  refine (proj1 (filter_keeps_rows_above_threshold
                   (only_stage_B (1 # 2) None (Some (2 # 10))) "B"
                   (mkStage "Focused Refinement" "refinement" 24 15 ""
                            (1 # 2) None (Some (2 # 10)) "")
                   group_of_five
                   (catalog_of "r" ["l1"; "l2"; "l3"; "l4"; "l5"])
                   (catalog_of "r" ["l1"]) _ _ _ _)
                (row_of "r" "site_1" "l1") _).
  - reflexivity.
  - discriminate.
  - intros Hc. vm_compute in Hc. discriminate Hc.
  - vm_compute. reflexivity.
  - left.
Defined.

(** X11. The filter decides row by row.  Whether a row is kept depends
    on the stage and on the previous results only, not on the other rows
    of the pair list: filtering a pair list made of two parts gives the
    rows kept from the first part followed by those kept from the second,
    and filtering the kept rows again keeps them all. *)
Theorem filter_decides_row_by_row
    (stages : gmap string StageConfig) (stage : string)
    (previous_results : option (list Result)) (rows1 rows2 kept : list Row) :
  filter_ligands_for_stage stages stage previous_results (rows1 ++ rows2)
  = Return kept ->
  (exists k1 k2,
     filter_ligands_for_stage stages stage previous_results rows1 = Return k1
     /\ filter_ligands_for_stage stages stage previous_results rows2
        = Return k2
     /\ kept = k1 ++ k2)
  /\ filter_ligands_for_stage stages stage previous_results kept = Return kept.
Proof.
  unfold filter_ligands_for_stage.
  destruct (get_stage_config stages stage) as [c|ex]; [|discriminate].
  cbn [mbind outcome_bind].
  assert (Hcopy : forall l1 l2 k : list Row,
            @Return (list Row) (l1 ++ l2) = Return k ->
            (exists k1 k2, @Return (list Row) l1 = Return k1
                           /\ @Return (list Row) l2 = Return k2
                           /\ k = k1 ++ k2)
            /\ @Return (list Row) k = Return k).
  { intros l1 l2 k [= <-]. split; [|reflexivity]. exists l1, l2. auto. }
  destruct (String.eqb stage "A"); [apply Hcopy|].
  destruct previous_results as [[|r0 prev]|]; [apply Hcopy| |apply Hcopy].
  destruct (successful_results (r0 :: prev)) as [|sr df]; [apply Hcopy|].
  intros Hfilter. split.
  - now apply filter_rows_app.
  - eapply filter_rows_idempotent; eauto.
Qed.

Lemma filter_decides_row_by_row_witness :
  filter_ligands_for_stage (only_stage_B (1 # 2) None (Some (2 # 10))) "B"
    (Some group_of_five) (catalog_of "r" ["l1"])
  = Return (catalog_of "r" ["l1"]).
Proof.
  refine (proj2 (filter_decides_row_by_row
                   (only_stage_B (1 # 2) None (Some (2 # 10))) "B"
                   (Some group_of_five)
                   (catalog_of "r" ["l1"; "l2"])
                   (catalog_of "r" ["l3"; "l4"; "l5"])
                   (catalog_of "r" ["l1"]) _)).
  vm_compute. reflexivity.
Defined.

(* ================================================================== *)
(** ** Further properties: the parameters of a stage *)
(* ================================================================== *)

Lemma filter_ligands_for_stage_sublist (stages : gmap string StageConfig)
    (stage : string) (previous_results : option (list Result))
    (pairlist_df kept : list Row) :
  filter_ligands_for_stage stages stage previous_results pairlist_df
  = Return kept ->
  kept `sublist_of` pairlist_df.
Proof.
  unfold filter_ligands_for_stage.
  destruct (get_stage_config stages stage) as [c|ex]; [|discriminate].
  cbn [mbind outcome_bind].
  destruct (String.eqb stage "A"); [now intros [= <-]|].
  destruct previous_results as [[|r0 prev]|]; try (now intros [= <-]).
  destruct (successful_results (r0 :: prev)) as [|sr df];
    [now intros [= <-]|].
  intros Hfilter. now destruct (filter_rows_kept _ _ _ Hfilter).
Qed.

(** X12. The parameters with which a stage docks.  In one turn of the
    stage loop, every child process that is started is the command of a
    row of the pair list under the configuration that [set_tiered_stage]
    has made for the stage: scoring mode, exhaustiveness and number of
    modes are those of the entry [stage_<lower-case stage>] of the
    configuration's [tiered_config] (not those of the workflow's stage
    table), every other setting is as before the stage; and when the turn
    ends without an exception after docking, the engine keeps that
    configuration. *)
Theorem stage_commands_use_tiered_config `{Runtime}
    (float_repr : Q -> string) (stages : gmap string StageConfig)
    (tiered_config : gmap string TierParams) (pairlist_df : list Row)
    (fd : option (gmap string (list string)))
    (stage : string) (sched : list Event) (ts : string)
    (st st' : Tiered) (out : outcome unit) (t : TierParams) :
  tiered_config !! ("stage_" +:+ str_lower stage) = Some t ->
  tiered_stage float_repr stages tiered_config pairlist_df fd stage sched ts st
  = Some (out, st') ->
  let c := config (t_engine st) in
  let c' := with_active c (tier_cnn_scoring t) (tier_exhaustiveness t)
                        (tier_num_modes t) (cpu_cores c) (use_gpu c)
                        (gpu_device c) in
  (exists cmds,
     launched (t_world st') = launched (t_world st) ++ cmds
     /\ forall cmd, cmd ∈ cmds ->
          exists row,
            row ∈ pairlist_df
            /\ cmd = (build_gnina_command c' row
                        (flexible_residues_of fd row)).1.1)
  /\ (out = Return tt -> st' = st \/ config (t_engine st') = c').
Proof.
  intros Ht. unfold tiered_stage.
  assert (Hsame : forall o,
            Some (o, st) = Some (out, st') ->
            (exists cmds,
               launched (t_world st') = launched (t_world st) ++ cmds
               /\ forall cmd, cmd ∈ cmds ->
                    exists row,
                      row ∈ pairlist_df
                      /\ cmd = (build_gnina_command
                                  (with_active (config (t_engine st))
                                     (tier_cnn_scoring t)
                                     (tier_exhaustiveness t)
                                     (tier_num_modes t)
                                     (cpu_cores (config (t_engine st)))
                                     (use_gpu (config (t_engine st)))
                                     (gpu_device (config (t_engine st))))
                                  row (flexible_residues_of fd row)).1.1)
            /\ (out = Return tt ->
                st' = st
                \/ config (t_engine st')
                   = with_active (config (t_engine st)) (tier_cnn_scoring t)
                    (tier_exhaustiveness t) (tier_num_modes t)
                    (cpu_cores (config (t_engine st)))
                    (use_gpu (config (t_engine st)))
                    (gpu_device (config (t_engine st))))).
  { intros o [= <- <-]. split; [|now left].
    exists []. split; [now rewrite app_nil_r|]. intros cmd Hc. inversion Hc. }
  destruct (get_stage_config stages stage) as [sc|ex] eqn:Hsc;
    [|apply Hsame].
  unfold run_stage. rewrite Hsc. cbn [mbind outcome_bind].
  destruct (filter_ligands_for_stage _ _ _ _) as [kept|ex] eqn:Hf;
    cbn [mbind outcome_bind]; [|apply Hsame].
  destruct (length kept =? 0)%nat eqn:Hlen.
  { cbn. apply Hsame. }
  unfold set_tiered_stage. rewrite Ht.
  cbn [mret outcome_ret mbind outcome_bind]. rewrite Hlen.
  set (c' := with_active _ _ _ _ _ _ _).
  destruct (run_parallel_docking _ _ _ _ _ _) as [[[out' e'] w']|] eqn:Hrun;
    [|discriminate].
  pose proof (filter_ligands_for_stage_sublist _ _ _ _ _ Hf) as Hsub.
  assert (Hcmds : exists cmds,
            launched w' = launched (t_world st) ++ cmds
            /\ forall cmd, cmd ∈ cmds ->
                 exists row,
                   row ∈ pairlist_df
                   /\ cmd = (build_gnina_command c' row
                               (flexible_residues_of fd row)).1.1).
  { destruct (run_parallel_docking_cases _ _ _ _ _ _ _ _ _ Hrun)
      as [[-> _] | (Hn & p & Hinv & _ & -> & _ & _)].
    - exists []. split; [now rewrite app_nil_r|]. intros cmd Hc. inversion Hc.
    - destruct (ri_launched Hinv) as (cmds & Hl & Hall).
      exists cmds. split; [exact Hl|]. intros cmd Hc.
      destruct (Hall cmd Hc) as (row & Hrow & _ & ->).
      exists row. split; [|reflexivity].
      rewrite (chunks_concat 5 kept Hn) in Hrow.
      eapply elem_of_sublist; eauto. }
  destruct out' as [rs|ex]; intros [= <- <-]; cbn [t_world t_engine launched];
    (split; [exact Hcmds|]).
  - intros _. right.
    destruct (ledger_config_kept _ _ _ _ _ _ _ _ _ Hrun) as [Hcfg _].
    exact Hcfg.
  - discriminate.
Qed.

Lemma stage_commands_use_tiered_config_witness :
  exists st',
    @tiered_stage runtime_ok float_fraction default_stages
      default_tiered_config [row_rsl] None "A" sched_one
      "2026-01-02T00:00:01"
      (tiered_start (new_engine default_config 4) (mkWorld ∅ []))
    = Some (Return tt, st')
    /\ st' <> tiered_start (new_engine default_config 4) (mkWorld ∅ [])
    /\ (exists cmds,
          launched (t_world st') = [] ++ cmds
          /\ forall cmd, cmd ∈ cmds ->
               exists row,
                 row ∈ [row_rsl]
                 /\ cmd = (build_gnina_command
                             (with_active default_config "rescore" 12 8 4
                                          false 0)
                             row None).1.1)
    /\ (Return tt = Return tt ->
        st' = tiered_start (new_engine default_config 4) (mkWorld ∅ [])
        \/ config (t_engine st')
           = with_active default_config "rescore" 12 8 4 false 0).
Proof.
  eexists. split; [vm_compute; reflexivity|].
  split; [intros Hc; apply (f_equal t_previous) in Hc; discriminate Hc|].
  refine (@stage_commands_use_tiered_config runtime_ok float_fraction
            default_stages default_tiered_config [row_rsl] None "A"
            sched_one "2026-01-02T00:00:01"
            (tiered_start (new_engine default_config 4) (mkWorld ∅ []))
            _ (Return tt) (mkTier "rescore" 12 8) _ _).
  - reflexivity.
  - vm_compute. reflexivity.
Defined.

(* ================================================================== *)
(** ** Further properties: reading back what [json.dump] has written *)
(* ================================================================== *)

Lemma digit_val_pretty_char (k : N) :
  (k < 10)%N -> Json.digit_val (pretty_N_char k) = Some (N.to_nat k).
Proof.
  intros Hk.
  assert (Hcases : (k = 0 \/ k = 1 \/ k = 2 \/ k = 3 \/ k = 4 \/ k = 5
                    \/ k = 6 \/ k = 7 \/ k = 8 \/ k = 9)%N) by lia.
  repeat (destruct Hcases as [->|Hcases]; [reflexivity|]).
  now subst k.
Qed.

(** A digit is none of the characters that start another kind of value or
    continue a number. *)
Lemma is_digit_char (c : ascii) :
  is_digit c = true ->
  Ascii.eqb c "-" = false /\ Ascii.eqb c "." = false
  /\ Ascii.eqb c Json.dquote = false /\ Ascii.eqb c "[" = false
  /\ Ascii.eqb c "{" = false /\ Ascii.eqb c "t" = false
  /\ Ascii.eqb c "f" = false /\ Ascii.eqb c "n" = false
  /\ Ascii.eqb c "]" = false /\ Ascii.eqb c "}" = false
  /\ Json.is_ws c = false.
Proof.
  destruct c as [[] [] [] [] [] [] [] []]; intros H;
    try discriminate H; repeat split.
Qed.

Lemma ends_value_cases (rest : list ascii) :
  ends_value rest ->
  rest = [] \/ (exists r, rest = ","%char :: r)
  \/ (exists r, rest = "010"%char :: r).
Proof.
  destruct rest as [|c r]; [now left|]. intros [->| ->]; right; eauto.
Qed.

Lemma read_digits_app (ds rest : list ascii) :
  forallb is_digit ds = true -> ends_value rest ->
  Json.read_digits (ds ++ rest) = (ds, rest).
Proof.
  intros Hds Hrest. induction ds as [|d ds IH].
  - destruct (ends_value_cases rest Hrest) as [->|[[r ->]|[r ->]]];
      reflexivity.
  - cbn in Hds. apply andb_true_iff in Hds as [Hd Hds].
    cbn [app Json.read_digits]. unfold is_digit in Hd.
    destruct (Json.digit_val d); [|discriminate]. now rewrite IH.
Qed.

Lemma read_digits_point (ds rest : list ascii) :
  forallb is_digit ds = true ->
  Json.read_digits (ds ++ "."%char :: rest) = (ds, "."%char :: rest).
Proof.
  intros Hds. induction ds as [|d ds IH]; [reflexivity|].
  cbn in Hds. apply andb_true_iff in Hds as [Hd Hds].
  cbn [app Json.read_digits]. unfold is_digit in Hd.
  destruct (Json.digit_val d); [|discriminate]. now rewrite IH.
Qed.

(** The digits that [str] gives for a number. *)
Lemma pretty_N_go_digits (x : N) :
  forall s,
    exists ds,
      list_ascii_of_string (pretty_N_go x s) = ds ++ list_ascii_of_string s
      /\ forallb is_digit ds = true
      /\ (forall acc,
            fold_left (fun a c => match Json.digit_val c with
                                  | Some d => (10 * a + Z.of_nat d)%Z
                                  | None => a
                                  end) ds acc
            = (acc * 10 ^ Z.of_nat (length ds) + Z.of_N x)%Z)
      /\ ((0 < x)%N -> exists d ds', ds = d :: ds' /\ d <> "0"%char).
Proof.
  induction (N.lt_wf_0 x) as [x _ IH]. intros s.
  destruct (decide (x = 0)%N) as [->|Hx].
  - exists []. rewrite pretty_N_go_0. repeat split.
    + intros acc. cbn. lia.
    + lia.
  - rewrite pretty_N_go_step by lia.
    assert (Hmod : (x `mod` 10 < 10)%N) by (apply N.mod_lt; lia).
    destruct (IH (x `div` 10)%N ltac:(apply N.div_lt; lia)
                 (String (pretty_N_char (x `mod` 10)) s))
      as (ds & Hds & Hdig & Hval & Hlead).
    exists (ds ++ [pretty_N_char (x `mod` 10)]). split; [|split; [|split]].
    + rewrite Hds. cbn. now rewrite <- app_assoc.
    + rewrite forallb_app, Hdig. cbn. unfold is_digit.
      now rewrite digit_val_pretty_char.
    + intros acc. rewrite fold_left_app, Hval. cbn [fold_left].
      rewrite digit_val_pretty_char by exact Hmod.
      rewrite length_app. cbn [length].
      rewrite Nat2Z.inj_add, Z.pow_add_r by lia.
      rewrite N_nat_Z.
      pose proof (N.div_mod x 10 ltac:(lia)) as Hdm.
      rewrite Hdm at 3. rewrite N2Z.inj_add, N2Z.inj_mul. cbn. lia.
    + intros _. destruct (decide (x `div` 10 = 0)%N) as [Hz|Hnz].
      * assert (ds = []) as ->.
        { rewrite Hz, pretty_N_go_0 in Hds. cbn in Hds.
          destruct ds as [|d ds]; [reflexivity|]. exfalso.
          apply (f_equal length) in Hds. cbn in Hds.
          rewrite length_app in Hds. cbn in Hds. lia. }
        cbn. eexists _, []. split; [reflexivity|].
        assert (Hsmall : (x < 10)%N).
        { destruct (decide (x < 10)%N); [assumption|].
          assert (1 <= x `div` 10)%N; [|lia].
          apply N.div_le_lower_bound; lia. }
        rewrite N.mod_small by exact Hsmall.
        assert (Hcases : (x = 1 \/ x = 2 \/ x = 3 \/ x = 4 \/ x = 5
                          \/ x = 6 \/ x = 7 \/ x = 8 \/ x = 9)%N) by lia.
        repeat (destruct Hcases as [->|Hcases]; [discriminate|]).
        subst x. discriminate.
      * destruct (Hlead (proj1 (N.neq_0_lt_0 _) Hnz)) as (d & ds' & -> & Hd).
        exists d, (ds' ++ [pretty_N_char (x `mod` 10)]). now split.
Qed.

Lemma pretty_Z_digits (z : Z) :
  (0 <= z)%Z ->
  exists d ds,
    list_ascii_of_string (pretty z) = d :: ds
    /\ forallb is_digit (d :: ds) = true
    /\ Json.digits_Z (d :: ds) = z
    /\ (d = "0"%char -> ds = []).
Proof.
  intros Hz. destruct z as [|p|p]; [|clear Hz|lia].
  - exists "0"%char, []. repeat split.
  - change (pretty (Z.pos p)) with (pretty_N_go (N.pos p) "").
    destruct (pretty_N_go_digits (N.pos p) "") as (ds & Hds & Hdig & Hval & Hl).
    destruct (Hl ltac:(lia)) as (d & ds' & -> & Hd).
    exists d, ds'. cbn in Hds. rewrite app_nil_r in Hds.
    split; [exact Hds|]. split; [exact Hdig|]. split; [|congruence].
    unfold Json.digits_Z. rewrite Hval. cbn. lia.
Qed.

(** An integer that is not negative is read back. *)
Lemma read_number_int (z : Z) (rest : list ascii) :
  (0 <= z)%Z -> ends_value rest ->
  Json.read_number (list_ascii_of_string (pretty z) ++ rest)
  = Some (Json.JInt z, rest).
Proof.
  intros Hz Hrest.
  destruct (pretty_Z_digits z Hz) as (d & ds & -> & Hdig & Hval & Hzero).
  pose proof Hdig as Hdig'. cbn in Hdig'.
  apply andb_true_iff in Hdig' as [Hd _].
  destruct (is_digit_char d Hd) as (Hminus & _).
  unfold Json.read_number. cbn [app]. rewrite Hminus.
  change (d :: ds ++ rest) with ((d :: ds) ++ rest).
  rewrite (read_digits_app (d :: ds) rest Hdig Hrest).
  assert (Hlead : Ascii.eqb d "0" && negb (Nat.eqb (length ds) 0) = false).
  { destruct (Ascii.eqb d "0") eqn:Hd0; [|reflexivity].
    apply Ascii.eqb_eq in Hd0. now rewrite (Hzero Hd0). }
  rewrite Hlead, Hval.
  destruct (ends_value_cases rest Hrest) as [->|[[r ->]|[r ->]]]; reflexivity.
Qed.

(** A plain decimal literal is read back as the same literal. *)
Lemma read_number_literal (l : string) (rest : list ascii) :
  decimal_literal l -> ends_value rest ->
  Json.read_number (list_ascii_of_string l ++ rest)
  = Some (Json.JLit l, rest).
Proof.
  intros (ip & fp & Hl & Hip & Hfp & Hdi & Hdf & Hzero) Hrest.
  rewrite Hl. destruct ip as [|d ds]; [now destruct Hip|].
  destruct fp as [|f fs]; [now destruct Hfp|].
  pose proof Hdi as Hdi'. cbn in Hdi'.
  apply andb_true_iff in Hdi' as [Hd _].
  destruct (is_digit_char d Hd) as (Hminus & _).
  unfold Json.read_number. rewrite <- app_assoc. cbn [app]. rewrite Hminus.
  change (d :: ds ++ "."%char :: f :: fs ++ rest)
    with ((d :: ds) ++ "."%char :: (f :: fs) ++ rest).
  rewrite (read_digits_point (d :: ds) _ Hdi).
  assert (Hlead : Ascii.eqb d "0" && negb (Nat.eqb (length ds) 0) = false).
  { destruct (Ascii.eqb d "0") eqn:Hd0; [|reflexivity].
    apply Ascii.eqb_eq in Hd0. subst d.
    specialize (Hzero eq_refl). cbn in Hzero.
    now destruct ds. }
  rewrite Hlead. cbn [Ascii.eqb Bool.eqb].
  rewrite (read_digits_app (f :: fs) rest Hdf Hrest).
  assert (Htext : string_of_list_ascii
                    ([] ++ (d :: ds) ++ ("."%char :: f :: fs) ++ []) = l).
  { rewrite app_nil_r. cbn [app].
    change (d :: ds ++ "."%char :: f :: fs)
      with ((d :: ds) ++ "."%char :: f :: fs).
    rewrite <- Hl. apply string_of_list_ascii_of_string. }
  destruct (ends_value_cases rest Hrest) as [->|[[r ->]|[r ->]]];
    cbn; now rewrite <- Htext.
Qed.

(** One escaped character is read back as the character. *)
Lemma read_string_escape_char (c : ascii) (tl : list ascii) :
  Json.read_string 0 (list_ascii_of_string (Json.escape_char c) ++ tl)
  = match Json.read_string 0 tl with
    | Some (t, r) => Some (String c t, r)
    | None => None
    end.
Proof. destruct c as [[] [] [] [] [] [] [] []]; reflexivity. Qed.

(** A string literal is read back as the string, whatever its
    characters. *)
Lemma read_string_escape (s : string) (rest : list ascii) :
  Json.read_string 0
    (list_ascii_of_string (Json.escape s) ++ Json.dquote :: rest)
  = Some (s, rest).
Proof.
  induction s as [|c s IH]; [reflexivity|].
  cbn [Json.escape]. rewrite list_ascii_of_string_append, <- app_assoc.
  now rewrite read_string_escape_char, IH.
Qed.

Lemma skip_ws_app (ws tl : list ascii) :
  forallb Json.is_ws ws = true -> Json.skip_ws (ws ++ tl) = Json.skip_ws tl.
Proof.
  induction ws as [|c ws IH]; [reflexivity|]. cbn [forallb].
  intros [Hc Hws]%andb_true_iff. cbn [app Json.skip_ws]. rewrite Hc. auto.
Qed.

Lemma spaces_ws (n : nat) :
  forallb Json.is_ws (list_ascii_of_string (Json.spaces n)) = true.
Proof. induction n as [|n IH]; [reflexivity | exact IH]. Qed.

Lemma newline_ws (lvl : nat) :
  forallb Json.is_ws (list_ascii_of_string (Json.newline lvl)) = true.
Proof. unfold Json.newline. cbn. apply spaces_ws. Qed.

Lemma newline_ends_value (lvl : nat) (tl : list ascii) :
  ends_value (list_ascii_of_string (Json.newline lvl) ++ tl).
Proof. unfold Json.newline. cbn. now right. Qed.

(** The text of a joined list: the first text, then each further text
    after the separator. *)
Lemma concat_text (sep x : string) (l : list string) :
  list_ascii_of_string (String.concat sep (x :: l))
  = list_ascii_of_string x
    ++ flat_map (fun y => list_ascii_of_string sep ++ list_ascii_of_string y) l.
Proof.
  revert x. induction l as [|y l IH]; intros x.
  - cbn. now rewrite app_nil_r.
  - cbn [String.concat flat_map].
    change (list_ascii_of_string (x ++ sep ++ String.concat sep (y :: l))%string
            = list_ascii_of_string x
              ++ (list_ascii_of_string sep ++ list_ascii_of_string y)
              ++ flat_map (fun y0 => list_ascii_of_string sep
                                     ++ list_ascii_of_string y0) l).
    rewrite !list_ascii_of_string_append, IH. now rewrite <- !app_assoc.
Qed.

Lemma quote_text (k : string) :
  list_ascii_of_string (Json.quote k)
  = Json.dquote :: list_ascii_of_string (Json.escape k) ++ [Json.dquote].
Proof.
  unfold Json.quote. cbn [list_ascii_of_string].
  now rewrite list_ascii_of_string_append.
Qed.

(** What a further item of an array, or a further member of an object,
    is followed by. *)
Lemma more_ends_value (sep : string) (texts : list string)
    (lvl : nat) (tl : list ascii) :
  ends_value
    (flat_map (fun y => list_ascii_of_string ("," +:+ sep)
                        ++ list_ascii_of_string y) texts
     ++ list_ascii_of_string (Json.newline lvl) ++ tl).
Proof.
  destruct texts as [|y texts]; [apply newline_ends_value|]. cbn. now left.
Qed.

Lemma read_items_text (value : list ascii -> option (Json.json * list ascii))
    (lvl : nat) (vs : list Json.json) :
  forall n rest,
    length vs < n ->
    (forall v r, v ∈ vs -> ends_value r ->
       value (list_ascii_of_string (Json.newline (S lvl))
              ++ list_ascii_of_string (Json.dumps_at (S lvl) v) ++ r)
       = Some (v, r)) ->
    Json.read_items value n
      (flat_map (fun y => list_ascii_of_string ("," +:+ Json.newline (S lvl))
                          ++ list_ascii_of_string y)
                (map (Json.dumps_at (S lvl)) vs)
       ++ list_ascii_of_string (Json.newline lvl) ++ "]"%char :: rest)
    = Some (vs, rest).
Proof.
  induction vs as [|v vs IH]; intros n rest Hn Hval;
    (destruct n as [|n]; [cbn in Hn; lia|]).
  - cbn [map flat_map app Json.read_items].
    rewrite skip_ws_app by apply newline_ws. reflexivity.
  - cbn [map flat_map].
    change (list_ascii_of_string ("," +:+ Json.newline (S lvl)))
      with (","%char :: list_ascii_of_string (Json.newline (S lvl))).
    rewrite <- !app_assoc. cbn [app].
    change (Json.read_items value (S n) (","%char :: ?t))
      with (match value t with
            | Some (v0, r') =>
                match Json.read_items value n r' with
                | Some (vs0, r'') => Some (v0 :: vs0, r'')
                | None => None
                end
            | None => None
            end).
    rewrite Hval; [|left|apply more_ends_value].
    rewrite IH; [reflexivity|cbn in Hn; lia|].
    intros v0 r Hv0 Hr. apply Hval; [now right|exact Hr].
Qed.

Lemma read_member_text (value : list ascii -> option (Json.json * list ascii))
    (k : string) (text : string) (v : Json.json) (ws r : list ascii) :
  forallb Json.is_ws ws = true ->
  value (" "%char :: list_ascii_of_string text ++ r) = Some (v, r) ->
  Json.read_member value
    (ws ++ list_ascii_of_string (Json.quote k +:+ ": " +:+ text) ++ r)
  = Some (k, v, r).
Proof.
  intros Hws Hval. unfold Json.read_member. rewrite skip_ws_app by exact Hws.
  rewrite !list_ascii_of_string_append, quote_text.
  rewrite <- !app_assoc. cbn [app list_ascii_of_string].
  change (Json.skip_ws (Json.dquote :: ?t)) with (Json.dquote :: t).
  change (Ascii.eqb Json.dquote Json.dquote) with true. cbv iota.
  rewrite <- !app_assoc. cbn [app].
  rewrite read_string_escape. cbn [Json.skip_ws].
  change (Json.is_ws ":") with false. cbv iota.
  change (Ascii.eqb ":" ":") with true. cbv iota.
  now rewrite Hval.
Qed.

Lemma read_members_text
    (value : list ascii -> option (Json.json * list ascii))
    (lvl : nat) (ms : list (string * Json.json)) :
  forall n rest,
    length ms < n ->
    (forall kv r, kv ∈ ms -> ends_value r ->
       value (" "%char :: list_ascii_of_string (Json.dumps_at (S lvl) (snd kv))
              ++ r)
       = Some (snd kv, r)) ->
    Json.read_members value n
      (flat_map (fun y => list_ascii_of_string ("," +:+ Json.newline (S lvl))
                          ++ list_ascii_of_string y)
                (map (fun kv => Json.quote (fst kv) +:+ ": "
                                +:+ Json.dumps_at (S lvl) (snd kv)) ms)
       ++ list_ascii_of_string (Json.newline lvl) ++ "}"%char :: rest)
    = Some (ms, rest).
Proof.
  induction ms as [|[k v] ms IH]; intros n rest Hn Hval;
    (destruct n as [|n]; [cbn in Hn; lia|]).
  - cbn [map flat_map app Json.read_members].
    rewrite skip_ws_app by apply newline_ws. reflexivity.
  - cbn [map flat_map fst snd].
    change (list_ascii_of_string ("," +:+ Json.newline (S lvl)))
      with (","%char :: list_ascii_of_string (Json.newline (S lvl))).
    rewrite <- !app_assoc. cbn [app].
    change (Json.read_members value (S n) (","%char :: ?t))
      with (match Json.read_member value t with
            | Some (key0, v0, r') =>
                match Json.read_members value n r' with
                | Some (ms0, r'') => Some ((key0, v0) :: ms0, r'')
                | None => None
                end
            | None => None
            end).
    rewrite (read_member_text value k _ v); [|apply newline_ws|].
    + rewrite IH; [reflexivity|cbn in Hn; lia|].
      intros kv r Hkv Hr. apply Hval; [now right|exact Hr].
    + apply (Hval (k, v)); [left|apply more_ends_value].
Qed.

Lemma read_value_skip (f : nat) (ws tl : list ascii) :
  forallb Json.is_ws ws = true ->
  Json.read_value f (ws ++ tl) = Json.read_value f tl.
Proof.
  intros Hws. destruct f as [|f]; [reflexivity|].
  cbn [Json.read_value]. now rewrite skip_ws_app by exact Hws.
Qed.

Lemma read_value_digit (f : nat) (d : ascii) (tl : list ascii) :
  is_digit d = true ->
  Json.read_value (S f) (d :: tl) = Json.read_number (d :: tl).
Proof.
  intros Hd.
  destruct (is_digit_char d Hd)
    as (_ & _ & Hq & Hb & Hc & Ht & Hf & Hn & _ & _ & Hws).
  cbn [Json.read_value Json.skip_ws].
  now rewrite Hws, Hq, Hb, Hc, Ht, Hf, Hn.
Qed.

Lemma read_value_string (f : nat) (tl : list ascii) :
  Json.read_value (S f) (Json.dquote :: tl)
  = match Json.read_string 0 tl with
    | Some (t, r') => Some (Json.JStr t, r')
    | None => None
    end.
Proof. reflexivity. Qed.

Lemma read_value_array (f : nat) (tl : list ascii) :
  Json.read_value (S f) ("["%char :: tl)
  = match Json.skip_ws tl with
    | d :: r' =>
        if Ascii.eqb d "]"%char then Some (Json.JArr [], r')
        else match Json.read_value f tl with
             | Some (v, r1) =>
                 match Json.read_items (Json.read_value f) (S (length r1)) r1
                 with
                 | Some (vs, r2) => Some (Json.JArr (v :: vs), r2)
                 | None => None
                 end
             | None => None
             end
    | [] => None
    end.
Proof. reflexivity. Qed.

Lemma read_value_object (f : nat) (tl : list ascii) :
  Json.read_value (S f) ("{"%char :: tl)
  = match Json.skip_ws tl with
    | d :: r' =>
        if Ascii.eqb d "}"%char then Some (Json.JObj [], r')
        else match Json.read_member (Json.read_value f) tl with
             | Some (k, v, r1) =>
                 match Json.read_members (Json.read_value f)
                                         (S (length r1)) r1 with
                 | Some (ms, r2) => Some (Json.JObj ((k, v) :: ms), r2)
                 | None => None
                 end
             | None => None
             end
    | [] => None
    end.
Proof. reflexivity. Qed.

(** The text of an array and of an object that are not empty. *)
Lemma dumps_array_text (lvl : nat) (v : Json.json) (vs : list Json.json) :
  list_ascii_of_string (Json.dumps_at lvl (Json.JArr (v :: vs)))
  = "["%char :: list_ascii_of_string (Json.newline (S lvl))
    ++ list_ascii_of_string (Json.dumps_at (S lvl) v)
    ++ flat_map (fun y => list_ascii_of_string ("," +:+ Json.newline (S lvl))
                          ++ list_ascii_of_string y)
                (map (Json.dumps_at (S lvl)) vs)
    ++ list_ascii_of_string (Json.newline lvl) ++ ["]"%char].
Proof.
  change (Json.dumps_at lvl (Json.JArr (v :: vs)))
    with ("[" +:+ Json.newline (S lvl)
          +:+ String.concat ("," +:+ Json.newline (S lvl))
                (Json.dumps_at (S lvl) v :: map (Json.dumps_at (S lvl)) vs)
          +:+ Json.newline lvl +:+ "]").
  rewrite !list_ascii_of_string_append, concat_text.
  now rewrite <- !app_assoc.
Qed.

Lemma dumps_object_text (lvl : nat) (k : string) (v : Json.json)
    (ms : list (string * Json.json)) :
  list_ascii_of_string (Json.dumps_at lvl (Json.JObj ((k, v) :: ms)))
  = "{"%char :: list_ascii_of_string (Json.newline (S lvl))
    ++ list_ascii_of_string (Json.quote k +:+ ": " +:+ Json.dumps_at (S lvl) v)
    ++ flat_map (fun y => list_ascii_of_string ("," +:+ Json.newline (S lvl))
                          ++ list_ascii_of_string y)
                (map (fun kv => Json.quote (fst kv) +:+ ": "
                                +:+ Json.dumps_at (S lvl) (snd kv)) ms)
    ++ list_ascii_of_string (Json.newline lvl) ++ ["}"%char].
Proof.
  change (Json.dumps_at lvl (Json.JObj ((k, v) :: ms)))
    with ("{" +:+ Json.newline (S lvl)
          +:+ String.concat ("," +:+ Json.newline (S lvl))
                ((Json.quote k +:+ ": " +:+ Json.dumps_at (S lvl) v)
                 :: map (fun kv => Json.quote (fst kv) +:+ ": "
                                   +:+ Json.dumps_at (S lvl) (snd kv)) ms)
          +:+ Json.newline lvl +:+ "}").
  rewrite (list_ascii_of_string_append "{"),
    (list_ascii_of_string_append (Json.newline (S lvl))),
    (list_ascii_of_string_append (String.concat _ _)),
    (list_ascii_of_string_append (Json.newline lvl)), concat_text.
  now rewrite <- !app_assoc.
Qed.

(** The text of a value starts with a character that is no blank and
    closes nothing. *)
Lemma dumps_first (lvl : nat) (v : Json.json) :
  plain v ->
  exists c t,
    list_ascii_of_string (Json.dumps_at lvl v) = c :: t
    /\ Json.is_ws c = false
    /\ Ascii.eqb c "]" = false /\ Ascii.eqb c "}" = false.
Proof.
  intros Hp. destruct v as [|[]|z|l|s|[|v vs]|[|[k v] ms]];
    try (eexists _, _; split; [reflexivity|]; now repeat split).
  - destruct (pretty_Z_digits z Hp) as (d & ds & Htext & Hdig & _).
    cbn in Hdig. apply andb_true_iff in Hdig as [Hd _].
    destruct (is_digit_char d Hd) as (_ & _ & _ & _ & _ & _ & _ & _ & ? & ? & ?).
    exists d, ds. cbn [Json.dumps_at]. now rewrite Htext.
  - destruct Hp as (ip & fp & Hl & Hip & _ & Hdig & _).
    destruct ip as [|d ds]; [now destruct Hip|].
    cbn in Hdig. apply andb_true_iff in Hdig as [Hd _].
    destruct (is_digit_char d Hd) as (_ & _ & _ & _ & _ & _ & _ & _ & ? & ? & ?).
    exists d, (ds ++ "."%char :: fp). cbn [Json.dumps_at]. now rewrite Hl.
Qed.

Lemma plain_items (items : list Json.json) :
  plain (Json.JArr items) -> forall v, v ∈ items -> plain v.
Proof.
  induction items as [|i items IH]; intros Hp v Hv.
  - now apply elem_of_nil in Hv.
  - destruct Hp as [Hi Hp]. apply elem_of_cons in Hv as [->|Hv];
      [exact Hi | now apply IH].
Qed.

Lemma plain_members (ms : list (string * Json.json)) :
  plain (Json.JObj ms) -> forall kv, kv ∈ ms -> plain (snd kv).
Proof.
  induction ms as [|m ms IH]; intros Hp kv Hkv.
  - now apply elem_of_nil in Hkv.
  - destruct Hp as [Hm Hp]. apply elem_of_cons in Hkv as [->|Hkv];
      [exact Hm | now apply IH].
Qed.

Lemma depth_items (items : list Json.json) (n : nat) :
  depth (Json.JArr items) <= S n -> forall v, v ∈ items -> depth v <= n.
Proof.
  induction items as [|i items IH]; intros Hd v Hv.
  - now apply elem_of_nil in Hv.
  - change (depth (Json.JArr (i :: items)))
      with (S (Nat.max (depth i) (Nat.pred (depth (Json.JArr items))))) in Hd.
    apply elem_of_cons in Hv as [->|Hv]; [lia|].
    apply IH; [|exact Hv].
    change (depth (Json.JArr items))
      with (S (Nat.pred (depth (Json.JArr items)))). lia.
Qed.

Lemma depth_members (ms : list (string * Json.json)) (n : nat) :
  depth (Json.JObj ms) <= S n -> forall kv, kv ∈ ms -> depth (snd kv) <= n.
Proof.
  induction ms as [|m ms IH]; intros Hd kv Hkv.
  - now apply elem_of_nil in Hkv.
  - change (depth (Json.JObj (m :: ms)))
      with (S (Nat.max (depth (snd m)) (Nat.pred (depth (Json.JObj ms))))) in Hd.
    apply elem_of_cons in Hkv as [->|Hkv]; [lia|].
    apply IH; [|exact Hkv].
    change (depth (Json.JObj ms))
      with (S (Nat.pred (depth (Json.JObj ms)))). lia.
Qed.

(** The bound that the reader puts on the number of further items is
    enough for the text of any list of them. *)
Lemma items_fuel {A} (g : A -> string) (sep : string) (l : list A)
    (tl : list ascii) :
  length l
  <= length (flat_map (fun y => list_ascii_of_string ("," +:+ sep)
                                ++ list_ascii_of_string y) (map g l) ++ tl).
Proof.
  induction l as [|x l IH]; [cbn; lia|].
  cbn [map flat_map]. rewrite <- !app_assoc.
  rewrite !length_app in *.
  change (length (list_ascii_of_string ("," +:+ sep)))
    with (S (length (list_ascii_of_string sep))).
  change (length (x :: l)) with (S (length l)). lia.
Qed.

Lemma skip_ws_dumps (lvl : nat) (v : Json.json) (ws : list ascii) :
  plain v -> forallb Json.is_ws ws = true ->
  exists c t,
    Ascii.eqb c "]" = false
    /\ forall tl,
         Json.skip_ws (ws ++ list_ascii_of_string (Json.dumps_at lvl v) ++ tl)
         = c :: t ++ tl.
Proof.
  intros Hp Hws. destruct (dumps_first lvl v Hp) as (c & t & Htext & Hc & Hb & _).
  exists c, t. split; [exact Hb|]. intros tl.
  rewrite skip_ws_app by exact Hws. rewrite Htext. cbn [app Json.skip_ws].
  now rewrite Hc.
Qed.

Lemma skip_ws_member (ws : list ascii) (k text : string) (tl : list ascii) :
  forallb Json.is_ws ws = true ->
  Json.skip_ws (ws ++ list_ascii_of_string (Json.quote k +:+ text) ++ tl)
  = Json.dquote :: list_ascii_of_string (Json.escape k)
    ++ Json.dquote :: list_ascii_of_string text ++ tl.
Proof.
  intros Hws. rewrite skip_ws_app by exact Hws.
  rewrite list_ascii_of_string_append, quote_text.
  cbn [app Json.skip_ws]. change (Json.is_ws Json.dquote) with false.
  cbv iota. now rewrite <- !app_assoc.
Qed.

(** The reader gives back a plain value from its text, whatever blanks
    precede the text, when what follows may follow a value. *)
Lemma read_value_dumps (n : nat) :
  forall (v : Json.json) (lvl : nat) (ws rest : list ascii),
    depth v <= n -> plain v -> forallb Json.is_ws ws = true ->
    ends_value rest ->
    Json.read_value n
      (ws ++ list_ascii_of_string (Json.dumps_at lvl v) ++ rest)
    = Some (v, rest).
Proof.
  induction n as [|f IH]; intros v lvl ws rest Hd Hp Hws Hrest.
  - destruct v; cbn in Hd; lia.
  - rewrite read_value_skip by exact Hws.
    destruct v as [| [] |z|l|s|[|v vs]|[|[k v] ms]].
    + reflexivity.
    + reflexivity.
    + reflexivity.
    + pose proof (read_number_int z rest Hp Hrest) as Hnum.
      destruct (pretty_Z_digits z Hp) as (d & ds & Htext & Hdig & _).
      cbn [Json.dumps_at]. rewrite Htext in Hnum |- *. cbn [app] in Hnum |- *.
      cbn in Hdig. apply andb_true_iff in Hdig as [Hdigit _].
      now rewrite read_value_digit.
    + pose proof (read_number_literal l rest Hp Hrest) as Hnum.
      destruct Hp as (ip & fp & Hl & Hip & _ & Hdig & _).
      destruct ip as [|d ds]; [now destruct Hip|].
      cbn [Json.dumps_at]. rewrite Hl in Hnum |- *. cbn [app] in Hnum |- *.
      cbn in Hdig. apply andb_true_iff in Hdig as [Hdigit _].
      now rewrite read_value_digit.
    + cbn [Json.dumps_at]. rewrite quote_text. cbn [app].
      rewrite <- app_assoc. cbn [app].
      now rewrite read_value_string, read_string_escape.
    + reflexivity.
    + assert (Hpv : plain v) by (apply (plain_items _ Hp); left).
      assert (Hdv : depth v <= f) by (apply (depth_items _ _ Hd); left).
      rewrite dumps_array_text. cbn [app]. rewrite <- !app_assoc. cbn [app].
      rewrite read_value_array.
      destruct (skip_ws_dumps (S lvl) v _ Hpv (newline_ws (S lvl)))
        as (c & t & Hb & Hskip).
      rewrite Hskip, Hb.
      rewrite IH;
        [|exact Hdv|exact Hpv|apply newline_ws|apply more_ends_value].
      rewrite read_items_text; [reflexivity|apply Nat.lt_succ_r, items_fuel|].
      intros v0 r Hv0 Hr. apply IH; [|now apply (plain_items _ Hp); right
                                     |apply newline_ws|exact Hr].
      apply (depth_items _ _ Hd). now right.
    + reflexivity.
    + assert (Hpv : plain v) by (apply (plain_members _ Hp (k, v)); left).
      assert (Hdv : depth v <= f) by (apply (depth_members _ _ Hd (k, v)); left).
      rewrite dumps_object_text. cbn [app]. rewrite <- !app_assoc. cbn [app].
      rewrite read_value_object.
      rewrite skip_ws_member by apply newline_ws.
      change (Ascii.eqb Json.dquote "}") with false. cbv iota.
      rewrite (read_member_text (Json.read_value f) k _ v);
        [|apply newline_ws|].
      * rewrite read_members_text;
          [reflexivity|apply Nat.lt_succ_r, items_fuel|].
        intros kv r Hkv Hr. apply (IH (snd kv) (S lvl) [" "%char]);
          [|now apply (plain_members _ Hp); right|reflexivity|exact Hr].
        apply (depth_members _ _ Hd). now right.
      * apply (IH v (S lvl) [" "%char]);
          [exact Hdv|exact Hpv|reflexivity|apply more_ends_value].
Qed.

(** [json.loads] gives back a plain value from the text that [json.dumps]
    makes of it. *)
Lemma loads_dumps (v : Json.json) :
  plain v ->
  depth v <= S (length (list_ascii_of_string (Json.dumps v))) ->
  Json.loads (Json.dumps v) = Return v.
Proof.
  intros Hp Hd. unfold Json.loads.
  pose proof (read_value_dumps _ v 0 [] [] Hd Hp eq_refl I) as Hread.
  cbn [app] in Hread. rewrite app_nil_r in Hread.
  fold (Json.dumps v) in Hread. now rewrite Hread.
Qed.

Lemma plain_strings (l : list string) : plain (Json.JArr (Json.JStr <$> l)).
Proof. induction l as [|x l IH]; [exact I | split; [exact I | exact IH]]. Qed.

Lemma depth_strings (l : list string) :
  depth (Json.JArr (Json.JStr <$> l)) <= 2.
Proof.
  induction l as [|x l IH]; [cbn; lia|].
  change (depth (Json.JArr (Json.JStr <$> x :: l)))
    with (S (Nat.max 1 (Nat.pred (depth (Json.JArr (Json.JStr <$> l)))))).
  lia.
Qed.

Lemma docking_state_plain (e : Engine) (timestamp : string)
    (res : list Result) :
  decimal_literal (min_rmsd_filter (config e)) ->
  plain (docking_state e timestamp res).
Proof.
  intros Hlit. unfold docking_state, active_config_json.
  split; [exact I|]. split; [apply Nat2Z.is_nonneg|].
  split; [apply plain_strings|]. split; [apply Nat2Z.is_nonneg|].
  split; [|exact I].
  cbn [plain fold_right snd].
  repeat (split; [first [exact I | apply Nat2Z.is_nonneg | exact Hlit]|]).
  exact I.
Qed.

Lemma docking_state_depth (e : Engine) (timestamp : string)
    (res : list Result) :
  depth (docking_state e timestamp res) <= 3.
Proof.
  pose proof (depth_strings (elements (completed_pairs e))) as Hkeys.
  unfold docking_state, active_config_json.
  change (depth (Json.JObj ?ms))
    with (S (fold_right (fun kv acc => Nat.max (depth (snd kv)) acc) 0 ms)).
  cbn [fold_right snd].
  change (depth (Json.JStr timestamp)) with 1.
  change (depth (Json.JInt ?z)) with 1.
  change (depth (Json.JObj ?ms))
    with (S (fold_right (fun kv acc => Nat.max (depth (snd kv)) acc) 0 ms)).
  cbn [fold_right snd].
  change (depth (Json.JStr ?s)) with 1.
  change (depth (Json.JInt ?z)) with 1.
  change (depth (Json.JBool ?b)) with 1.
  change (depth (Json.JLit ?l)) with 1.
  lia.
Qed.

(** The text of the ledger file is read back as the state it was made
    from. *)
Lemma loads_docking_state (e : Engine) (timestamp : string)
    (res : list Result) :
  decimal_literal (min_rmsd_filter (config e)) ->
  Json.loads (Json.dumps (docking_state e timestamp res))
  = Return (docking_state e timestamp res).
Proof.
  intros Hlit. apply loads_dumps; [now apply docking_state_plain|].
  pose proof (docking_state_depth e timestamp res) as Hd.
  unfold Json.dumps, docking_state at 2. rewrite dumps_object_text.
  cbn [Json.newline Json.spaces Nat.mul Nat.add list_ascii_of_string app length].
  lia.
Qed.

(** [load_docking_state] on a disk whose ledger file holds a text that
    [json.loads] reads as [state]. *)
Lemma load_docking_state_text (e0 : Engine) (d : FileSystem)
    (text : string) (state : Json.json) :
  d !! state_file = Some (Text text) ->
  Json.loads text = Return state ->
  load_docking_state e0 d
  = match state with
    | Json.JObj members =>
        keys ← match Json.get "completed_pairs" members with
               | Some v => set_of_json v
               | None => Return ∅
               end;
        let total := match Json.get "total_pairs" members with
                     | Some (Json.JInt z) => Z.to_nat z
                     | _ => 0
                     end in
        Return (true, set_total (set_completed e0 keys) total)
    | _ => Raise (AttributeError "object has no attribute 'get'")
    end.
Proof.
  intros Hfile Hloads. unfold load_docking_state, path_exists, read_text.
  rewrite Hfile, bool_decide_true by eauto.
  cbn [mbind outcome_bind]. now rewrite Hloads.
Qed.

(** What [load_docking_state] makes of a disk whose ledger file holds the
    text of a state. *)
Lemma load_ledger_text (e0 e : Engine) (timestamp : string)
    (res : list Result) (d : FileSystem) :
  decimal_literal (min_rmsd_filter (config e)) ->
  d !! state_file = Some (Text (Json.dumps (docking_state e timestamp res))) ->
  load_docking_state e0 d
  = Return (true, set_total (set_completed e0 (completed_pairs e))
                            (total_pairs e)).
Proof.
  intros Hlit Hfile.
  rewrite (load_docking_state_text e0 d _ _ Hfile
             (loads_docking_state e timestamp res Hlit)).
  clear Hfile. unfold docking_state.
  change (Json.get "completed_pairs" _)
    with (Some (Json.JArr (Json.JStr <$> elements (completed_pairs e)))).
  change (Json.get "total_pairs" _)
    with (Some (Json.JInt (Z.of_nat (total_pairs e)))).
  cbv iota. rewrite set_of_json_elements.
  cbn [mbind outcome_bind mret outcome_ret].
  rewrite Nat2Z.id. reflexivity.
Qed.

(** X13. The ledger file is read back.  When the [min_rmsd_filter] of the
    configuration prints as a plain decimal, the text that
    [save_docking_state] writes is read by [json.loads] as the state it was
    made from, and [load_docking_state], run by any engine on the disk that
    the save leaves, returns True with the saved ledger as
    [completed_pairs] and the saved count as [total_pairs]; the engine's
    configuration, worker count and results stay its own. *)
Theorem saved_ledger_is_loaded (e e0 : Engine) (timestamp : string)
    (res : list Result) (d : FileSystem) :
  decimal_literal (min_rmsd_filter (config e)) ->
  Json.loads (Json.dumps (docking_state e timestamp res))
  = Return (docking_state e timestamp res)
  /\ load_docking_state e0 (save_docking_state e timestamp res d)
     = Return (true,
               {| config := config e0; max_workers := max_workers e0;
                  completed_pairs := completed_pairs e;
                  total_pairs := total_pairs e; results := results e0 |}).
Proof.
  intros Hlit. split; [now apply loads_docking_state|].
  apply (load_ledger_text e0 e timestamp res); [exact Hlit|].
  unfold save_docking_state, save_docking_state_upto. cbn [disk_at].
  apply lookup_insert_eq.
Qed.

Lemma saved_ledger_is_loaded_witness :
  load_docking_state (new_engine default_config 4)
    (save_docking_state engine_one_done "2026-01-02T00:00:00" [] ∅)
  = Return (true,
            {| config := default_config; max_workers := 4;
               completed_pairs := {[ "r_s_l" ]};
               total_pairs := 1; results := [] |}).
Proof.
  refine (proj2 (saved_ledger_is_loaded engine_one_done
                   (new_engine default_config 4) "2026-01-02T00:00:00" [] ∅ _)).
  exists ["1"%char], ["0"%char].
  split; [reflexivity|]. split; [discriminate|]. split; [discriminate|].
  split; [reflexivity|]. split; reflexivity.
Defined.

(** X14. A run that returns can be resumed from its ledger file.  When
    the [min_rmsd_filter] of the configuration prints as a plain decimal
    and [run_parallel_docking] returns, [load_docking_state], run by any
    engine on the disk that the run leaves, returns True and gives that
    engine the ledger of the returned engine and the size of the catalog
    as [total_pairs]. *)
Theorem returned_run_is_reloaded `{Runtime} (sched : list Event)
    (e e0 : Engine) (w : World) (pairlist_df : list Row)
    (fd : option (gmap string (list string))) (n : nat)
    (rs : list Result) (e' : Engine) (w' : World) :
  decimal_literal (min_rmsd_filter (config e)) ->
  run_parallel_docking sched e w pairlist_df fd n = Some (Return rs, e', w') ->
  load_docking_state e0 (fs w')
  = Return (true,
            {| config := config e0; max_workers := max_workers e0;
               completed_pairs := completed_pairs e';
               total_pairs := length pairlist_df; results := results e0 |}).
Proof.
  intros Hlit Hrun.
  destruct (returned_run_last_save _ _ _ _ _ _ _ _ _ Hrun)
    as (ts & Hfile & Htotal & Hcfg).
  rewrite <- Htotal.
  apply (load_ledger_text e0 e' ts rs); [now rewrite Hcfg | exact Hfile].
Qed.

Lemma returned_run_is_reloaded_witness :
  exists rs e' w',
    @run_parallel_docking runtime_ok sched_one
      (new_engine default_config 4) (mkWorld ∅ []) [row_rsl] None 5
    = Some (Return rs, e', w')
    /\ load_docking_state (new_engine default_config 2) (fs w')
       = Return (true,
                 {| config := default_config; max_workers := 2;
                    completed_pairs := completed_pairs e';
                    total_pairs := 1; results := [] |}).
Proof.
  eexists _, _, _. split; [vm_compute; reflexivity|].
  refine (@returned_run_is_reloaded runtime_ok sched_one
            (new_engine default_config 4) (new_engine default_config 2)
            (mkWorld ∅ []) [row_rsl] None 5 _ _ _ _ _).
  - exists ["1"%char], ["0"%char].
    split; [reflexivity|]. split; [discriminate|]. split; [discriminate|].
    split; [reflexivity|]. split; reflexivity.
  - vm_compute. reflexivity.
Defined.

(* ================================================================== *)
(** ** Further properties: no row of the catalog is lost *)
(* ================================================================== *)

Section CoverInvariant.
Context {rt : Runtime}.
Variables (e : Engine) (fd : option (gmap string (list string))).
Variable bs : list (list Row).

Lemma step_cover_inv (ev : Event) (p p' : Pool) :
  cover_inv bs p -> step e fd ev p = Some p' -> cover_inv bs p'.
Proof.
  intros [Hrow Hcol] Hstep.
  destruct ev as [b|b| |ts]; simpl in Hstep.
  - destruct (jobs p !! b) as [j|] eqn:Hj; [|discriminate].
    destruct (todo j) as [|row rest] eqn:Htd; [discriminate|].
    destruct (has_worker _ _ _); [|discriminate].
    destruct (process_row_cases (config e) (p_completed p) fd b row
                (batch_results j) (p_world p))
      as [[Hin Hpr] | (Hout & r & w' & Hpr & Hdesc & Hcmd)];
      rewrite Hpr in Hstep; injection Hstep as <-;
      constructor; cbn [p_completed jobs all_results].
    + intros b0 batch row0 Hb0 Hr0.
      destruct (Hrow b0 batch row0 Hb0 Hr0) as (j0 & Hj0 & Hcase).
      destruct (decide (b0 = b)) as [->|Hne].
      * rewrite Hj in Hj0. injection Hj0 as <-.
        eexists. split; [apply list_lookup_insert_eq; eapply lookup_lt_Some, Hj|].
        cbn [todo batch_results].
        destruct Hcase as [Htodo|[Hled|Hres]]; [|now right; left|now right; right].
        rewrite Htd in Htodo. apply elem_of_cons in Htodo as [->|Htodo];
          [right; now left | now left].
      * exists j0. split; [|exact Hcase].
        now rewrite list_lookup_insert_ne by congruence.
    + intros b0 j0 r0 Hj0 Hc0 Hr0. insert_cases b0 b Hj Hj0.
      * injection Hj0 as <-. discriminate Hc0.
      * eauto.
    + intros b0 batch row0 Hb0 Hr0.
      destruct (Hrow b0 batch row0 Hb0 Hr0) as (j0 & Hj0 & Hcase).
      destruct (decide (b0 = b)) as [->|Hne].
      * rewrite Hj in Hj0. injection Hj0 as <-.
        eexists. split; [apply list_lookup_insert_eq; eapply lookup_lt_Some, Hj|].
        cbn [todo batch_results].
        destruct Hcase as [Htodo|[Hled|(r0 & Hr0' & Hd0)]];
          [|now right; left|].
        -- rewrite Htd in Htodo. apply elem_of_cons in Htodo as [->|Htodo];
             [|now left].
           right; right. exists r. split; [|exact Hdesc].
           apply elem_of_app. right. now apply list_elem_of_singleton.
        -- right; right. exists r0. split; [|exact Hd0].
           apply elem_of_app. now left.
      * exists j0. split; [|exact Hcase].
        now rewrite list_lookup_insert_ne by congruence.
    + intros b0 j0 r0 Hj0 Hc0 Hr0. insert_cases b0 b Hj Hj0.
      * injection Hj0 as <-. discriminate Hc0.
      * eauto.
  - destruct (tallying p) eqn:Ht; [discriminate|].
    destruct (jobs p !! b) as [j|] eqn:Hj; [|discriminate].
    destruct (negb (unfinished j) && negb (collected j)) eqn:Hfin;
      [|discriminate].
    injection Hstep as <-.
    apply andb_true_iff in Hfin as [Hfin _]. unfold unfinished in Hfin.
    destruct (todo j) as [|? ?] eqn:Htd; [|discriminate]. clear Hfin.
    constructor; cbn [p_completed jobs all_results].
    + intros b0 batch row0 Hb0 Hr0.
      destruct (Hrow b0 batch row0 Hb0 Hr0) as (j0 & Hj0 & Hcase).
      destruct (decide (b0 = b)) as [->|Hne].
      * rewrite Hj in Hj0. injection Hj0 as <-.
        eexists. split; [apply list_lookup_insert_eq; eapply lookup_lt_Some, Hj|].
        cbn [todo batch_results].
        destruct Hcase as [Htodo|[Hled|Hres]]; [|now right; left|now right; right].
        rewrite Htd in Htodo. inversion Htodo.
      * exists j0. split; [|exact Hcase].
        now rewrite list_lookup_insert_ne by congruence.
    + intros b0 j0 r0 Hj0 Hc0 Hr0. apply elem_of_app.
      insert_cases b0 b Hj Hj0.
      * injection Hj0 as <-. now right.
      * left. eauto.
  - destruct (tallying p) as [[|r rs]|] eqn:Ht; try discriminate.
    destruct (status r) eqn:Hs; injection Hstep as <-;
      constructor; cbn [p_completed jobs all_results]; try assumption.
    intros b0 batch row0 Hb0 Hr0.
    destruct (Hrow b0 batch row0 Hb0 Hr0) as (j0 & Hj0 & Hcase).
    exists j0. split; [exact Hj0|].
    destruct Hcase as [Htodo|[Hled|Hres]]; [now left| |now right; right].
    right; left. apply elem_of_union. now left.
  - destruct (tallying p) as [[|r rs]|] eqn:Ht; try discriminate.
    injection Hstep as <-.
    constructor; cbn [p_completed jobs all_results]; assumption.
Qed.

Lemma run_schedule_cover_inv (sched : list Event) :
  forall p p', cover_inv bs p -> run_schedule e fd sched p = Some p' ->
               cover_inv bs p'.
Proof.
  induction sched as [|ev sched IH]; intros p p' Hinv; simpl.
  - now intros [= <-].
  - destruct (step e fd ev p) as [p1|] eqn:Hstep; [|discriminate].
    apply IH. eapply step_cover_inv; eauto.
Qed.

End CoverInvariant.

Lemma initial_pool_cover_inv (e : Engine) (w : World)
    (pairlist_df : list Row) (n : nat) :
  cover_inv (chunks n pairlist_df) (initial_pool e w pairlist_df n).
Proof.
  constructor; cbn [initial_pool p_completed jobs all_results].
  - intros b batch row Hb Hrow. exists (mkJob batch [] false).
    split; [now rewrite list_lookup_fmap, Hb|]. now left.
  - intros b j r Hj Hc. rewrite list_lookup_fmap in Hj.
    destruct (chunks n pairlist_df !! b) as [batch|]; [|discriminate].
    injection Hj as <-. discriminate Hc.
Qed.

(** When the pool is done, every batch has been worked off and
    collected. *)
Lemma pool_done_job (p : Pool) (b : nat) (j : Job) :
  pool_done p = true -> jobs p !! b = Some j ->
  todo j = [] /\ collected j = true.
Proof.
  unfold pool_done. intros Hdone%andb_true_iff Hj. destruct Hdone as [Hjobs _].
  pose proof (forallb_lookup _ _ _ _ Hjobs Hj) as Hf. cbn beta in Hf.
  apply andb_true_iff in Hf as [Hfin Hc]. split; [|exact Hc].
  unfold unfinished in Hfin. now destruct (todo j).
Qed.

Lemma elem_of_chunks {A} (n : nat) (l : list A) (x : A) :
  0 < n -> x ∈ l -> exists b batch, chunks n l !! b = Some batch /\ x ∈ batch.
Proof.
  intros Hn Hx. rewrite <- (chunks_concat n l Hn) in Hx.
  apply list_elem_of_In, in_concat in Hx as (batch & Hbatch & Hxb).
  apply list_elem_of_In, list_elem_of_lookup_1 in Hbatch as [b Hb].
  exists b, batch. split; [exact Hb|]. now apply list_elem_of_In.
Qed.

(** X15. No row of the catalog is lost.  On every catalog and under
    every interleaving, when a run returns, each row of the catalog is
    accounted for: its pair id is in the ledger of the returned engine, or
    the returned list holds a result that describes the row and whose
    status is not success. *)
Theorem every_row_accounted_for `{Runtime} (sched : list Event)
    (e : Engine) (w : World) (pairlist_df : list Row)
    (fd : option (gmap string (list string))) (n : nat)
    (rs : list Result) (e' : Engine) (w' : World) :
  run_parallel_docking sched e w pairlist_df fd n = Some (Return rs, e', w') ->
  forall row, row ∈ pairlist_df ->
    pair_id row ∈ completed_pairs e'
    \/ exists b r, r ∈ rs /\ describes b row r /\ status r <> success.
Proof.
  intros Hrun row Hrow.
  destruct (run_parallel_docking_pool _ _ _ _ _ _ _ _ _ Hrun)
    as (Hn & p & Hsched & Hdone & -> & _ & Hc).
  destruct (run_parallel_docking_run_inv _ _ _ _ _ _ _ _ _ Hrun)
    as (p0 & Hinv & Hdone0 & Hrs0 & _ & Hc0).
  assert (Hcover : cover_inv (chunks n pairlist_df) p).
  { eapply run_schedule_cover_inv; [|exact Hsched].
    apply initial_pool_cover_inv. }
  destruct (elem_of_chunks n pairlist_df row Hn Hrow) as (b & batch & Hb & Hrb).
  destruct (ci_row Hcover b batch row Hb Hrb) as (j & Hj & Hcase).
  destruct (pool_done_job p b j Hdone Hj) as [Htodo Hcol].
  rewrite Hc.
  destruct Hcase as [Hwait|[Hled|(r & Hr & Hdesc)]].
  - rewrite Htodo in Hwait. inversion Hwait.
  - now left.
  - pose proof (ci_collected Hcover b j r Hj Hcol Hr) as Hall.
    destruct (status r) eqn:Hs.
    + left. rewrite <- Hc, Hc0. destruct Hdesc as [<- _].
      rewrite Hrs0 in Hall.
      destruct (ri_success Hinv r Hall Hs) as [|(rs1 & Hrs1 & _)]; [assumption|].
      rewrite (pool_done_tallying p0 Hdone0) in Hrs1. discriminate.
    + right. exists b, r. split; [exact Hall|]. split; [exact Hdesc|].
      rewrite Hs. discriminate.
    + right. exists b, r. split; [exact Hall|]. split; [exact Hdesc|].
      rewrite Hs. discriminate.
Qed.

Lemma every_row_accounted_for_witness :
  exists rs e' w',
    @run_parallel_docking runtime_ok sched_one
      (new_engine default_config 4) (mkWorld ∅ []) [row_rsl] None 5
    = Some (Return rs, e', w')
    /\ (pair_id row_rsl ∈ completed_pairs e'
        \/ exists b r, r ∈ rs /\ describes b row_rsl r /\ status r <> success).
Proof.
  eexists _, _, _. split; [vm_compute; reflexivity|].
  refine (@every_row_accounted_for runtime_ok sched_one
            (new_engine default_config 4) (mkWorld ∅ []) [row_rsl] None 5
            _ _ _ _ row_rsl _).
  - vm_compute. reflexivity.
  - left.
Defined.

(* ================================================================== *)
(** ** What the ledger gains, and what the next run does with it *)
(* ================================================================== *)

(** C6, as the code has it.  During a run that returns, the ledger gains
    only pair ids of returned results with status [success].  The pair id
    of a result with another status is in the final ledger only if another
    returned result with the same pair id succeeded; on a catalog with
    distinct pair ids it never is.  The startup ledger of any run is what
    the engine held together with, for every file directly in the output
    directory whose name ends in [_poses.sdf], that name with every
    [_poses.sdf] taken out, whatever the status of the run that wrote the
    file: an item whose artifact is on disk, and whose pair id contains
    neither a slash nor [_poses.sdf], is in it.  On a next run that returns,
    on a catalog with distinct pair ids, an item yields a result exactly
    when its pair id is not in that startup ledger. *)
Theorem ledger_gains_only_successes `{Runtime} (sched : list Event)
    (e : Engine) (w : World) (pairlist_df : list Row)
    (fd : option (gmap string (list string))) (n : nat)
    (rs : list Result) (e' : Engine) (w' : World) :
  run_parallel_docking sched e w pairlist_df fd n = Some (Return rs, e', w') ->
  (forall k, k ∈ completed_pairs e' ->
             k ∈ startup_ledger e w
             \/ exists r, r ∈ rs /\ status r = success /\ r_pair_id r = k)
  /\ (forall r, r ∈ rs -> status r <> success ->
        r_pair_id r ∈ completed_pairs e' ->
        exists r', r' ∈ rs /\ status r' = success
                   /\ r_pair_id r' = r_pair_id r)
  /\ (NoDup (pair_id <$> pairlist_df) ->
      forall r, r ∈ rs -> status r <> success ->
                r_pair_id r ∉ completed_pairs e')
  /\ (forall (e2 : Engine) (w2 : World) (k : string),
        k ∈ startup_ledger e2 w2 <->
        k ∈ completed_pairs e2
        \/ exists f, is_Some (fs w2 !! ("gnina_out/" +:+ f))
                     /\ Py.has_char "/" f = false
                     /\ Py.endswith f "_poses.sdf" = true
                     /\ k = Py.replace "_poses.sdf" "" f)
  /\ (forall (e2 : Engine) (w2 : World) (row : Row),
        is_Some (fs w2 !! artifact_path (key row)) ->
        Py.has_char "/" (pair_id row) = false ->
        Py.contains "_poses.sdf" (pair_id row) = false ->
        pair_id row ∈ startup_ledger e2 w2)
  /\ (forall (sched2 : list Event) (e2 : Engine) (w2 : World)
             (catalog2 : list Row) (fd2 : option (gmap string (list string)))
             (n2 : nat) (rs2 : list Result) (e2' : Engine) (w2' : World),
        NoDup (pair_id <$> catalog2) ->
        run_parallel_docking sched2 e2 w2 catalog2 fd2 n2
        = Some (Return rs2, e2', w2') ->
        forall row, row ∈ catalog2 ->
          (pair_id row ∈ startup_ledger e2 w2 ->
           forall r, r ∈ rs2 -> r_pair_id r <> pair_id row)
          /\ (pair_id row ∉ startup_ledger e2 w2 ->
              exists r, r ∈ rs2 /\ r_pair_id r = pair_id row)).
Proof.
  intros Hrun.
  assert (Hhi : forall k, k ∈ completed_pairs e' ->
                  k ∈ startup_ledger e w
                  \/ exists r, r ∈ rs /\ status r = success
                               /\ r_pair_id r = k).
  { destruct (run_parallel_docking_pool _ _ _ _ _ _ _ _ _ Hrun)
      as (_ & p & Hsched & _ & -> & _ & Hc).
    intros k. rewrite Hc.
    apply (li_ledger (run_schedule_ledger_inv _ _ _ _ _ _
                        (initial_pool_ledger_inv e w pairlist_df n) Hsched)). }
  assert (Hscan : forall (e2 : Engine) (w2 : World) (k : string),
            k ∈ startup_ledger e2 w2 <->
            k ∈ completed_pairs e2
            \/ exists f, is_Some (fs w2 !! ("gnina_out/" +:+ f))
                         /\ Py.has_char "/" f = false
                         /\ Py.endswith f "_poses.sdf" = true
                         /\ k = Py.replace "_poses.sdf" "" f).
  { intros e2 w2 k. unfold startup_ledger, load_completed_pairs. simpl.
    now rewrite elem_of_union, elem_of_list_to_set, scanned_pairs_spec. }
  split; [exact Hhi|]. split; [|split; [|split; [exact Hscan|split]]].
  - intros r Hr Hs Hk.
    destruct (Hhi _ Hk) as [Hin|Hother]; [exfalso|exact Hother].
    destruct (run_parallel_docking_run_inv _ _ _ _ _ _ _ _ _ Hrun)
      as (p & Hinv & _ & -> & _).
    destruct (ri_all Hinv r Hr) as (b & batch & row & _ & _ & Hout & Hd).
    apply Hout. destruct Hd as [<- _]. exact Hin.
  - intros Hnd r Hr Hs Hk.
    destruct (run_parallel_docking_final _ _ _ _ _ _ _ _ _ Hnd Hrun)
      as (Hn & p & Hinv & Hdone & -> & _).
    assert (Hperm := all_results_ids_perm _ _ _ _ _ Hinv Hdone).
    rewrite chunks_concat in Hperm by exact Hn.
    assert (Hpend : r_pair_id r ∈ pending_ids (startup_ledger e w) pairlist_df).
    { rewrite <- Hperm. apply list_elem_of_fmap. eauto. }
    destruct (Hhi _ Hk) as [Hin | (r' & Hr' & Hs' & Hid)].
    + apply list_elem_of_filter in Hpend as [Hout _]. now apply Hout.
    + assert (Hndr : NoDup (r_pair_id <$> all_results p)).
      { rewrite Hperm. unfold pending_ids. now apply NoDup_filter. }
      assert (r' = r) by (eapply NoDup_fmap_eq; eauto). congruence.
  - intros e2 w2 row Hfile Hslash Hsuffix.
    unfold startup_ledger, load_completed_pairs. cbn.
    apply elem_of_union. right. apply elem_of_list_to_set.
    now apply artifact_scanned.
  - intros sched2 e2 w2 catalog2 fd2 n2 rs2 e2' w2' Hnd Hrun2 row Hrow.
    destruct (run_parallel_docking_final _ _ _ _ _ _ _ _ _ Hnd Hrun2)
      as (Hn & p & Hinv & Hdone & -> & _).
    assert (Hperm := all_results_ids_perm _ _ _ _ _ Hinv Hdone).
    rewrite chunks_concat in Hperm by exact Hn.
    split.
    + intros Hin r Hr Hid.
      assert (Hpend : r_pair_id r
                      ∈ pending_ids (startup_ledger e2 w2) catalog2).
      { rewrite <- Hperm. apply list_elem_of_fmap. eauto. }
      apply list_elem_of_filter in Hpend as [Hout _]. apply Hout.
      now rewrite Hid.
    + intros Hout.
      assert (Hpend : pair_id row
                      ∈ pending_ids (startup_ledger e2 w2) catalog2).
      { apply list_elem_of_filter. split; [exact Hout|].
        apply list_elem_of_fmap. eauto. }
      rewrite <- Hperm in Hpend.
      apply list_elem_of_fmap in Hpend as (r & Hid & Hr). eauto.
Qed.

Lemma ledger_gains_only_successes_witness :
  exists rs e' w',
    @run_parallel_docking runtime_timeout sched_one
      (new_engine default_config 4) (mkWorld ∅ []) [row_rsl] None 5
    = Some (Return rs, e', w')
    /\ (forall r, r ∈ rs -> status r <> success ->
                  r_pair_id r ∉ completed_pairs e')
    /\ pair_id row_rsl ∈ startup_ledger (new_engine default_config 4) w'.
Proof.
  eexists _, _, _. split; [vm_compute; reflexivity|]. split.
  - refine (proj1 (proj2 (proj2
              (@ledger_gains_only_successes runtime_timeout sched_one
                 (new_engine default_config 4) (mkWorld ∅ []) [row_rsl]
                 None 5 _ _ _ _))) _).
    + vm_compute. reflexivity.
    + apply (bool_decide_unpack _). vm_compute. exact I.
  - refine (proj1 (proj2 (proj2 (proj2 (proj2
              (@ledger_gains_only_successes runtime_timeout sched_one
                 (new_engine default_config 4) (mkWorld ∅ []) [row_rsl]
                 None 5 _ _ _ _)))))
              (new_engine default_config 4) _ row_rsl _ _ _).
    + vm_compute. reflexivity.
    + vm_compute. eauto.
    + reflexivity.
    + reflexivity.
Defined.

(** C6 as stated fails: the tool is killed at the timeout after it wrote
    part of the artifact; the run records no success, and the next run,
    with a new engine on the disk left behind, finds the pair id in its
    startup ledger and never dispatches the item again. *)
Lemma timed_out_item_enters_ledger_by_scan :
  exists r e1 w1 e2 w2,
    @run_parallel_docking runtime_timeout sched_one
      (new_engine default_config 4) (mkWorld ∅ []) [row_rsl] None 5
    = Some (Return [r], e1, w1)
    /\ status r = timeout_status
    /\ r_pair_id r = pair_id row_rsl
    /\ completed_pairs e1 = ∅
    /\ pair_id row_rsl ∈ startup_ledger (new_engine default_config 4) w1
    /\ @run_parallel_docking runtime_timeout sched_skip_one
         (new_engine default_config 4) w1 [row_rsl] None 5
       = Some (Return [], e2, w2)
    /\ launched w2 = launched w1
    /\ pair_id row_rsl ∈ completed_pairs e2.
Proof.
  eexists _, _, _, _, _. split; [vm_compute; reflexivity|].
  split; [reflexivity|]. split; [reflexivity|]. split; [reflexivity|].
  split; [vm_compute; set_solver|].
  split; [vm_compute; reflexivity|]. split; [reflexivity|].
  vm_compute. set_solver.
Qed.
